(** * koda-js: entry points, backend selection, decoder worker, N-API glue
      and the [.kod] codec

    Part I embeds the program:
    - [Native]   [native.ts]: the native interface and [loadNative];
    - [Index]    [index.ts]: [parse], [stringify], [encode], [decode],
                 [decodeSync];
    - [Worker]   [worker/decoder-worker.ts]: [getNative], [doDecode] and
                 the message handler;
    - [Binding]  [native/binding.cc]: [ValueToNapi], [NapiToValue],
                 [NativeParse], [NativeStringify], [NativeEncode],
                 [NativeDecode];
    - [Koda]     the value model and the binary codec of [namespace koda],
                 whose sources are not in the tree and are modelled from
                 the format specification;
    - [Double], [Wire], [Js], [Options], [Fallback]: the data these work
      on (binary64 patterns, bytes, host values and errors, option
      objects, the JavaScript implementations taken as parameters).

    Part II states and proves the properties. *)

From Stdlib Require Import ZArith List Lia Bool String Ascii.
From Stdlib.Strings Require Import Byte.
From Stdlib Require Import DecimalString.
From Stdlib Require DecimalNat.
From Stdlib Require Import Permutation Sorted.
From Stdlib Require OrderedTypeEx.
Import ListNotations.

Local Open Scope Z_scope.

(* ================================================================== *)
(** * Part I: the program *)

(** ** Bytes and big-endian integers *)

Module Wire.

Definition bytes := list byte.

Definition Z_of_byte (b : byte) : Z := Z.of_N (Byte.to_N b).

Definition byte_of_Z (z : Z) : byte :=
  match Byte.of_N (Z.to_N (z mod 256)) with
  | Some b => b
  | None => x00
  end.

(** [n] bytes, most significant first, of [z] taken modulo [256^n]. *)
Fixpoint be_encode (n : nat) (z : Z) : bytes :=
  match n with
  | O => []
  | S k => byte_of_Z (z / 256 ^ Z.of_nat k) :: be_encode k z
  end.

Definition be_decode (bs : bytes) : Z :=
  fold_left (fun acc b => acc * 256 + Z_of_byte b) bs 0.

Definition u32 (z : Z) : bytes := be_encode 4 z.

(** Two's complement: the 64-bit pattern of a signed integer and back. *)
Definition to_signed64 (u : Z) : Z :=
  if u <? 2 ^ 63 then u else u - 2 ^ 64.

Definition i64 (z : Z) : bytes := be_encode 8 (z mod 2 ^ 64).

End Wire.

(* ------------------------------------------------------------------ *)
(** ** IEEE-754 binary64

    A [double] is its 64-bit pattern: sign (bit 63), biased exponent
    (bits 62..52) and fraction (bits 51..0).  The operations below are the
    ones the binding applies to a [double]: the ordered comparisons, [==],
    and the two C++ conversions [static_cast<int64_t>(double)] and
    [static_cast<double>(int64_t)]. *)

Module Double.

Definition double := Z.

Definition wf (d : double) : Prop := 0 <= d < 2 ^ 64.

Definition sign (d : double) : bool := 2 ^ 63 <=? d.
Definition magnitude (d : double) : Z := d mod 2 ^ 63.
Definition biased_exponent (d : double) : Z := (d / 2 ^ 52) mod 2 ^ 11.
Definition fraction (d : double) : Z := d mod 2 ^ 52.

Definition is_nan (d : double) : bool :=
  (biased_exponent d =? 2047) && negb (fraction d =? 0).

(** Sign-magnitude key: monotone in the numeric value on non-NaN doubles,
    and equal on [+0] and [-0]. *)
Definition ordkey (d : double) : Z :=
  if sign d then - magnitude d else magnitude d.

(** [a <= b], [a >= b] and [a == b] of C++ (all false on NaN). *)
Definition leb (a b : double) : bool :=
  negb (is_nan a) && negb (is_nan b) && (ordkey a <=? ordkey b).
Definition geb (a b : double) : bool := leb b a.
Definition eqb (a b : double) : bool :=
  negb (is_nan a) && negb (is_nan b) && (ordkey a =? ordkey b).

Definition pack (s : bool) (e f : Z) : double :=
  (if s then 2 ^ 63 else 0) + e * 2 ^ 52 + f.

(** [static_cast<int64_t>(d)]: truncation toward zero.  The result is only
    defined by C++ when it fits an [int64_t]; the binding calls it under
    the guard [|d| <= 2^53]. *)
Definition trunc_magnitude (d : double) : Z :=
  let e := biased_exponent d in
  if e <? 1023 then 0
  else if e <=? 1075 then Z.shiftr (2 ^ 52 + fraction d) (1075 - e)
  else Z.shiftl (2 ^ 52 + fraction d) (e - 1075).

Definition to_int64 (d : double) : Z :=
  if sign d then - trunc_magnitude d else trunc_magnitude d.

(** [static_cast<double>(i)] for an [int64_t] [i]: the nearest double,
    ties to even. *)
Definition of_int64 (i : Z) : double :=
  if i =? 0 then 0
  else
    let m := Z.abs i in
    let n := Z.log2 m in
    let s := i <? 0 in
    if n <=? 52 then pack s (1023 + n) (m * 2 ^ (52 - n) - 2 ^ 52)
    else
      let sh := n - 52 in
      let q := Z.shiftr m sh in
      let r := m mod 2 ^ sh in
      let half := 2 ^ (sh - 1) in
      let q' := if (half <? r) || ((r =? half) && Z.odd q) then q + 1 else q in
      pack s (1023 + n) (q' - 2 ^ 52).

Definition pos_zero : double := 0.
Definition neg_zero : double := 0x8000000000000000.
Definition one : double := 0x3FF0000000000000.
Definition one_and_half : double := 0x3FF8000000000000.
(** [9007199254740992.0] and [-9007199254740992.0]. *)
Definition two53 : double := 0x4340000000000000.
Definition neg_two53 : double := 0xC340000000000000.
Definition quiet_nan : double := 0x7FF8000000000000.

End Double.

(* ------------------------------------------------------------------ *)
(** ** Host (JavaScript) values, errors and completions *)

Module Js.

(** A JavaScript value as the addon observes it through N-API: a number by
    [DoubleValue()], a string by the UTF-8 bytes [Utf8Value()] returns for
    it, an array by its elements, any other object by the names
    [GetPropertyNames()] lists for it (its enumerable string-keyed
    properties, own and inherited, in the host's order), each with the
    value [Get] returns for it. *)
#[local] Unset Elimination Schemes.
Inductive JsValue : Type :=
| JsUndefined
| JsNull
| JsBoolean (b : bool)
| JsNumber (d : Double.double)
| JsString (s : string)
| JsArray (elems : list JsValue)
| JsObject (props : list (string * JsValue))
| JsSymbol (description : string)
| JsBigInt (n : Z).
#[local] Set Elimination Schemes.

(** *** Numbers and strings made by the addon *)

(** [Napi::Number::New(env, d)]: V8 lets only the canonical NaN in. *)
Definition Number_New (d : Double.double) : JsValue :=
  JsNumber (if Double.is_nan d then Double.quiet_nan else d).

Definition within (lo hi b : Z) : bool := (lo <=? b) && (b <=? hi).

(** U+FFFD in UTF-8. *)
Definition replacement : Wire.bytes := [xef; xbf; xbd].

(** V8's UTF-8 decoder between two bytes: at a boundary, or inside a
    sequence, with the bytes read of it, the number still to come and the
    range the next one has to be in. *)
Inductive Utf8State : Type :=
| Accept
| Pending (seen : Wire.bytes) (needed : nat) (lo hi : Z).

(** A byte met at a boundary: what is put out and the state after it. *)
Definition utf8_lead (b : byte) : Wire.bytes * Utf8State :=
  let z := Wire.Z_of_byte b in
  if z <=? 0x7F then ([b], Accept)
  else if within 0xC2 0xDF z then ([], Pending [b] 1 0x80 0xBF)
  else if within 0xE0 0xEF z then
    ([], Pending [b] 2 (if z =? 0xE0 then 0xA0 else 0x80) (if z =? 0xED then 0x9F else 0xBF))
  else if within 0xF0 0xF4 z then
    ([], Pending [b] 3 (if z =? 0xF0 then 0x90 else 0x80) (if z =? 0xF4 then 0x8F else 0xBF))
  else (replacement, Accept).

(** The text the bytes decode to, as UTF-8 again: a well-formed sequence
    is kept, every maximal ill-formed part becomes one U+FFFD, and the
    byte that broke a sequence is looked at again. *)
Fixpoint utf8_decode (st : Utf8State) (bs : Wire.bytes) : Wire.bytes :=
  match bs with
  | [] => match st with Accept => [] | Pending _ _ _ _ => replacement end
  | b :: rest =>
      match st with
      | Accept => fst (utf8_lead b) ++ utf8_decode (snd (utf8_lead b)) rest
      | Pending seen needed lo hi =>
          if within lo hi (Wire.Z_of_byte b) then
            match needed with
            | S (S k) => utf8_decode (Pending (seen ++ [b]) (S k) 0x80 0xBF) rest
            | _ => seen ++ [b] ++ utf8_decode Accept rest
            end
          else replacement ++ fst (utf8_lead b) ++ utf8_decode (snd (utf8_lead b)) rest
      end
  end.

(** [Napi::String::New(env, s)] for a [std::string]: the string its bytes
    decode to, held by its [Utf8Value()]. *)
Definition String_New (s : string) : string :=
  string_of_list_byte (utf8_decode Accept (list_byte_of_string s)).

(** *** Objects made by the addon *)

(** [utf8name.c_str()]: a property name handed over as a [std::string] ends
    at its first NUL. *)
Fixpoint c_str (s : string) : string :=
  match s with
  | EmptyString => EmptyString
  | String c rest => if Ascii.eqb c Ascii.zero then EmptyString else String c (c_str rest)
  end.

Fixpoint decimal (s : string) (acc : Z) : option Z :=
  match s with
  | EmptyString => Some acc
  | String c rest =>
      let n := Z.of_N (N_of_ascii c) in
      if within 48 57 n then decimal rest (10 * acc + (n - 48)) else None
  end.

(** The array index a property name denotes: a canonical decimal numeral
    of at most [2^32 - 2]. *)
Definition array_index (key : string) : option Z :=
  match key with
  | EmptyString => None
  | String c rest =>
      if Ascii.eqb c "0" && negb (String.eqb rest "") then None
      else
        match decimal key 0 with
        | Some n => if n <=? 4294967294 then Some n else None
        | None => None
        end
  end.

(** The host lists array indices first, in ascending order, then the other
    names in the order of their creation: whether the new name [key] comes
    before the name [k] already there. *)
Definition listed_before (key k : string) : bool :=
  match array_index key, array_index k with
  | Some i, Some j => i <? j
  | Some _, None => true
  | None, _ => false
  end.

Definition has_property (o : list (string * JsValue)) (key : string) : bool :=
  existsb (fun p => String.eqb (fst p) key) o.

Fixpoint overwrite (o : list (string * JsValue)) (key : string) (value : JsValue)
  : list (string * JsValue) :=
  match o with
  | [] => []
  | (k, v) :: o' =>
      if String.eqb k key then (k, value) :: o' else (k, v) :: overwrite o' key value
  end.

Fixpoint insert (o : list (string * JsValue)) (key : string) (value : JsValue)
  : list (string * JsValue) :=
  match o with
  | [] => [(key, value)]
  | (k, v) :: o' =>
      if listed_before key k then (key, value) :: o else (k, v) :: insert o' key value
  end.

(** An own data property is written: in place when the object has it, at
    its place in the host's order when it is new. *)
Definition define (o : list (string * JsValue)) (key : string) (value : JsValue)
  : list (string * JsValue) :=
  if has_property o key then overwrite o key value else insert o key value.

(** What an object inherits from: [Object.prototype] (as after
    [Napi::Object::New]), nothing, or an object the addon built before,
    given by the properties it lists and by whether its own chain of
    prototypes ends in [Object.prototype]. *)
Inductive Prototype : Type :=
| ObjectPrototype
| NullPrototype
| InheritFrom (props : list (string * JsValue)) (accessor : bool).

(** An object under construction: its own properties in the host's order
    and its prototype. *)
Record HostObject : Type := {
  own : list (string * JsValue);
  prototype : Prototype
}.

Definition Object_New : HostObject := {| own := []; prototype := ObjectPrototype |}.

Definition index_name (i : nat) : string := NilZero.string_of_uint (Nat.to_uint i).

(** The properties an array lists: its elements under their indices. *)
Definition indexed (elems : list JsValue) : list (string * JsValue) :=
  combine (map index_name (seq 0 (List.length elems))) elems.

Definition inherited (p : Prototype) : list (string * JsValue) :=
  match p with
  | InheritFrom props _ => props
  | _ => []
  end.

Definition ends_in_Object_prototype (p : Prototype) : bool :=
  match p with
  | ObjectPrototype => true
  | NullPrototype => false
  | InheritFrom _ accessor => accessor
  end.

(** Whether an assignment to ["__proto__"] runs the accessor of
    [Object.prototype]: no data property of that name on the object or on
    its chain, and a chain that ends in [Object.prototype]. *)
Definition finds_proto_setter (o : HostObject) : bool :=
  negb (has_property (own o) "__proto__")
  && negb (has_property (inherited (prototype o)) "__proto__")
  && ends_in_Object_prototype (prototype o).

(** The accessor: an object, an array or [null] becomes the prototype, any
    other value is ignored. *)
Definition set_prototype (o : HostObject) (value : JsValue) (accessor : bool) : HostObject :=
  match value with
  | JsObject props => {| own := own o; prototype := InheritFrom props accessor |}
  | JsArray elems => {| own := own o; prototype := InheritFrom (indexed elems) true |}
  | JsNull => {| own := own o; prototype := NullPrototype |}
  | _ => o
  end.

(** [obj.Set(utf8name, value)] for a [std::string] name: the name is the
    string its C string decodes to, and the assignment is an ordinary
    [[Set]].  [accessor] tells, for a [value] that is an object, whether
    its chain of prototypes ends in [Object.prototype]. *)
Definition obj_set (o : HostObject) (utf8name : string) (value : JsValue) (accessor : bool)
  : HostObject :=
  let key := String_New (c_str utf8name) in
  if String.eqb key "__proto__" && finds_proto_setter o
  then set_prototype o value accessor
  else {| own := define (own o) key value; prototype := prototype o |}.

(** [obj.GetPropertyNames()] with, for each name, what [obj.Get] returns:
    the own properties, then the inherited ones they do not shadow. *)
Definition GetPropertyNames (o : HostObject) : list (string * JsValue) :=
  own o ++ filter (fun p => negb (has_property (own o) (fst p))) (inherited (prototype o)).

(** The kinds of host value the data model has a variant for. *)
Definition is_koda_kind (v : JsValue) : bool :=
  match v with
  | JsNull | JsBoolean _ | JsNumber _ | JsString _ | JsArray _ | JsObject _ => true
  | JsUndefined | JsSymbol _ | JsBigInt _ => false
  end.

Inductive ErrorClass : Type :=
| Error | TypeError | KodaParseError | KodaEncodeError | KodaDecodeError.

(** An error object: its class, its [message] and, on a [KodaDecodeError]
    built by a decoder, its [byteOffset]. *)
Record JsError : Type := mkError {
  cls : ErrorClass;
  message : string;
  byteOffset : option nat
}.

Definition instanceof (e : JsError) (c : ErrorClass) : bool :=
  match cls e, c with
  | Error, Error | TypeError, TypeError | KodaParseError, KodaParseError
  | KodaEncodeError, KodaEncodeError | KodaDecodeError, KodaDecodeError => true
  | _, Error => true
  | _, _ => false
  end.

(** Modelled from the spec: [new KodaParseError(message)] and
    [new KodaDecodeError(message)] ([errors.ts] is not in the tree): an
    error of that class with the message given and no location. *)
Definition new_KodaParseError (msg : string) : JsError :=
  mkError KodaParseError msg None.
Definition new_KodaDecodeError (msg : string) : JsError :=
  mkError KodaDecodeError msg None.

(** The outcome of a call: a returned value or a thrown error. *)
Inductive Completion (A : Type) : Type :=
| Return (a : A)
| Throw (e : JsError).
Arguments Return {A} a.
Arguments Throw {A} e.

End Js.

(* ------------------------------------------------------------------ *)
(** ** The native value model and the binary codec ([namespace koda]) *)

Module Koda.
Import Wire.

(** Modelled from the spec: [koda::Value] ([native/koda_value.h] is not in
    the tree), the tagged variant of seven cases, with the payload fields
    [binding.cc] reads and writes: [b], [i] (an [int64_t]), [d], [s],
    [arr] and [obj] (a vector of key/value pairs). *)
#[local] Unset Elimination Schemes.
Inductive Value : Type :=
| null_val
| bool_val (b : bool)
| int_val (i : Z)
| float_val (d : Double.double)
| string_val (s : string)
| array_val (arr : list Value)
| object_val (obj : list (string * Value)).
#[local] Set Elimination Schemes.

(** A C++ call: a result, or a [std::exception] with its [what()]. *)
Inductive Outcome (A : Type) : Type :=
| Ok (a : A)
| Raise (what : string).
Arguments Ok {A} a.
Arguments Raise {A} what.

(** *** UTF-8 well-formedness *)

(** Modelled from the spec: the UTF-8 validation the codec applies to
    strings and keys ([native/koda_binary.cc] is not in the tree), as the
    well-formed byte sequences of the Unicode standard (table 3-7). *)
Definition in_range (lo hi b : Z) : bool := (lo <=? b) && (b <=? hi).
Definition is_cont (b : Z) : bool := in_range 0x80 0xBF b.

Definition second_of_3 (b0 b1 : Z) : bool :=
  if b0 =? 0xE0 then in_range 0xA0 0xBF b1
  else if b0 =? 0xED then in_range 0x80 0x9F b1
  else is_cont b1.

Definition second_of_4 (b0 b1 : Z) : bool :=
  if b0 =? 0xF0 then in_range 0x90 0xBF b1
  else if b0 =? 0xF4 then in_range 0x80 0x8F b1
  else is_cont b1.

(** Length of the well-formed sequence led by [b0], if there is one. *)
Definition utf8_sequence (b0 : Z) (rest : list Z) : option nat :=
  if b0 <=? 0x7F then Some 1%nat
  else if in_range 0xC2 0xDF b0 then
    match rest with
    | b1 :: _ => if is_cont b1 then Some 2%nat else None
    | _ => None
    end
  else if in_range 0xE0 0xEF b0 then
    match rest with
    | b1 :: b2 :: _ => if second_of_3 b0 b1 && is_cont b2 then Some 3%nat else None
    | _ => None
    end
  else if in_range 0xF0 0xF4 b0 then
    match rest with
    | b1 :: b2 :: b3 :: _ =>
        if second_of_4 b0 b1 && is_cont b2 && is_cont b3 then Some 4%nat else None
    | _ => None
    end
  else None.

(** Offset of the first byte that does not start or continue a well-formed
    sequence; [skip] counts the continuation bytes already accepted. *)
Fixpoint utf8_scan (pos skip : nat) (bs : list Z) : option nat :=
  match bs with
  | [] => None
  | b :: t =>
      match skip with
      | S k => utf8_scan (S pos) k t
      | O =>
          match utf8_sequence b t with
          | Some n => utf8_scan (S pos) (Nat.pred n) t
          | None => Some pos
          end
      end
  end.

Definition utf8_first_invalid (bs : bytes) : option nat :=
  utf8_scan 0 0 (map Z_of_byte bs).

Definition utf8_valid (s : string) : bool :=
  match utf8_first_invalid (list_byte_of_string s) with
  | None => true
  | Some _ => false
  end.

(** *** Ordering by key *)

Section SortByKey.
Context {A : Type} (key : A -> string).

Fixpoint insert_sorted (x : A) (l : list A) : list A :=
  match l with
  | [] => [x]
  | y :: l' =>
      if String.leb (key x) (key y) then x :: l else y :: insert_sorted x l'
  end.

Definition sort_by_key (l : list A) : list A := fold_right insert_sorted [] l.

End SortByKey.

Fixpoint distinct (l : list string) : bool :=
  match l with
  | [] => true
  | k :: l' => negb (existsb (String.eqb k) l') && distinct l'
  end.

Fixpoint index_of (k : string) (dict : list string) : option nat :=
  match dict with
  | [] => None
  | x :: dict' =>
      if String.eqb x k then Some 0%nat else option_map S (index_of k dict')
  end.

(** *** Encoder

    [koda::encode] of [native/koda_binary.cc] is not in the tree.  The
    definitions of this part follow the format specification: depth, key
    dictionary (pre-order collection, deduplication, byte-wise
    lexicographic sort), header, tag table, canonical pair order, NaN
    canonicalisation and the listed encoder failures. *)

(** Modelled from the spec: depth is 1 for a scalar and one more than the
    deepest child for a container ([koda_binary.cc] is not in the tree). *)
Fixpoint depth (v : Value) : nat :=
  match v with
  | array_val arr => S (fold_right (fun x m => Nat.max (depth x) m) 0%nat arr)
  | object_val obj => S (fold_right (fun p m => Nat.max (depth (snd p)) m) 0%nat obj)
  | _ => 1%nat
  end.

Fixpoint collect_keys (v : Value) : list string :=
  match v with
  | array_val arr => flat_map collect_keys arr
  | object_val obj => flat_map (fun p => fst p :: collect_keys (snd p)) obj
  | _ => []
  end.

(** Modelled from the spec: the key dictionary ([koda_binary.cc] is not in
    the tree): the keys of all objects, deduplicated, in ascending
    byte-wise order; a key's position is its id. *)
Definition dictionary (v : Value) : list string :=
  sort_by_key (fun k => k) (nodup string_dec (collect_keys v)).

Definition magic : bytes := [x4b; x4f; x44; x41].
Definition version : byte := x01.

Definition byte_length (s : string) : Z := Z.of_nat (String.length s).

Definition encode_string (s : string) : bytes :=
  u32 (byte_length s) ++ list_byte_of_string s.

Definition encode_dictionary (dict : list string) : bytes :=
  u32 (Z.of_nat (List.length dict)) ++ flat_map encode_string dict.

Definition canonical_bits (d : Double.double) : Z :=
  if Double.is_nan d then Double.quiet_nan else d.

Definition key_id (dict : list string) (k : string) : Z :=
  match index_of k dict with
  | Some i => Z.of_nat i
  | None => 0
  end.

Definition encode_pair (dict : list string) (p : string * bytes) : bytes :=
  u32 (key_id dict (fst p)) ++ snd p.

(** Modelled from the spec: one encoded value ([koda_binary.cc] is not in
    the tree): the tag byte and the body of the tag table, the pairs of an
    object in ascending key order. *)
Fixpoint encode_value (dict : list string) (v : Value) : bytes :=
  match v with
  | null_val => [x01]
  | bool_val false => [x02]
  | bool_val true => [x03]
  | int_val i => x04 :: i64 i
  | float_val d => x05 :: be_encode 8 (canonical_bits d)
  | string_val s => x06 :: encode_string s
  | array_val arr =>
      x10 :: u32 (Z.of_nat (List.length arr)) ++ flat_map (encode_value dict) arr
  | object_val obj =>
      x11 :: u32 (Z.of_nat (List.length obj))
          ++ flat_map (encode_pair dict)
               (sort_by_key fst (map (fun p => (fst p, encode_value dict (snd p))) obj))
  end.

Fixpoint strings_valid (v : Value) : bool :=
  match v with
  | string_val s => utf8_valid s
  | array_val arr => forallb strings_valid arr
  | object_val obj => forallb (fun p => utf8_valid (fst p) && strings_valid (snd p)) obj
  | _ => true
  end.

Fixpoint keys_unique (v : Value) : bool :=
  match v with
  | array_val arr => forallb keys_unique arr
  | object_val obj =>
      distinct (map fst obj) && forallb (fun p => keys_unique (snd p)) obj
  | _ => true
  end.

Definition fits_u32 (n : Z) : bool := n <? 2 ^ 32.

Fixpoint sizes_fit (v : Value) : bool :=
  match v with
  | string_val s => fits_u32 (byte_length s)
  | array_val arr => fits_u32 (Z.of_nat (List.length arr)) && forallb sizes_fit arr
  | object_val obj =>
      fits_u32 (Z.of_nat (List.length obj))
      && forallb (fun p => fits_u32 (byte_length (fst p)) && sizes_fit (snd p)) obj
  | _ => true
  end.

(** Modelled from the spec: [koda::encode(v, max_depth)] ([koda_binary.cc]
    is not in the tree): the failures of the encoder, then magic, version,
    dictionary and the root value. *)
Definition encode (v : Value) (max_depth : Z) : Outcome bytes :=
  if max_depth <? Z.of_nat (depth v) then Raise "maximum depth exceeded"
  else if negb (strings_valid v) then Raise "invalid UTF-8"
  else if negb (keys_unique v) then Raise "duplicate key"
  else
    let dict := dictionary v in
    if negb (sizes_fit v && fits_u32 (Z.of_nat (List.length dict)))
    then Raise "length exceeds u32"
    else Ok (magic ++ [version] ++ encode_dictionary dict ++ encode_value dict v).

(** *** Decoder

    [koda::decode] of [native/koda_binary.cc] is not in the tree.  The
    definitions of this part follow the validation order and the
    per-value checks of the format specification; every failure records
    the byte offset at which the check failed. *)

Inductive DecodeErrorKind : Type :=
| TruncatedInput
| BadMagic
| UnsupportedVersion
| DictionaryTooLarge
| StringTooLong
| InvalidUtf8
| DictionaryNotSorted
| DepthExceeded
| UnknownTag
| LengthExceedsInput
| KeyIndexOutOfRange
| KeyOrder
| TrailingBytes.

Record DecodeFailure : Type := mkFailure {
  reason : DecodeErrorKind;
  offset : nat
}.

Inductive Parsed (A : Type) : Type :=
| Done (a : A) (pos : nat) (rest : bytes)
| Failed (f : DecodeFailure).
Arguments Done {A} a pos rest.
Arguments Failed {A} f.

(** A reader consumes bytes from the cursor [(pos, rest)]. *)
Definition Reader (A : Type) : Type := nat -> bytes -> Parsed A.

Definition ret {A} (a : A) : Reader A := fun pos rest => Done a pos rest.

Definition bind {A B} (r : Reader A) (k : A -> Reader B) : Reader B :=
  fun pos rest =>
    match r pos rest with
    | Done a pos' rest' => k a pos' rest'
    | Failed f => Failed f
    end.

Notation "x <- r ;; k" := (bind r (fun x => k))
  (at level 61, r at next level, right associativity).
Notation "r ;;; k" := (bind r (fun _ => k))
  (at level 61, right associativity).

Definition fail_at {A} (kind : DecodeErrorKind) (off : nat) : Reader A :=
  fun _ _ => Failed (mkFailure kind off).

Definition fail {A} (kind : DecodeErrorKind) : Reader A :=
  fun pos _ => Failed (mkFailure kind pos).

Definition here : Reader nat := fun pos rest => Done pos pos rest.

Definition remaining : Reader Z :=
  fun pos rest => Done (Z.of_nat (List.length rest)) pos rest.

Definition take (n : nat) : Reader bytes :=
  fun pos rest =>
    if (n <=? List.length rest)%nat
    then Done (firstn n rest) (pos + n)%nat (skipn n rest)
    else Failed (mkFailure TruncatedInput pos).

Definition read_byte : Reader Z :=
  bs <- take 1 ;; ret (be_decode bs).

Definition read_u32 : Reader Z :=
  bs <- take 4 ;; ret (be_decode bs).

Definition bytes_eqb (a b : bytes) : bool :=
  if list_eq_dec Byte.byte_eq_dec a b then true else false.

Definition read_header : Reader unit :=
  n <- remaining ;;
  if n <? 5 then fail TruncatedInput
  else
    m <- take 4 ;;
    if negb (bytes_eqb m magic) then fail_at BadMagic 0
    else
      at_version <- here ;;
      v <- read_byte ;;
      if negb (v =? Z_of_byte version) then fail_at UnsupportedVersion at_version
      else ret tt.

(** A [u32] length, bounded by [max_str] and by the bytes that remain, then
    that many bytes of well-formed UTF-8. *)
Definition read_string (max_str : Z) : Reader string :=
  at_len <- here ;;
  len <- read_u32 ;;
  if max_str <? len then fail_at StringTooLong at_len
  else
    n <- remaining ;;
    if n <? len then fail_at LengthExceedsInput at_len
    else
      start <- here ;;
      bs <- take (Z.to_nat len) ;;
      match utf8_first_invalid bs with
      | Some i => fail_at InvalidUtf8 (start + i)
      | None => ret (string_of_list_byte bs)
      end.

Fixpoint read_entries (max_str : Z) (n : nat) : Reader (list (nat * string)) :=
  match n with
  | O => ret []
  | S k =>
      at_entry <- here ;;
      s <- read_string max_str ;;
      es <- read_entries max_str k ;;
      ret ((at_entry, s) :: es)
  end.

(** Offset of the first entry that is not strictly above its predecessor. *)
Fixpoint first_unsorted (prev : string) (entries : list (nat * string)) : option nat :=
  match entries with
  | [] => None
  | (at_entry, k) :: es =>
      if String.ltb prev k then first_unsorted k es else Some at_entry
  end.

Definition check_sorted (entries : list (nat * string)) : option nat :=
  match entries with
  | [] => None
  | (_, k) :: es => first_unsorted k es
  end.

Definition read_dictionary (max_dict max_str : Z) : Reader (list string) :=
  at_count <- here ;;
  n <- read_u32 ;;
  if max_dict <? n then fail_at DictionaryTooLarge at_count
  else
    entries <- read_entries max_str (Z.to_nat n) ;;
    match check_sorted entries with
    | Some off => fail_at DictionaryNotSorted off
    | None => ret (map snd entries)
    end.

(** A [u32] element count, which must not exceed the bytes that remain. *)
Definition read_count : Reader nat :=
  at_count <- here ;;
  n <- read_u32 ;;
  r <- remaining ;;
  if r <? n then fail_at LengthExceedsInput at_count
  else ret (Z.to_nat n).

Fixpoint read_values (item : Reader Value) (n : nat) : Reader (list Value) :=
  match n with
  | O => ret []
  | S k =>
      v <- item ;;
      vs <- read_values item k ;;
      ret (v :: vs)
  end.

Fixpoint read_pairs (item : Reader Value) (dict : list string)
    (prev : option Z) (n : nat) : Reader (list (string * Value)) :=
  match n with
  | O => ret []
  | S k =>
      at_index <- here ;;
      idx <- read_u32 ;;
      match nth_error dict (Z.to_nat idx) with
      | None => fail_at KeyIndexOutOfRange at_index
      | Some key =>
          if match prev with Some p => idx <=? p | None => false end
          then fail_at KeyOrder at_index
          else
            v <- item ;;
            ps <- read_pairs item dict (Some idx) k ;;
            ret ((key, v) :: ps)
      end
  end.

(** Modelled from the spec: reading one value ([koda_binary.cc] is not in
    the tree), with the per-value checks.  [fuel] is the depth still
    allowed: the root is read with [max_depth]. *)
Fixpoint read_value (fuel : nat) (dict : list string) (max_str : Z) : Reader Value :=
  match fuel with
  | O => fail DepthExceeded
  | S fuel' =>
      at_tag <- here ;;
      tag <- read_byte ;;
      if tag =? 0x01 then ret null_val
      else if tag =? 0x02 then ret (bool_val false)
      else if tag =? 0x03 then ret (bool_val true)
      else if tag =? 0x04 then
        bs <- take 8 ;; ret (int_val (to_signed64 (be_decode bs)))
      else if tag =? 0x05 then
        bs <- take 8 ;; ret (float_val (be_decode bs))
      else if tag =? 0x06 then
        s <- read_string max_str ;; ret (string_val s)
      else if tag =? 0x10 then
        n <- read_count ;;
        arr <- read_values (read_value fuel' dict max_str) n ;;
        ret (array_val arr)
      else if tag =? 0x11 then
        n <- read_count ;;
        obj <- read_pairs (read_value fuel' dict max_str) dict None n ;;
        ret (object_val obj)
      else fail_at UnknownTag at_tag
  end.

(** Modelled from the spec: the validation order of the decoder
    ([koda_binary.cc] is not in the tree): header, dictionary, root value,
    no trailing bytes. *)
Definition read_document (max_depth max_dict max_str : Z) : Reader Value :=
  read_header ;;;
  dict <- read_dictionary max_dict max_str ;;
  v <- read_value (Z.to_nat max_depth) dict max_str ;;
  n <- remaining ;;
  if 0 <? n then fail TrailingBytes else ret v.

Definition decode_document (data : bytes) (max_depth max_dict max_str : Z)
  : Value + DecodeFailure :=
  match read_document max_depth max_dict max_str 0%nat data with
  | Done v _ _ => inl v
  | Failed f => inr f
  end.

Definition describe (kind : DecodeErrorKind) : string :=
  match kind with
  | TruncatedInput => "unexpected end of input"
  | BadMagic => "invalid magic"
  | UnsupportedVersion => "unsupported version"
  | DictionaryTooLarge => "dictionary too large"
  | StringTooLong => "string too long"
  | InvalidUtf8 => "invalid UTF-8"
  | DictionaryNotSorted => "dictionary not in canonical order"
  | DepthExceeded => "maximum depth exceeded"
  | UnknownTag => "unknown type tag"
  | LengthExceedsInput => "length exceeds input"
  | KeyIndexOutOfRange => "key index out of range"
  | KeyOrder => "object keys not in canonical order"
  | TrailingBytes => "trailing bytes"
  end.

Definition what (f : DecodeFailure) : string :=
  describe (reason f) ++ " at byte " ++ NilZero.string_of_uint (Nat.to_uint (offset f)).

(** Modelled from the spec: [koda::decode(data, len, max_depth, max_dict,
    max_str)] ([koda_binary.cc] is not in the tree); the exception's
    [what()] names the rule violated and the byte offset. *)
Definition decode (data : bytes) (max_depth max_dict max_str : Z) : Outcome Value :=
  match decode_document data max_depth max_dict max_str with
  | inl v => Ok v
  | inr f => Raise (what f)
  end.

End Koda.

(* ------------------------------------------------------------------ *)
(** ** Option objects of the public API *)

Module Options.

(** Modelled from the spec: the option types of [parser.ts],
    [stringify.ts], [encoder.ts] and [decoder.ts] (not in the tree), with
    the fields [index.ts] reads and the README lists; every field is
    optional, a number being held as the integer it denotes. *)

Record ParseOptions : Type := {
  parse_maxDepth : option Z;
  maxInputLength : option Z
}.

Inductive Indent : Type :=
| IndentString (s : string)
| IndentNumber (n : Z).

Record StringifyOptions : Type := {
  indent : option Indent;
  newline : option string
}.

Record EncodeOptions : Type := {
  encode_maxDepth : option Z
}.

Record DecodeOptions : Type := {
  decode_maxDepth : option Z;
  maxDictionarySize : option Z;
  maxStringLength : option Z
}.

(** The literal [{ maxDepth?: number }] of the native interface. *)
Record DepthOptions : Type := {
  maxDepth : option Z
}.

(** [options?.field] *)
Definition chain {O A} (options : option O) (field : O -> option A) : option A :=
  match options with
  | Some o => field o
  | None => None
  end.

(** Truthiness of [options?.indent]: [undefined], [""] and [0] are falsy. *)
Definition truthy (i : option Indent) : bool :=
  match i with
  | None => false
  | Some (IndentString s) => negb (String.eqb s "")
  | Some (IndentNumber n) => negb (n =? 0)
  end.

End Options.

(* ------------------------------------------------------------------ *)
(** ** [native.ts]: the native interface and its memoised loader *)

Module Native.
Import Js Options.

Record NativeBinding : Type := {
  nb_parse : string -> DepthOptions -> Completion JsValue;
  nb_stringify : JsValue -> Completion string;
  nb_encode : JsValue -> DepthOptions -> Completion Wire.bytes;
  nb_decode : Wire.bytes -> DecodeOptions -> Completion JsValue
}.

(** What [req(addonPath)] evaluates to: an object whose property [p] is
    [Some f] exactly when [typeof binding.p === 'function']. *)
Record ModuleExports : Type := {
  exp_parse : option (string -> DepthOptions -> Completion JsValue);
  exp_stringify : option (JsValue -> Completion string);
  exp_encode : option (JsValue -> DepthOptions -> Completion Wire.bytes);
  exp_decode : option (Wire.bytes -> DecodeOptions -> Completion JsValue)
}.

(** [createRequire(callerUrl)(addonPath)]; [None] when it throws. *)
Definition Require : Type := string -> string -> option ModuleExports.

(** The module variable [cached]: [None] is [undefined], [Some None] is
    [null], [Some (Some b)] a binding. *)
Definition Cached : Type := option (option NativeBinding).

Definition loadNative (req : Require) (callerUrl addonPath : string)
    (cached : Cached) : option NativeBinding * Cached :=
  match cached with
  | Some c => (c, cached)
  | None =>
      match req callerUrl addonPath with
      | Some {| exp_parse := Some p; exp_stringify := Some s;
                exp_encode := Some e; exp_decode := Some d |} =>
          let binding := Build_NativeBinding p s e d in
          (Some binding, Some (Some binding))
      | _ => (None, Some None)
      end
  end.

End Native.

(* ------------------------------------------------------------------ *)
(** ** [native/binding.cc]: the N-API glue *)

Module Binding.
Import Js Options Koda.

(** [ValueToNapi]: an [Int] becomes the number [static_cast<double>(v.i)];
    the pairs of an [Object] are set on a fresh object one after the
    other, and the object is what the host then lists for it.
    [on_Object_prototype] tells whether the chain of prototypes of the
    object built for [v] ends in [Object.prototype]. *)
Fixpoint ValueToNapi (v : Value) : JsValue :=
  match v with
  | null_val => JsNull
  | bool_val b => JsBoolean b
  | int_val i => Number_New (Double.of_int64 i)
  | float_val d => Number_New d
  | string_val s => JsString (String_New s)
  | array_val arr => JsArray (map ValueToNapi arr)
  | object_val obj =>
      JsObject
        (GetPropertyNames
           (fold_left
              (fun o p => obj_set o (fst p) (ValueToNapi (snd p)) (on_Object_prototype (snd p)))
              obj Object_New))
  end
with on_Object_prototype (v : Value) : bool :=
  match v with
  | array_val _ => true
  | object_val obj =>
      ends_in_Object_prototype
        (prototype
           (fold_left
              (fun o p => obj_set o (fst p) (ValueToNapi (snd p)) (on_Object_prototype (snd p)))
              obj Object_New))
  | _ => false
  end.

(** [NapiToValue]: the tests are tried in the order of the arms; a value
    that passes none of them (a symbol, a bigint) reaches the final
    [return Value::null_val()].  The keys of an object are those of
    [GetPropertyNames], each read back with [obj.Get(key)]. *)
Fixpoint NapiToValue (val : JsValue) : Value :=
  match val with
  | JsNull | JsUndefined => null_val
  | JsBoolean b => bool_val b
  | JsNumber d =>
      if Double.geb d Double.neg_two53 && Double.leb d Double.two53 then
        let i := Double.to_int64 d in
        if Double.eqb (Double.of_int64 i) d then int_val i else float_val d
      else float_val d
  | JsString s => string_val s
  | JsArray elems => array_val (map NapiToValue elems)
  | JsObject props => object_val (map (fun p => (fst p, NapiToValue (snd p))) props)
  | JsSymbol _ | JsBigInt _ => null_val
  end.

(** [Napi::Number::Uint32Value] on an integral number. *)
Definition Uint32Value (n : Z) : Z := n mod 2 ^ 32.

Definition size_option (o : option Z) (default : Z) : Z :=
  match o with
  | Some n => Uint32Value n
  | None => default
  end.

(** The limits the addon works with when an entry point is called with
    [options]: what [NativeEncode] and [NativeDecode] read back from the
    option object [index.ts] builds. *)
Definition encode_depth (o : option EncodeOptions) : Z :=
  size_option (chain o encode_maxDepth) 256.
Definition native_depth (o : option DecodeOptions) : Z :=
  size_option (chain o decode_maxDepth) 256.
Definition native_dict (o : option DecodeOptions) : Z :=
  size_option (chain o maxDictionarySize) 65536.
Definition native_str (o : option DecodeOptions) : Z :=
  size_option (chain o maxStringLength) 1000000.

(** [Napi::Error::New(env, e.what()).ThrowAsJavaScriptException()] *)
Definition napi_error {A} (what : string) : Completion A :=
  Throw (mkError Error what None).

Section Natives.

(** [koda::parse] and [koda::stringify] ([koda_parse.cc]) are not in the
    tree; the binding is read over any such pair.  The four entry points
    are given the arguments [index.ts] and the worker pass them (a string,
    a value, a [Buffer], and an option object), so their argument checks
    ([Expected string], [Expected Buffer]) pass. *)
Variable koda_parse : string -> Z -> Outcome Value.
Variable koda_stringify : Value -> Outcome string.

Definition NativeParse (text : string) (opts : DepthOptions) : Completion JsValue :=
  let max_depth := size_option (maxDepth opts) 256 in
  match koda_parse text max_depth with
  | Ok v => Return (ValueToNapi v)
  | Raise what => napi_error what
  end.

Definition NativeStringify (value : JsValue) : Completion string :=
  match koda_stringify (NapiToValue value) with
  | Ok s => Return s
  | Raise what => napi_error what
  end.

Definition NativeEncode (value : JsValue) (opts : DepthOptions) : Completion Wire.bytes :=
  let max_depth := size_option (maxDepth opts) 256 in
  match encode (NapiToValue value) max_depth with
  | Ok buf => Return buf
  | Raise what => napi_error what
  end.

Definition NativeDecode (buf : Wire.bytes) (opts : DecodeOptions) : Completion JsValue :=
  let max_depth := size_option (decode_maxDepth opts) 256 in
  let max_dict := size_option (maxDictionarySize opts) 65536 in
  let max_str := size_option (maxStringLength opts) 1000000 in
  match decode buf max_depth max_dict max_str with
  | Ok v => Return (ValueToNapi v)
  | Raise what => napi_error what
  end.

(** [Init]: the exports of the addon. *)
Definition Init : Native.ModuleExports :=
  {| Native.exp_parse := Some NativeParse;
     Native.exp_stringify := Some NativeStringify;
     Native.exp_encode := Some NativeEncode;
     Native.exp_decode := Some NativeDecode |}.

(** The binding [loadNative] builds from these exports. *)
Definition koda_js : Native.NativeBinding :=
  Native.Build_NativeBinding NativeParse NativeStringify NativeEncode NativeDecode.

End Natives.

End Binding.

(* ------------------------------------------------------------------ *)
(** ** The JavaScript implementations the entry points fall back to

    [parseFast], [stringify] of [stringify.ts], [encode] of [encoder.ts]
    and [decode] of [decoder.ts] are not in the tree; the entry points are
    read over any such four functions. *)

Module Fallback.
Import Js Options.

Record JsImplementation : Type := {
  parseFast : string -> option ParseOptions -> Completion JsValue;
  stringifyText : JsValue -> option StringifyOptions -> Completion string;
  encodeBinary : JsValue -> option EncodeOptions -> Completion Wire.bytes;
  decodeBinary : Wire.bytes -> option DecodeOptions -> Completion JsValue
}.

(** Modelled from the spec: [encode] of [encoder.ts] (not in the tree).  The
    specification has one encoder for every backend (1, 4.3): the
    JavaScript encoder is that encoder, run under [maxDepth] (default 256)
    on the value [read] makes of the host value handed to it, its failures
    thrown as [KodaEncodeError] (7).  How [encoder.ts] reads a host value
    is not said: [read] is left open. *)
Definition spec_encode (read : JsValue -> Koda.Value)
    (value : JsValue) (options : option EncodeOptions) : Completion Wire.bytes :=
  let max_depth :=
    match chain options encode_maxDepth with
    | Some n => n
    | None => 256
    end in
  match Koda.encode (read value) max_depth with
  | Koda.Ok buf => Return buf
  | Koda.Raise what => Throw (mkError KodaEncodeError what None)
  end.

End Fallback.

(* ------------------------------------------------------------------ *)
(** ** [worker/decoder-worker.ts] *)

Module Worker.
Import Js Options Native Fallback.

(** The worker's module state: its own [cachedNative] and the [cached] of
    the [native.ts] instance it imports. *)
Record State : Type := {
  cachedNative : Cached;
  native_cached : Cached
}.

Definition fresh : State := {| cachedNative := None; native_cached := None |}.

Record DecoderWorkerMessageIn : Type := {
  id : nat;
  buffer : Wire.bytes;
  options : option DecodeOptions
}.

Inductive DecoderWorkerMessageOut : Type :=
| Success (id : nat) (value : JsValue)
| Failure (id : nat) (error : string).

Section Worker.

Variable req : Require.
Variable js : JsImplementation.
Variables import_meta_url addonPath : string.

Definition getNative (st : State) : option NativeBinding * State :=
  match cachedNative st with
  | Some c => (c, st)
  | None =>
      let (binding, cached') :=
        loadNative req import_meta_url addonPath (native_cached st) in
      (binding, {| cachedNative := Some binding; native_cached := cached' |})
  end.

Definition doDecode (buffer : Wire.bytes) (options : option DecodeOptions)
    (st : State) : Completion JsValue * State :=
  let (binding, st') := getNative st in
  match binding with
  | Some b =>
      (nb_decode b buffer
         {| decode_maxDepth := chain options decode_maxDepth;
            maxDictionarySize := chain options maxDictionarySize;
            maxStringLength := chain options maxStringLength |}, st')
  | None => (decodeBinary js buffer options, st')
  end.

(** [parentPort.on('message', ...)]: the reply posted for one job.  Every
    value thrown by [doDecode] is an [Error] object, so [err.message] is
    the arm of [err instanceof Error ? err.message : String(err)] taken. *)
Definition on_message (msg : DecoderWorkerMessageIn) (st : State)
  : DecoderWorkerMessageOut * State :=
  let (result, st') := doDecode (buffer msg) (options msg) st in
  match result with
  | Return value => (Success (id msg) value, st')
  | Throw err => (Failure (id msg) (message err), st')
  end.

End Worker.

End Worker.

(* ------------------------------------------------------------------ *)
(** ** [index.ts]: the public entry points *)

Module Index.
Import Js Options Native Fallback.

(** How a promise settles. *)
Inductive Settled : Type :=
| Resolved (value : JsValue)
| Rejected (reason : JsError).

Section Index.

Variable req : Require.
Variable js : JsImplementation.
Variables import_meta_url _addonPath : string.
(** [import.meta.url] and [addonPath] of the worker module. *)
Variables worker_url worker_addonPath : string.
(** The reason [decode-async.ts] (not in the tree) rejects with when the
    worker posts [{id, error}]: made from the string posted, in a way the
    specification does not fix. *)
Variable rejection : string -> JsError.

Definition getNative (cached : Cached) : option NativeBinding * Cached :=
  loadNative req import_meta_url _addonPath cached.

Definition isNativeAvailable (cached : Cached) : bool * Cached :=
  let (native, cached') := getNative cached in
  (match native with Some _ => true | None => false end, cached').

Definition parse (text : string) (options : option ParseOptions) (cached : Cached)
  : Completion JsValue * Cached :=
  let (native, cached') := getNative cached in
  match native with
  | Some n =>
      (match nb_parse n text {| maxDepth := chain options parse_maxDepth |} with
       | Return v => Return v
       | Throw e =>
           Throw (if instanceof e KodaParseError then e
                  else new_KodaParseError (message e))
       end, cached')
  | None => (parseFast js text options, cached')
  end.

Definition stringify (value : JsValue) (options : option StringifyOptions)
    (cached : Cached) : Completion string * Cached :=
  let (native, cached') := getNative cached in
  match native with
  | Some n =>
      if negb (truthy (chain options indent))
      then (nb_stringify n value, cached')
      else (stringifyText js value options, cached')
  | None => (stringifyText js value options, cached')
  end.

Definition encode (value : JsValue) (options : option EncodeOptions)
    (cached : Cached) : Completion Wire.bytes * Cached :=
  let (native, cached') := getNative cached in
  match native with
  | Some n =>
      (nb_encode n value {| maxDepth := chain options encode_maxDepth |}, cached')
  | None => (encodeBinary js value options, cached')
  end.

(** [Buffer.from(buffer)] copies the bytes and leaves them as they are. *)
Definition decodeSync (buffer : Wire.bytes) (options : option DecodeOptions)
    (cached : Cached) : Completion JsValue * Cached :=
  let (native, cached') := getNative cached in
  match native with
  | Some n =>
      (match nb_decode n buffer
               {| decode_maxDepth := chain options decode_maxDepth;
                  maxDictionarySize := chain options maxDictionarySize;
                  maxStringLength := chain options maxStringLength |} with
       | Return v => Return v
       | Throw e =>
           Throw (if instanceof e KodaDecodeError then e
                  else new_KodaDecodeError (message e))
       end, cached')
  | None => (decodeBinary js buffer options, cached')
  end.

(** Modelled from the spec: [decodeAsync] of [decode-async.ts] is not in the
    tree.  It ships the bytes and the options to a decoder worker started
    for the call (README: each call runs decode in a separate worker
    thread), which runs the synchronous decoder there; the promise
    resolves with the value the worker posts and is rejected when the
    worker posts an error (specification 7: async calls reject their
    future). *)
Definition decodeAsync (buffer : Wire.bytes) (options : option DecodeOptions) : Settled :=
  let job := {| Worker.id := 0; Worker.buffer := buffer; Worker.options := options |} in
  match fst (Worker.on_message req js worker_url worker_addonPath job Worker.fresh) with
  | Worker.Success _ value => Resolved value
  | Worker.Failure _ error => Rejected (rejection error)
  end.

Definition decode (buffer : Wire.bytes) (options : option DecodeOptions) : Settled :=
  decodeAsync buffer options.

End Index.

End Index.

(* ------------------------------------------------------------------ *)
(** ** Structural equality and canonical form of values *)

Module Equal.
Import Koda.

(** Numbers are equal by bits; any two NaNs are equal. *)
Definition same_number (a b : Double.double) : Prop :=
  a = b \/ (Double.is_nan a = true /\ Double.is_nan b = true).

(** Component-wise equality, objects up to the order of their pairs; an
    [Int] never equals a [Float]. *)
#[local] Unset Elimination Schemes.
Inductive value_equal : Value -> Value -> Prop :=
| veq_null : value_equal null_val null_val
| veq_bool b : value_equal (bool_val b) (bool_val b)
| veq_int i : value_equal (int_val i) (int_val i)
| veq_float a b : same_number a b -> value_equal (float_val a) (float_val b)
| veq_string s : value_equal (string_val s) (string_val s)
| veq_array l1 l2 :
    Forall2 value_equal l1 l2 -> value_equal (array_val l1) (array_val l2)
| veq_object o1 o2 o2' :
    Permutation o2 o2' ->
    Forall2 (fun p q => fst p = fst q /\ value_equal (snd p) (snd q)) o1 o2' ->
    value_equal (object_val o1) (object_val o2).
#[local] Set Elimination Schemes.

(** The value a canonical document denotes: pairs in key order, one NaN. *)
Fixpoint canonical (v : Value) : Value :=
  match v with
  | float_val d => float_val (canonical_bits d)
  | array_val arr => array_val (map canonical arr)
  | object_val obj =>
      object_val (sort_by_key fst (map (fun p => (fst p, canonical (snd p))) obj))
  | _ => v
  end.

(** How the host sees a number: [Int] exactly when [NapiToValue] finds the
    double integral within [+-2^53]. *)
Definition integral_in_safe_range (d : Double.double) : bool :=
  Double.geb d Double.neg_two53 && Double.leb d Double.two53
  && Double.eqb (Double.of_int64 (Double.to_int64 d)) d.

(** Values whose numbers keep their variant when held by the host: every
    [Int] within [+-2^53], every [Float] a 64-bit pattern that is not an
    integral value of that range. *)
Fixpoint host_stable (v : Value) : bool :=
  match v with
  | int_val i => (- 2 ^ 53 <=? i) && (i <=? 2 ^ 53)
  | float_val d => (0 <=? d) && (d <? 2 ^ 64) && negb (integral_in_safe_range d)
  | array_val arr => forallb host_stable arr
  | object_val obj => forallb (fun p => host_stable (snd p)) obj
  | _ => true
  end.

(** The ranges of the payload types: [i] is an [int64_t], [d] a 64-bit
    pattern. *)
Fixpoint well_typed (v : Value) : bool :=
  match v with
  | int_val i => (- 2 ^ 63 <=? i) && (i <? 2 ^ 63)
  | float_val d => (0 <=? d) && (d <? 2 ^ 64)
  | array_val arr => forallb well_typed arr
  | object_val obj => forallb (fun p => well_typed (snd p)) obj
  | _ => true
  end.

(** Every string and key of [v] is at most [max_str] bytes long. *)
Fixpoint strings_within (max_str : Z) (v : Value) : bool :=
  match v with
  | string_val s => byte_length s <=? max_str
  | array_val arr => forallb (strings_within max_str) arr
  | object_val obj =>
      forallb (fun p => (byte_length (fst p) <=? max_str)
                        && strings_within max_str (snd p)) obj
  | _ => true
  end.

(** A key the host keeps as an own property under the same name: it has
    no NUL byte, at which [obj.Set] would end it, and it is not
    ["__proto__"], which an assignment does not define. *)
Definition ordinary_key (k : string) : bool :=
  String.eqb (Js.c_str k) k && negb (String.eqb k "__proto__").

Fixpoint ordinary_keys (v : Value) : bool :=
  match v with
  | array_val arr => forallb ordinary_keys arr
  | object_val obj => forallb (fun p => ordinary_key (fst p) && ordinary_keys (snd p)) obj
  | _ => true
  end.

(** What the encoder accepts of a value (apart from its depth) and the
    decoder's string bound. *)
Definition readable (max_str : Z) (v : Value) : bool :=
  well_typed v && strings_valid v && keys_unique v && sizes_fit v
  && strings_within max_str v.

(** The document [encode] emits for [v]. *)
Definition document (v : Value) : Wire.bytes :=
  magic ++ [version] ++ encode_dictionary (dictionary v)
        ++ encode_value (dictionary v) v.

(** The checks of [encode] under the depth bound [max_depth]. *)
Definition encodable (max_depth : Z) (v : Value) : bool :=
  (Z.of_nat (depth v) <=? max_depth)
  && strings_valid v && keys_unique v && sizes_fit v
  && fits_u32 (Z.of_nat (List.length (dictionary v))).

(** The bounds of [decode] that the document of [v] has to meet. *)
Definition within_bounds (max_depth max_dict max_str : Z) (v : Value) : bool :=
  (Z.of_nat (depth v) <=? max_depth)
  && (Z.of_nat (List.length (dictionary v)) <=? max_dict)
  && strings_within max_str v.

(** The variant [NapiToValue] gives a host number. *)
Definition classify (d : Double.double) : Value :=
  if integral_in_safe_range d then int_val (Double.to_int64 d) else float_val d.

(** A value as it comes back from the host: each number re-read from the
    double the host holds for it. *)
Fixpoint host_view (v : Value) : Value :=
  match v with
  | int_val i => classify (Double.of_int64 i)
  | float_val d => classify d
  | array_val arr => array_val (map host_view arr)
  | object_val obj => object_val (map (fun p => (fst p, host_view (snd p))) obj)
  | _ => v
  end.

End Equal.

(* ------------------------------------------------------------------ *)
(** ** Fixtures: an addon build and stand-ins for the absent functions *)

Module Fixtures.
Import Js Options Koda.

Definition no_parse (text : string) (max_depth : Z) : Outcome Value :=
  Raise "text parser not linked".
Definition no_stringify (v : Value) : Outcome string :=
  Raise "text serializer not linked".

(** The addon with the binary codec only. *)
Definition addon : Native.NativeBinding := Binding.koda_js no_parse no_stringify.

Definition req_built : Native.Require :=
  fun _ _ => Some (Binding.Init no_parse no_stringify).
Definition req_missing : Native.Require := fun _ _ => None.

(** A JavaScript implementation that marks its results. *)
Definition marking_js : Fallback.JsImplementation :=
  {| Fallback.parseFast := fun _ _ => Return (JsString "js");
     Fallback.stringifyText := fun _ _ => Return "js"%string;
     Fallback.encodeBinary := fun _ _ => Return [];
     Fallback.decodeBinary := fun _ _ => Return (JsString "js") |}.

(** A native binding that marks its results. *)
Definition marking_native : Native.NativeBinding :=
  {| Native.nb_parse := fun _ _ => Return (JsString "native");
     Native.nb_stringify := fun _ => Return "native"%string;
     Native.nb_encode := fun _ _ => Return [x01];
     Native.nb_decode := fun _ _ => Return (JsString "native") |}.

Definition req_marking : Native.Require :=
  fun _ _ =>
    Some {| Native.exp_parse := Some (Native.nb_parse marking_native);
            Native.exp_stringify := Some (Native.nb_stringify marking_native);
            Native.exp_encode := Some (Native.nb_encode marking_native);
            Native.exp_decode := Some (Native.nb_decode marking_native) |}.

(** A JavaScript implementation whose encoder is the one of the
    specification, on the value [NapiToValue] reads. *)
Definition js_by_spec : Fallback.JsImplementation :=
  {| Fallback.parseFast := fun _ _ => Return (JsString "js");
     Fallback.stringifyText := fun _ _ => Return "js"%string;
     Fallback.encodeBinary := Fallback.spec_encode Binding.NapiToValue;
     Fallback.decodeBinary := fun _ _ => Return (JsString "js") |}.


(** [null] under [n] arrays. *)
Definition nested (n : nat) : Value := Nat.iter n (fun v => array_val [v]) null_val.

(** [{x: Float 1.0}], [{x: Int 1}] and a value with every variant. *)
Definition x_float_one : Value := object_val [("x"%string, float_val Double.one)].
Definition x_int_one : Value := object_val [("x"%string, int_val 1)].
Definition sample : Value :=
  object_val
    [("name"%string, string_val "koda");
     ("items"%string,
      array_val [int_val (-5); float_val Double.one_and_half; bool_val true; null_val]);
     ("id"%string, int_val 9007199254740992);
     ("gap"%string, float_val 0x7FF0000000000001)].
(** [sample] with its first two pairs exchanged and another NaN. *)
Definition sample_reordered : Value :=
  object_val
    [("items"%string,
      array_val [int_val (-5); float_val Double.one_and_half; bool_val true; null_val]);
     ("name"%string, string_val "koda");
     ("id"%string, int_val 9007199254740992);
     ("gap"%string, float_val Double.quiet_nan)].

(** A value with the key ["__proto__"]. *)
Definition proto_keyed : Value :=
  object_val [("__proto__"%string, int_val 1); ("a"%string, int_val 2)].

Definition index_url : string := "file:///pkg/dist/index.js".
Definition worker_url : string := "file:///pkg/dist/worker/decoder-worker.js".
Definition addon_path : string := "/pkg/build/Release/koda_js.node".

(** [encode(v)] and [decodeSync(buf)] with default options in a process
    where the addon is built and nothing has been loaded yet, [v] being
    handed over as the host holds it. *)
Definition encode_default (v : Value) : Completion Wire.bytes :=
  fst (Index.encode req_built marking_js index_url addon_path
         (Binding.ValueToNapi v) None None).
Definition decodeSync_default (buf : Wire.bytes) : Completion JsValue :=
  fst (Index.decodeSync req_built marking_js index_url addon_path buf None None).

(** For [encode_default v]: the value the decoder reads from the document,
    and what [decodeSync_default] returns for it. *)
Definition roundtrip_default (v : Value)
  : option ((Value + DecodeFailure) * Completion JsValue) :=
  match encode_default v with
  | Return buf => Some (decode_document buf 256 65536 1000000, decodeSync_default buf)
  | Throw _ => None
  end.

End Fixtures.

(* ------------------------------------------------------------------ *)
(** ** Host values as the binding reads and builds them *)

Module Host.
Import Js.

(** [obj.Get(key)]; [None] when the object has no such property. *)
Fixpoint obj_get (o : list (string * JsValue)) (key : string) : option JsValue :=
  match o with
  | [] => None
  | (k, v) :: o' => if String.eqb k key then Some v else obj_get o' key
  end.

(** Every number is a 64-bit pattern. *)
Fixpoint numbers_wf (h : JsValue) : bool :=
  match h with
  | JsNumber d => (0 <=? d) && (d <? 2 ^ 64)
  | JsArray elems => forallb numbers_wf elems
  | JsObject props => forallb (fun p => numbers_wf (snd p)) props
  | _ => true
  end.

(** Every property table has pairwise distinct keys. *)
Fixpoint keys_distinct (h : JsValue) : bool :=
  match h with
  | JsArray elems => forallb keys_distinct elems
  | JsObject props =>
      Koda.distinct (map fst props) && forallb (fun p => keys_distinct (snd p)) props
  | _ => true
  end.

(** No [undefined], symbol or bigint anywhere. *)
Fixpoint only_values (h : JsValue) : bool :=
  match h with
  | JsUndefined | JsSymbol _ | JsBigInt _ => false
  | JsArray elems => forallb only_values elems
  | JsObject props => forallb (fun p => only_values (snd p)) props
  | _ => true
  end.

(** [h] with [null] for every [undefined], symbol and bigint, and the
    positive zero for every negative zero. *)
Fixpoint normalise (h : JsValue) : JsValue :=
  match h with
  | JsUndefined | JsSymbol _ | JsBigInt _ => JsNull
  | JsNumber d => if d =? Double.neg_zero then JsNumber Double.pos_zero else JsNumber d
  | JsArray elems => JsArray (map normalise elems)
  | JsObject props => JsObject (map (fun p => (fst p, normalise (snd p))) props)
  | _ => h
  end.

(** The value of the last pair of [obj] whose key is [key]. *)
Fixpoint last_value (key : string) (obj : list (string * Koda.Value)) : option Koda.Value :=
  match obj with
  | [] => None
  | (k, v) :: obj' =>
      match last_value key obj' with
      | Some w => Some w
      | None => if String.eqb k key then Some v else None
      end
  end.

End Host.

(* ------------------------------------------------------------------ *)
(** ** [worker/decoder-worker.ts]: the jobs of one worker *)

Module WorkerLoop.
Import Js Options Native Fallback Worker.

Section Loop.

Variable req : Require.
Variable js : JsImplementation.
Variables import_meta_url addonPath : string.

(** The messages delivered to [parentPort], handled one after the other. *)
Fixpoint run (msgs : list DecoderWorkerMessageIn) (st : State)
  : list DecoderWorkerMessageOut * State :=
  match msgs with
  | [] => ([], st)
  | msg :: rest =>
      let (reply, st') := on_message req js import_meta_url addonPath msg st in
      let (replies, st'') := run rest st' in
      (reply :: replies, st'')
  end.

End Loop.

(** The reply to [msg] when the job is decoded by [backend]. *)
Definition answer (js : JsImplementation) (backend : option NativeBinding)
    (msg : DecoderWorkerMessageIn) : DecoderWorkerMessageOut :=
  match
    match backend with
    | Some b =>
        nb_decode b (buffer msg)
          {| decode_maxDepth := chain (options msg) decode_maxDepth;
             maxDictionarySize := chain (options msg) maxDictionarySize;
             maxStringLength := chain (options msg) maxStringLength |}
    | None => decodeBinary js (buffer msg) (options msg)
    end
  with
  | Return value => Success (id msg) value
  | Throw err => Failure (id msg) (message err)
  end.

Definition reply_id (r : DecoderWorkerMessageOut) : nat :=
  match r with
  | Success i _ => i
  | Failure i _ => i
  end.

End WorkerLoop.

(* ------------------------------------------------------------------ *)
(** ** [index.ts]: [loadFile] and [saveFile] *)

Module Files.
Import Js Options Native Fallback.

(** How a promise of an [A] settles. *)
Inductive Promise (A : Type) : Type :=
| Fulfilled (a : A)
| RejectedWith (e : JsError).
Arguments Fulfilled {A} a.
Arguments RejectedWith {A} e.

Section Files.

(** [node:fs/promises] over some state [FS] of the file system:
    [readFile(path, 'utf-8')] and [writeFile(path, content, 'utf-8')]. *)
Variable FS : Type.
Variable readFile : FS -> string -> Completion string.
Variable writeFile : FS -> string -> string -> Completion unit * FS.

Variable req : Require.
Variable js : JsImplementation.
Variables import_meta_url _addonPath : string.

Definition loadFile (path : string) (options : option ParseOptions)
    (fs : FS) (cached : Cached) : Promise JsValue * Cached :=
  match readFile fs path with
  | Throw e => (RejectedWith e, cached)
  | Return content =>
      let (result, cached') :=
        Index.parse req js import_meta_url _addonPath content options cached in
      (match result with
       | Return v => Fulfilled v
       | Throw e => RejectedWith e
       end, cached')
  end.

Definition saveFile (path : string) (value : JsValue) (options : option StringifyOptions)
    (fs : FS) (cached : Cached) : Promise unit * FS * Cached :=
  let (result, cached') :=
    Index.stringify req js import_meta_url _addonPath value options cached in
  match result with
  | Throw e => (RejectedWith e, fs, cached')
  | Return content =>
      let (written, fs') := writeFile fs path content in
      (match written with
       | Return _ => Fulfilled tt
       | Throw e => RejectedWith e
       end, fs', cached')
  end.

End Files.

End Files.

(* ------------------------------------------------------------------ *)
(** ** More fixtures *)

Module Samples.
Import Js Options Koda.

(** An addon whose exports lack [decode]. *)
Definition req_partial : Native.Require :=
  fun _ _ =>
    Some {| Native.exp_parse := Some (Native.nb_parse Fixtures.marking_native);
            Native.exp_stringify := Some (Native.nb_stringify Fixtures.marking_native);
            Native.exp_encode := Some (Native.nb_encode Fixtures.marking_native);
            Native.exp_decode := None |}.

(** A host value with a hole, a negative zero and a symbol. *)
Definition untidy : JsValue :=
  JsObject [("a"%string, JsArray [JsUndefined; JsNumber Double.neg_zero; JsNumber Double.one]);
            ("b"%string, JsSymbol "tag");
            ("c"%string, JsNumber Double.one_and_half)].
Definition tidy : JsValue :=
  JsObject [("a"%string, JsArray [JsNull; JsNumber Double.pos_zero; JsNumber Double.one]);
            ("b"%string, JsNull);
            ("c"%string, JsNumber Double.one_and_half)].

(** A value with the key ["k"] twice. *)
Definition twice : list (string * Value) :=
  [("k"%string, int_val 1); ("j"%string, bool_val true); ("k"%string, int_val 2)].

(** A parser that answers [{x: Float 1.0}] and a serializer that names the
    variant of the number under ["x"]. *)
Definition parse_x (text : string) (max_depth : Z) : Outcome Value :=
  if String.eqb text "" then Raise "unexpected end of input" else Ok Fixtures.x_float_one.
Definition show_x (v : Value) : Outcome string :=
  match v with
  | object_val [(_, int_val _)] => Ok "x: 1"%string
  | object_val [(_, float_val _)] => Ok "x: 1.0"%string
  | _ => Raise "unsupported"
  end.

(** A one-file file system. *)
Definition one_file : Type := option (string * string).
Definition read_one (fs : one_file) (path : string) : Completion string :=
  match fs with
  | Some (p, content) =>
      if String.eqb p path then Return content
      else Throw (mkError Error "ENOENT" None)
  | None => Throw (mkError Error "ENOENT" None)
  end.
Definition write_one (fs : one_file) (path content : string) : Completion unit * one_file :=
  (Return tt, Some (path, content)).

End Samples.

(* ================================================================== *)
(** * Part II: properties *)

Import Js Options Koda.

(** ** The memoised backend selection *)

Section Memoisation.
Import Native.

Lemma loadNative_hit (req : Require) (callerUrl addonPath : string) (c : option NativeBinding) :
  loadNative req callerUrl addonPath (Some c) = (c, Some c).
Proof. reflexivity. Qed.

Lemma loadNative_fills (req : Require) (callerUrl addonPath : string) (cached : Cached) :
  exists c, loadNative req callerUrl addonPath cached = (c, Some c).
Proof.
  destruct cached as [c|]; [now exists c|].
  unfold loadNative.
  destruct (req callerUrl addonPath) as [[[p|] [s|] [e|] [d|]]|];
    eexists; reflexivity.
Qed.

Lemma loadNative_stable (req req' : Require) (u a u' a' : string) (cached : Cached) :
  loadNative req' u' a' (snd (loadNative req u a cached)) = loadNative req u a cached.
Proof.
  destruct (loadNative_fills req u a cached) as [c ->]. reflexivity.
Qed.

End Memoisation.

(** ** Dispatch of the entry points on a loaded selection *)

Section Dispatch.
Import Native Fallback.

Variable req : Require.
Variable js : JsImplementation.
Variables url path : string.

Lemma getNative_hit (c : option NativeBinding) :
  Index.getNative req url path (Some c) = (c, Some c).
Proof. reflexivity. Qed.

Lemma parse_on_native (n : NativeBinding) (text : string) (o : option ParseOptions) :
  fst (Index.parse req js url path text o (Some (Some n)))
  = match nb_parse n text {| maxDepth := chain o parse_maxDepth |} with
    | Return v => Return v
    | Throw e => Throw (if instanceof e KodaParseError then e
                        else new_KodaParseError (message e))
    end.
Proof. reflexivity. Qed.

Lemma encode_on_native (n : NativeBinding) (v : JsValue) (o : option EncodeOptions) :
  Index.encode req js url path v o (Some (Some n))
  = (nb_encode n v {| maxDepth := chain o encode_maxDepth |}, Some (Some n)).
Proof. reflexivity. Qed.

Lemma decodeSync_on_native (n : NativeBinding) (buf : Wire.bytes) (o : option DecodeOptions) :
  Index.decodeSync req js url path buf o (Some (Some n))
  = (match nb_decode n buf
             {| decode_maxDepth := chain o decode_maxDepth;
                maxDictionarySize := chain o maxDictionarySize;
                maxStringLength := chain o maxStringLength |} with
     | Return v => Return v
     | Throw e => Throw (if instanceof e KodaDecodeError then e
                         else new_KodaDecodeError (message e))
     end, Some (Some n)).
Proof. reflexivity. Qed.

Lemma stringify_on_native (n : NativeBinding) (v : JsValue) (o : option StringifyOptions) :
  fst (Index.stringify req js url path v o (Some (Some n)))
  = if truthy (chain o indent) then stringifyText js v o else nb_stringify n v.
Proof.
  unfold Index.stringify. rewrite getNative_hit.
  destruct (truthy (chain o indent)); reflexivity.
Qed.

End Dispatch.

(** C9 (as amended).  The first [loadNative] fixes the selection: every
    later call, whatever its arguments and whatever the module loader would
    now answer, returns the same binding-or-null and leaves the state as it
    is.  On that selection [parse], [encode] and [decodeSync] run the
    native function when a binding was selected and the JavaScript one
    otherwise; [stringify] does so only when no truthy [indent] is asked
    for, and runs the JavaScript serializer otherwise. *)
Theorem loadNative_memoised_selection :
  forall (req : Native.Require) (u a : string) (cached : Native.Cached),
    let selection := fst (Native.loadNative req u a cached) in
    let state := snd (Native.loadNative req u a cached) in
    (forall req' u' a', Native.loadNative req' u' a' state = (selection, state))
    /\ (forall req' js url path text o,
          fst (Index.parse req' js url path text o state)
          = match selection with
            | Some n =>
                match Native.nb_parse n text {| maxDepth := chain o parse_maxDepth |} with
                | Return v => Return v
                | Throw e => Throw (if instanceof e KodaParseError then e
                                    else new_KodaParseError (message e))
                end
            | None => Fallback.parseFast js text o
            end)
    /\ (forall req' js url path v o,
          fst (Index.encode req' js url path v o state)
          = match selection with
            | Some n => Native.nb_encode n v {| maxDepth := chain o encode_maxDepth |}
            | None => Fallback.encodeBinary js v o
            end)
    /\ (forall req' js url path buf o,
          fst (Index.decodeSync req' js url path buf o state)
          = match selection with
            | Some n =>
                match Native.nb_decode n buf
                        {| decode_maxDepth := chain o decode_maxDepth;
                           maxDictionarySize := chain o maxDictionarySize;
                           maxStringLength := chain o maxStringLength |} with
                | Return v => Return v
                | Throw e => Throw (if instanceof e KodaDecodeError then e
                                    else new_KodaDecodeError (message e))
                end
            | None => Fallback.decodeBinary js buf o
            end)
    /\ (forall req' js url path v o,
          fst (Index.stringify req' js url path v o state)
          = match selection with
            | Some n =>
                if truthy (chain o indent) then Fallback.stringifyText js v o
                else Native.nb_stringify n v
            | None => Fallback.stringifyText js v o
            end).
Proof.
  intros req u a cached selection state.
  destruct (loadNative_fills req u a cached) as [c Hc].
  subst selection state. rewrite Hc. cbn [fst snd].
  split; [reflexivity|].
  destruct c as [n|].
  - split; [|split; [|split]]; intros.
    + apply parse_on_native.
    + rewrite encode_on_native. reflexivity.
    + rewrite decodeSync_on_native. reflexivity.
    + apply stringify_on_native.
  - split; [|split; [|split]]; reflexivity.
Qed.

(** C9 (counterexample to the claim as stated).  In one process whose first
    call selected the native binding, [stringify] without options is
    answered by the native serializer and [stringify] with [indent: 2] by
    the JavaScript one: not every call uses the same backend. *)
Lemma stringify_indent_leaves_selected_backend :
  fst (Index.parse Fixtures.req_marking Fixtures.marking_js
         Fixtures.index_url Fixtures.addon_path "a: 1" None None)
  = Return (JsString "native")
  /\ snd (Index.parse Fixtures.req_marking Fixtures.marking_js
            Fixtures.index_url Fixtures.addon_path "a: 1" None None)
     = Some (Some Fixtures.marking_native)
  /\ fst (Index.stringify Fixtures.req_marking Fixtures.marking_js
            Fixtures.index_url Fixtures.addon_path JsNull None
            (Some (Some Fixtures.marking_native)))
     = Return "native"%string
  /\ fst (Index.stringify Fixtures.req_marking Fixtures.marking_js
            Fixtures.index_url Fixtures.addon_path JsNull
            (Some {| indent := Some (IndentNumber 2); newline := None |})
            (Some (Some Fixtures.marking_native)))
     = Return "js"%string.
Proof. repeat split. Qed.

(** ** The native path of [parse] *)

(** C7 (the code at the failing input).  With a native binding selected,
    [parse] hands the addon [maxDepth] only: its outcome is the same
    whatever [maxInputLength] the caller configured, so a text longer than
    the bound is parsed like any other. *)
Theorem parse_native_ignores_maxInputLength :
  forall (req : Native.Require) (js : Fallback.JsImplementation) (url path : string)
         (n : Native.NativeBinding) (text : string) (depth limit : option Z),
    fst (Index.parse req js url path text
           (Some {| parse_maxDepth := depth; maxInputLength := limit |})
           (Some (Some n)))
    = fst (Index.parse req js url path text
             (Some {| parse_maxDepth := depth; maxInputLength := None |})
             (Some (Some n))).
Proof. intros. rewrite !parse_on_native. reflexivity. Qed.

Example parse_native_over_long_input :
  String.length "a: 1" = 4%nat
  /\ fst (Index.parse Fixtures.req_marking Fixtures.marking_js
            Fixtures.index_url Fixtures.addon_path "a: 1"
            (Some {| parse_maxDepth := None; maxInputLength := Some 2 |}) None)
     = Return (JsString "native").
Proof. split; reflexivity. Qed.

(** ** Decode failures *)

Section DecodeFailures.
Import Native Fallback.

Variable req : Require.
Variable js : JsImplementation.
Variables url path : string.
Variable koda_parse : string -> Z -> Outcome Value.
Variable koda_stringify : Value -> Outcome string.

Let addon := Binding.koda_js koda_parse koda_stringify.

Lemma decodeSync_addon (buf : Wire.bytes) (o : option DecodeOptions) :
  fst (Index.decodeSync req js url path buf o (Some (Some addon)))
  = match decode_document buf (Binding.native_depth o) (Binding.native_dict o) (Binding.native_str o) with
    | inl v => Return (Binding.ValueToNapi v)
    | inr f => Throw (mkError KodaDecodeError (what f) None)
    end.
Proof.
  rewrite decodeSync_on_native. cbn [fst].
  unfold addon, Binding.koda_js. cbn [nb_decode].
  unfold Binding.NativeDecode, decode, Binding.native_depth, Binding.native_dict, Binding.native_str.
  cbn [decode_maxDepth maxDictionarySize maxStringLength].
  destruct (decode_document _ _ _ _); reflexivity.
Qed.

Lemma doDecode_addon (buf : Wire.bytes) (o : option DecodeOptions) (st : Worker.State) :
  fst (Worker.getNative req url path st) = Some addon ->
  fst (Worker.doDecode req js url path buf o st)
  = match decode_document buf (Binding.native_depth o) (Binding.native_dict o) (Binding.native_str o) with
    | inl v => Return (Binding.ValueToNapi v)
    | inr f => Throw (mkError Error (what f) None)
    end.
Proof.
  intros H. unfold Worker.doDecode.
  destruct (Worker.getNative req url path st) as [b st'].
  cbn [fst] in H. subst b. cbn [fst].
  unfold addon, Binding.koda_js. cbn [nb_decode].
  unfold Binding.NativeDecode, decode, Binding.native_depth, Binding.native_dict, Binding.native_str.
  cbn [decode_maxDepth maxDictionarySize maxStringLength].
  destruct (decode_document _ _ _ _); reflexivity.
Qed.

End DecodeFailures.

(** C6 (as amended).  When the selected decoder rejects the bytes,
    [decodeSync] throws and returns no value.  Through any native binding
    the error thrown is a [KodaDecodeError] with the binding's message,
    and unless the binding itself threw a [KodaDecodeError] its
    [byteOffset] is unset; through the addon of this repository the error
    is exactly [KodaDecodeError(what)] with no [byteOffset], the offset
    being part of the message text only.  Without a binding the JavaScript
    decoder's outcome is passed on unchanged. *)
Theorem decodeSync_failure_taxonomy :
  forall (req : Native.Require) (js : Fallback.JsImplementation) (url path : string)
         (buf : Wire.bytes) (o : option DecodeOptions),
    (forall n e0,
        Native.nb_decode n buf
          {| decode_maxDepth := chain o decode_maxDepth;
             maxDictionarySize := chain o maxDictionarySize;
             maxStringLength := chain o maxStringLength |} = Throw e0 ->
        exists e,
          fst (Index.decodeSync req js url path buf o (Some (Some n))) = Throw e
          /\ cls e = KodaDecodeError
          /\ message e = message e0
          /\ (cls e0 <> KodaDecodeError -> byteOffset e = None))
    /\ (forall koda_parse koda_stringify f,
          decode_document buf (Binding.native_depth o) (Binding.native_dict o) (Binding.native_str o) = inr f ->
          fst (Index.decodeSync req js url path buf o
                 (Some (Some (Binding.koda_js koda_parse koda_stringify))))
          = Throw (mkError KodaDecodeError (what f) None))
    /\ fst (Index.decodeSync req js url path buf o (Some None))
       = Fallback.decodeBinary js buf o.
Proof.
  intros req js url path buf o. split; [|split].
  - intros n e0 H. rewrite decodeSync_on_native, H. cbn [fst].
    destruct e0 as [c m b]. destruct c; cbn;
      eexists; (split; [reflexivity|]); cbn; repeat split; congruence.
  - intros kp ks f H. rewrite decodeSync_addon, H. reflexivity.
  - reflexivity.
Qed.

Lemma decodeSync_failure_taxonomy_witness :
  decode_document [] (Binding.native_depth None) (Binding.native_dict None) (Binding.native_str None)
    = inr (mkFailure TruncatedInput 0)
  /\ fst (Index.decodeSync Fixtures.req_built Fixtures.marking_js
            Fixtures.index_url Fixtures.addon_path [] None
            (Some (Some Fixtures.addon)))
     = Throw (mkError KodaDecodeError "unexpected end of input at byte 0" None).
Proof.
  split; [reflexivity|].
  apply (proj1 (proj2 (decodeSync_failure_taxonomy Fixtures.req_built Fixtures.marking_js
                         Fixtures.index_url Fixtures.addon_path [] None))
           Fixtures.no_parse Fixtures.no_stringify (mkFailure TruncatedInput 0)).
  reflexivity.
Defined.

(** C6 (counterexample to the claim as stated).  The empty byte sequence is
    not a document; with the addon loaded, the error [decodeSync] throws
    for it has no [byteOffset]. *)
Lemma decodeSync_native_error_without_byteOffset :
  exists e,
    fst (Index.decodeSync Fixtures.req_built Fixtures.marking_js
           Fixtures.index_url Fixtures.addon_path [] None None) = Throw e
    /\ cls e = KodaDecodeError
    /\ byteOffset e = None.
Proof. eexists. repeat split. Qed.

(** ** The decoder worker *)





(** ** Host values outside the data model *)

(** C8.  With the addon selected, a host value that is [undefined] (or a
    symbol or a bigint: nothing the data model has a variant for) is read
    as [Null]: [encode] answers for it what it answers for [null], and
    under the default options that is the document holding the single tag
    [0x01], not an error. *)
Theorem encode_reads_non_value_as_null :
  forall (req : Native.Require) (js : Fallback.JsImplementation) (url path : string)
         (koda_parse : string -> Z -> Outcome Value)
         (koda_stringify : Value -> Outcome string)
         (h : JsValue) (o : option EncodeOptions),
    is_koda_kind h = false ->
    let addon := Binding.koda_js koda_parse koda_stringify in
    Binding.NapiToValue h = null_val
    /\ Index.encode req js url path h o (Some (Some addon))
       = Index.encode req js url path JsNull o (Some (Some addon))
    /\ fst (Index.encode req js url path h None (Some (Some addon)))
       = Return [x4b; x4f; x44; x41; x01; x00; x00; x00; x00; x01].
Proof.
  intros req js url path kp ks h o Hk addon.
  assert (Hn : Binding.NapiToValue h = null_val)
    by (destruct h; try discriminate Hk; reflexivity).
  split; [exact Hn|].
  rewrite !encode_on_native. subst addon. cbn [Native.nb_encode Binding.koda_js fst].
  unfold Binding.NativeEncode. rewrite Hn. split; reflexivity.
Qed.

Lemma encode_reads_non_value_as_null_witness :
  is_koda_kind JsUndefined = false
  /\ fst (Index.encode Fixtures.req_built Fixtures.marking_js
            Fixtures.index_url Fixtures.addon_path JsUndefined None
            (Some (Some Fixtures.addon)))
     = Return [x4b; x4f; x44; x41; x01; x00; x00; x00; x00; x01].
Proof.
  split; [reflexivity|].
  apply (encode_reads_non_value_as_null Fixtures.req_built Fixtures.marking_js
           Fixtures.index_url Fixtures.addon_path Fixtures.no_parse Fixtures.no_stringify
           JsUndefined None).
  reflexivity.
Defined.
(** ** IEEE-754 conversions *)

Section DoubleFacts.
Import Double.

Lemma pow2_63 : 2 ^ 63 = 2 ^ 11 * 2 ^ 52.
Proof. reflexivity. Qed.

Lemma pack_sign (s : bool) (e f : Z) :
  0 <= e < 2 ^ 11 -> 0 <= f < 2 ^ 52 -> sign (pack s e f) = s.
Proof.
  intros He Hf. unfold sign, pack.
  destruct s; [apply Z.leb_le | apply Z.leb_gt]; rewrite pow2_63 in *; nia.
Qed.

Lemma pack_magnitude (s : bool) (e f : Z) :
  0 <= e < 2 ^ 11 -> 0 <= f < 2 ^ 52 -> magnitude (pack s e f) = e * 2 ^ 52 + f.
Proof.
  intros He Hf. unfold magnitude, pack.
  assert (H : 0 <= e * 2 ^ 52 + f < 2 ^ 63) by (rewrite pow2_63; nia).
  destruct s.
  - replace (2 ^ 63 + e * 2 ^ 52 + f) with (e * 2 ^ 52 + f + 1 * 2 ^ 63) by ring.
    rewrite Z.mod_add by lia. apply Z.mod_small; lia.
  - rewrite Z.add_0_l. apply Z.mod_small; lia.
Qed.

Lemma pack_exponent (s : bool) (e f : Z) :
  0 <= e < 2 ^ 11 -> 0 <= f < 2 ^ 52 -> biased_exponent (pack s e f) = e.
Proof.
  intros He Hf. unfold biased_exponent, pack.
  replace ((if s then 2 ^ 63 else 0) + e * 2 ^ 52 + f)
    with (f + ((if s then 2 ^ 11 else 0) + e) * 2 ^ 52)
    by (destruct s; rewrite ?pow2_63; ring).
  rewrite Z.div_add, Z.div_small, Z.add_0_l by lia.
  destruct s.
  - replace (2 ^ 11 + e) with (e + 1 * 2 ^ 11) by ring.
    rewrite Z.mod_add by lia. apply Z.mod_small; lia.
  - rewrite Z.add_0_l. apply Z.mod_small; lia.
Qed.

Lemma pack_fraction (s : bool) (e f : Z) :
  0 <= f < 2 ^ 52 -> fraction (pack s e f) = f.
Proof.
  intros Hf. unfold fraction, pack.
  replace ((if s then 2 ^ 63 else 0) + e * 2 ^ 52 + f)
    with (f + ((if s then 2 ^ 11 else 0) + e) * 2 ^ 52)
    by (destruct s; rewrite ?pow2_63; ring).
  rewrite Z.mod_add by lia. apply Z.mod_small; lia.
Qed.

Lemma pack_wf (s : bool) (e f : Z) :
  0 <= e < 2 ^ 11 -> 0 <= f < 2 ^ 52 -> wf (pack s e f).
Proof.
  intros He Hf. unfold wf, pack.
  change (2 ^ 64) with (2 * 2 ^ 63). rewrite pow2_63.
  destruct s; nia.
Qed.

(** Every 64-bit pattern is the packing of its three fields. *)
Lemma unpack (d : double) :
  wf d ->
  d = pack (sign d) (biased_exponent d) (fraction d)
  /\ 0 <= biased_exponent d < 2 ^ 11
  /\ 0 <= fraction d < 2 ^ 52.
Proof.
  intros [H0 H1].
  assert (He : 0 <= biased_exponent d < 2 ^ 11) by (apply Z.mod_pos_bound; lia).
  assert (Hf : 0 <= fraction d < 2 ^ 52) by (apply Z.mod_pos_bound; lia).
  split; [|split; assumption].
  unfold pack, sign, biased_exponent, fraction in *.
  pose proof (Z.div_mod d (2 ^ 52) ltac:(lia)) as Hd.
  pose proof (Z.div_mod (d / 2 ^ 52) (2 ^ 11) ltac:(lia)) as Hq.
  assert (Hq1 : 0 <= d / 2 ^ 52 < 2 ^ 12).
  { split; [apply Z.div_pos; lia|].
    apply Z.div_lt_upper_bound; [lia|]. change (2 ^ 52 * 2 ^ 12) with (2 ^ 64). lia. }
  assert (Hq2 : 0 <= d / 2 ^ 52 / 2 ^ 11 < 2).
  { split; [apply Z.div_pos; lia|].
    apply Z.div_lt_upper_bound; [lia|]. change (2 ^ 11 * 2) with (2 ^ 12). lia. }
  set (q := d / 2 ^ 52) in *. set (h := q / 2 ^ 11) in *.
  set (e := q mod 2 ^ 11) in *. set (f := d mod 2 ^ 52) in *.
  rewrite pow2_63.
  destruct (Z.leb_spec (2 ^ 11 * 2 ^ 52) d) as [Hs|Hs].
  - assert (h = 1) by nia. nia.
  - assert (h = 0) by nia. nia.
Qed.

Lemma ordkey_pack (s : bool) (e f : Z) :
  0 <= e < 2 ^ 11 -> 0 <= f < 2 ^ 52 ->
  ordkey (pack s e f) = if s then - (e * 2 ^ 52 + f) else e * 2 ^ 52 + f.
Proof.
  intros He Hf. unfold ordkey. rewrite pack_sign, pack_magnitude by assumption.
  reflexivity.
Qed.

Lemma is_nan_pack (s : bool) (e f : Z) :
  0 <= e < 2047 -> 0 <= f < 2 ^ 52 -> is_nan (pack s e f) = false.
Proof.
  intros He Hf. unfold is_nan.
  rewrite pack_exponent by (change (2 ^ 11) with 2048; lia).
  destruct (Z.eqb_spec e 2047); [lia | reflexivity].
Qed.

(** The double of a non-zero integer below [2^53] in magnitude is exact. *)
Lemma of_int64_exact (i : Z) :
  i <> 0 -> Z.abs i < 2 ^ 53 ->
  let n := Z.log2 (Z.abs i) in
  0 <= n <= 52
  /\ 0 <= Z.abs i * 2 ^ (52 - n) - 2 ^ 52 < 2 ^ 52
  /\ of_int64 i = pack (i <? 0) (1023 + n) (Z.abs i * 2 ^ (52 - n) - 2 ^ 52).
Proof.
  intros Hi Hlt n.
  assert (Hm : 0 < Z.abs i) by lia.
  pose proof (Z.log2_spec (Z.abs i) Hm) as [Hlo Hhi]. fold n in Hlo, Hhi.
  assert (Hn0 : 0 <= n) by apply Z.log2_nonneg.
  assert (Hn : n <= 52).
  { destruct (Z.le_gt_cases n 52) as [|Hgt]; [assumption|].
    assert (2 ^ 53 <= 2 ^ n) by (apply Z.pow_le_mono_r; lia). lia. }
  split; [lia|].
  assert (Hpow : 2 ^ n * 2 ^ (52 - n) = 2 ^ 52)
    by (rewrite <- Z.pow_add_r by lia; f_equal; lia).
  assert (Hpow' : 2 ^ Z.succ n * 2 ^ (52 - n) = 2 * 2 ^ 52)
    by (rewrite Z.pow_succ_r by lia; rewrite <- Hpow; ring).
  assert (Hp : 0 < 2 ^ (52 - n)) by (apply Z.pow_pos_nonneg; lia).
  split; [nia|].
  unfold of_int64. destruct (Z.eqb_spec i 0); [contradiction|].
  fold n. destruct (Z.leb_spec n 52); [reflexivity | lia].
Qed.

Lemma to_int64_of_int64_small (i : Z) :
  Z.abs i < 2 ^ 53 -> to_int64 (of_int64 i) = i.
Proof.
  intros Hlt. destruct (Z.eq_dec i 0) as [->|Hi]; [reflexivity|].
  destruct (of_int64_exact i Hi Hlt) as (Hn & Hf & ->).
  set (n := Z.log2 (Z.abs i)) in *.
  assert (He : 0 <= 1023 + n < 2 ^ 11) by (change (2 ^ 11) with 2048; lia).
  unfold to_int64, trunc_magnitude.
  rewrite pack_sign, pack_exponent, pack_fraction by assumption.
  destruct (Z.ltb_spec (1023 + n) 1023); [lia|].
  destruct (Z.leb_spec (1023 + n) 1075); [|lia].
  replace (2 ^ 52 + (Z.abs i * 2 ^ (52 - n) - 2 ^ 52)) with (Z.abs i * 2 ^ (52 - n)) by ring.
  replace (1075 - (1023 + n)) with (52 - n) by ring.
  rewrite Z.shiftr_div_pow2, Z.div_mul by (try apply Z.pow_nonzero; lia).
  destruct (Z.ltb_spec i 0); lia.
Qed.

Lemma of_int64_in_safe_range_small (i : Z) :
  Z.abs i < 2 ^ 53 ->
  geb (of_int64 i) neg_two53 && leb (of_int64 i) two53 = true.
Proof.
  intros Hlt. destruct (Z.eq_dec i 0) as [->|Hi]; [reflexivity|].
  destruct (of_int64_exact i Hi Hlt) as (Hn & Hf & ->).
  set (n := Z.log2 (Z.abs i)) in *.
  assert (He : 0 <= 1023 + n < 2 ^ 11) by (change (2 ^ 11) with 2048; lia).
  unfold geb, leb.
  rewrite is_nan_pack by lia.
  rewrite ordkey_pack by assumption.
  change (is_nan two53) with false. change (is_nan neg_two53) with false.
  change (ordkey two53) with (1076 * 2 ^ 52).
  change (ordkey neg_two53) with (- (1076 * 2 ^ 52)).
  cbn [negb andb].
  apply andb_true_iff; split; apply Z.leb_le; destruct (i <? 0); nia.
Qed.

Lemma of_int64_not_nan_small (i : Z) :
  Z.abs i < 2 ^ 53 -> is_nan (of_int64 i) = false.
Proof.
  intros Hlt. destruct (Z.eq_dec i 0) as [->|Hi]; [reflexivity|].
  destruct (of_int64_exact i Hi Hlt) as (Hn & Hf & ->).
  apply is_nan_pack; lia.
Qed.

Lemma eqb_refl (d : double) : is_nan d = false -> eqb d d = true.
Proof.
  intros H. unfold eqb. rewrite H, Z.eqb_refl. reflexivity.
Qed.

(** Integers of magnitude at most [2^53] survive the trip through a
    double, and the double passes the range and integrality tests. *)
Lemma to_int64_of_int64 (i : Z) :
  - 2 ^ 53 <= i <= 2 ^ 53 -> to_int64 (of_int64 i) = i.
Proof.
  intros H.
  destruct (Z.eq_dec i (2 ^ 53)) as [->|]; [reflexivity|].
  destruct (Z.eq_dec i (- 2 ^ 53)) as [->|]; [reflexivity|].
  apply to_int64_of_int64_small. lia.
Qed.

Lemma of_int64_in_safe_range (i : Z) :
  - 2 ^ 53 <= i <= 2 ^ 53 ->
  geb (of_int64 i) neg_two53 && leb (of_int64 i) two53 = true.
Proof.
  intros H.
  destruct (Z.eq_dec i (2 ^ 53)) as [->|]; [reflexivity|].
  destruct (Z.eq_dec i (- 2 ^ 53)) as [->|]; [reflexivity|].
  apply of_int64_in_safe_range_small. lia.
Qed.

Lemma of_int64_not_nan (i : Z) :
  - 2 ^ 53 <= i <= 2 ^ 53 -> is_nan (of_int64 i) = false.
Proof.
  intros H.
  destruct (Z.eq_dec i (2 ^ 53)) as [->|]; [reflexivity|].
  destruct (Z.eq_dec i (- 2 ^ 53)) as [->|]; [reflexivity|].
  apply of_int64_not_nan_small. lia.
Qed.

Lemma of_int64_wf (i : Z) :
  - 2 ^ 53 <= i <= 2 ^ 53 -> wf (of_int64 i).
Proof.
  intros H.
  destruct (Z.eq_dec i (2 ^ 53)) as [->|]; [unfold wf; cbn; lia|].
  destruct (Z.eq_dec i (- 2 ^ 53)) as [->|]; [unfold wf; cbn; lia|].
  destruct (Z.eq_dec i 0) as [->|Hi]; [unfold wf; cbn; lia|].
  destruct (of_int64_exact i Hi ltac:(lia)) as (Hn & Hf & ->).
  apply pack_wf; [change (2 ^ 11) with 2048|]; lia.
Qed.

End DoubleFacts.

Section Classification.
Import Double Equal.

Lemma trunc_magnitude_bound (d : double) :
  wf d ->
  biased_exponent d * 2 ^ 52 + fraction d <= 1076 * 2 ^ 52 ->
  0 <= trunc_magnitude d <= 2 ^ 53.
Proof.
  intros Hwf Hle. destruct (unpack d Hwf) as (_ & He & Hf).
  unfold trunc_magnitude.
  set (E := biased_exponent d) in *. set (F := fraction d) in *.
  destruct (Z.ltb_spec E 1023); [lia|].
  destruct (Z.leb_spec E 1075).
  - rewrite Z.shiftr_div_pow2 by lia.
    assert (Hp : 0 < 2 ^ (1075 - E)) by (apply Z.pow_pos_nonneg; lia).
    split; [apply Z.div_pos; lia|].
    apply Z.lt_le_incl, Z.div_lt_upper_bound; [lia|].
    change (2 ^ 53) with (2 * 2 ^ 52). nia.
  - assert (E = 1076) by nia. assert (F = 0) by nia.
    replace E with 1076 by lia. replace F with 0 by lia. cbn. lia.
Qed.

Lemma safe_range_bounds (d : double) :
  wf d ->
  geb d neg_two53 && leb d two53 = true ->
  is_nan d = false
  /\ biased_exponent d * 2 ^ 52 + fraction d <= 1076 * 2 ^ 52.
Proof.
  intros Hwf H. destruct (unpack d Hwf) as (Hd & He & Hf).
  apply andb_true_iff in H as [Hge Hle].
  unfold geb, leb in *.
  change (is_nan two53) with false in *. change (is_nan neg_two53) with false in *.
  change (ordkey two53) with (1076 * 2 ^ 52) in *.
  change (ordkey neg_two53) with (- (1076 * 2 ^ 52)) in *.
  cbn [negb andb] in *.
  apply andb_true_iff in Hle as [Hnan Hle]. rewrite andb_true_r in Hnan.
  apply andb_true_iff in Hge as [_ Hge].
  apply negb_true_iff in Hnan. split; [assumption|].
  apply Z.leb_le in Hle, Hge.
  rewrite Hd, ordkey_pack in Hle, Hge by assumption.
  destruct (sign d); lia.
Qed.

Lemma to_int64_safe (d : double) :
  wf d ->
  geb d neg_two53 && leb d two53 = true ->
  - 2 ^ 53 <= to_int64 d <= 2 ^ 53.
Proof.
  intros Hwf H. destruct (safe_range_bounds d Hwf H) as [_ Hb].
  pose proof (trunc_magnitude_bound d Hwf Hb).
  unfold to_int64. destruct (sign d); lia.
Qed.

Lemma eqb_bits (a b : double) :
  wf a -> wf b -> eqb a b = true ->
  a = b \/ (magnitude a = 0 /\ magnitude b = 0).
Proof.
  intros Ha Hb H. unfold eqb in H.
  apply andb_true_iff in H as [_ H]. apply Z.eqb_eq in H.
  destruct (unpack a Ha) as (Ea & Hea & Hfa).
  destruct (unpack b Hb) as (Eb & Heb & Hfb).
  rewrite Ea, Eb in H. rewrite !ordkey_pack in H by assumption.
  assert (Hma : magnitude a = biased_exponent a * 2 ^ 52 + fraction a)
    by (rewrite Ea at 1; apply pack_magnitude; assumption).
  assert (Hmb : magnitude b = biased_exponent b * 2 ^ 52 + fraction b)
    by (rewrite Eb at 1; apply pack_magnitude; assumption).
  destruct (sign a) eqn:Sa, (sign b) eqn:Sb.
  - left. rewrite Ea, Eb. unfold pack. lia.
  - right. nia.
  - right. nia.
  - left. rewrite Ea, Eb. unfold pack. lia.
Qed.

Lemma magnitude_zero (d : double) :
  wf d -> magnitude d = 0 -> d = pos_zero \/ d = neg_zero.
Proof.
  intros Hwf H. destruct (unpack d Hwf) as (Hd & He & Hf).
  rewrite Hd in H. rewrite pack_magnitude in H by assumption.
  assert (biased_exponent d = 0) by nia. assert (fraction d = 0) by nia.
  rewrite Hd. unfold pack. replace (biased_exponent d) with 0 by lia.
  replace (fraction d) with 0 by lia.
  destruct (sign d); [right | left]; reflexivity.
Qed.

(** The test of [NapiToValue] holds exactly of the doubles that are an
    integer of magnitude at most [2^53], and of the negative zero. *)
Lemma integral_in_safe_range_spec (d : double) :
  wf d ->
  integral_in_safe_range d = true
  <-> exists i, - 2 ^ 53 <= i <= 2 ^ 53
                /\ (d = of_int64 i \/ (d = neg_zero /\ i = 0)).
Proof.
  intros Hwf. unfold integral_in_safe_range. split.
  - intros H. apply andb_true_iff in H as [Hr He].
    pose proof (to_int64_safe d Hwf Hr) as Hi.
    exists (to_int64 d). split; [assumption|].
    destruct (eqb_bits _ _ (of_int64_wf _ Hi) Hwf He) as [E|[_ Hz]].
    + left. symmetry. exact E.
    + destruct (magnitude_zero d Hwf Hz) as [->| ->]; [left | right; split]; reflexivity.
  - intros (i & Hi & [->|[-> ->]]); [|reflexivity].
    rewrite of_int64_in_safe_range, to_int64_of_int64 by assumption.
    rewrite eqb_refl by (apply of_int64_not_nan; assumption). reflexivity.
Qed.

Lemma NapiToValue_number (d : double) :
  Binding.NapiToValue (JsNumber d)
  = if integral_in_safe_range d then int_val (to_int64 d) else float_val d.
Proof.
  cbn [Binding.NapiToValue]. unfold integral_in_safe_range.
  destruct (geb d neg_two53 && leb d two53); [|reflexivity].
  cbn [andb]. reflexivity.
Qed.

Lemma NapiToValue_of_int64 (i : Z) :
  - 2 ^ 53 <= i <= 2 ^ 53 ->
  Binding.NapiToValue (JsNumber (of_int64 i)) = int_val i.
Proof.
  intros H. cbn [Binding.NapiToValue].
  rewrite of_int64_in_safe_range, to_int64_of_int64 by assumption.
  rewrite eqb_refl by (apply of_int64_not_nan; assumption). reflexivity.
Qed.

Lemma ValueToNapi_int (i : Z) :
  - 2 ^ 53 <= i <= 2 ^ 53 -> Binding.ValueToNapi (int_val i) = JsNumber (of_int64 i).
Proof.
  intros H. cbn [Binding.ValueToNapi]. unfold Number_New.
  rewrite of_int64_not_nan by assumption. reflexivity.
Qed.

End Classification.

(** ** Keys and their order *)

Section KeyOrder.

Lemma ltb_compare (a b : string) : String.ltb a b = true <-> String.compare a b = Lt.
Proof. unfold String.ltb. destruct (String.compare a b); split; congruence. Qed.

Lemma leb_compare (a b : string) : String.leb a b = true <-> String.compare a b <> Gt.
Proof. unfold String.leb. destruct (String.compare a b); split; congruence. Qed.

Lemma ltb_trans (a b c : string) :
  String.ltb a b = true -> String.ltb b c = true -> String.ltb a c = true.
Proof.
  rewrite !ltb_compare.
  change String.compare with OrderedTypeEx.String_as_OT.cmp.
  rewrite !OrderedTypeEx.String_as_OT.cmp_lt.
  apply OrderedTypeEx.String_as_OT.lt_trans.
Qed.

Lemma ltb_irrefl (a : string) : String.ltb a a = false.
Proof.
  unfold String.ltb.
  assert (H : String.compare a a = Eq)
    by (apply OrderedTypeEx.String_as_OT.cmp_eq; reflexivity).
  rewrite H. reflexivity.
Qed.

Lemma ltb_neq (a b : string) : String.ltb a b = true -> a <> b.
Proof. intros H ->. rewrite ltb_irrefl in H. discriminate. Qed.

Lemma ltb_asym (a b : string) : String.ltb a b = true -> String.ltb b a = false.
Proof.
  intros H. destruct (String.ltb b a) eqn:E; [|reflexivity].
  pose proof (ltb_trans _ _ _ H E) as F. rewrite ltb_irrefl in F. discriminate.
Qed.

Lemma leb_ltb (a b : string) : String.leb a b = true -> a <> b -> String.ltb a b = true.
Proof.
  rewrite leb_compare, ltb_compare. intros H N.
  destruct (String.compare a b) eqn:E; try congruence.
  apply String.compare_eq_iff in E. contradiction.
Qed.

Lemma not_leb_ltb (a b : string) : String.leb a b = false -> String.ltb b a = true.
Proof.
  intros H. apply ltb_compare. rewrite String.compare_antisym.
  unfold String.leb in H. destruct (String.compare a b); cbn; congruence.
Qed.

Lemma ltb_leb (a b : string) : String.ltb a b = true -> String.leb a b = true.
Proof. rewrite ltb_compare, leb_compare. congruence. Qed.

End KeyOrder.

(** ** Sorting by key *)

Section Sorting.
Context {A : Type} (key : A -> string).

Definition key_lt (x y : A) : Prop := String.ltb (key x) (key y) = true.

Lemma insert_sorted_perm (x : A) (l : list A) :
  Permutation (insert_sorted key x l) (x :: l).
Proof.
  induction l as [|y l IH]; cbn; [reflexivity|].
  destruct (String.leb (key x) (key y)); [reflexivity|].
  rewrite IH. apply perm_swap.
Qed.

Lemma sort_by_key_perm (l : list A) : Permutation (sort_by_key key l) l.
Proof.
  induction l as [|x l IH]; cbn; [reflexivity|].
  rewrite insert_sorted_perm. now constructor.
Qed.

Lemma sort_by_key_length (l : list A) :
  List.length (sort_by_key key l) = List.length l.
Proof. apply Permutation_length, sort_by_key_perm. Qed.

Lemma insert_sorted_strict (x : A) (l : list A) :
  StronglySorted key_lt l -> ~ In (key x) (map key l) ->
  StronglySorted key_lt (insert_sorted key x l).
Proof.
  induction 1 as [|y l Hs IH Hy]; intros Hx; cbn.
  - repeat constructor.
  - cbn in Hx.
    destruct (String.leb (key x) (key y)) eqn:E.
    + assert (Hxy : key_lt x y) by (apply leb_ltb; [assumption | intuition congruence]).
      constructor; [constructor; assumption|].
      constructor; [assumption|].
      eapply Forall_impl; [|exact Hy]. intros z Hz. unfold key_lt in *.
      eapply ltb_trans; eassumption.
    + constructor; [apply IH; intuition|].
      eapply Permutation_Forall; [symmetry; apply insert_sorted_perm|].
      constructor; [apply not_leb_ltb; assumption | assumption].
Qed.

Lemma sort_by_key_strict (l : list A) :
  NoDup (map key l) -> StronglySorted key_lt (sort_by_key key l).
Proof.
  induction l as [|x l IH]; cbn; intros H; [constructor|].
  inversion H as [|? ? Hx Hl]; subst.
  apply insert_sorted_strict; [apply IH; assumption|].
  intros Hin. apply Hx.
  eapply Permutation_in; [|exact Hin].
  apply Permutation_map, sort_by_key_perm.
Qed.

Lemma strictly_sorted_unique (l1 l2 : list A) :
  StronglySorted key_lt l1 -> StronglySorted key_lt l2 ->
  Permutation l1 l2 -> l1 = l2.
Proof.
  intros H1. revert l2.
  induction H1 as [|x l1 Hs IH Hx]; intros l2 H2 HP.
  - apply Permutation_nil in HP. congruence.
  - destruct H2 as [|y l2 Hs2 Hy].
    + symmetry in HP. apply Permutation_nil in HP. discriminate.
    + assert (Exy : x = y).
      { assert (Hin1 : In x (y :: l2))
          by (eapply Permutation_in; [exact HP | now left]).
        assert (Hin2 : In y (x :: l1))
          by (eapply Permutation_in; [symmetry; exact HP | now left]).
        destruct Hin1 as [E|Hin1]; [congruence|].
        destruct Hin2 as [E|Hin2]; [congruence|].
        rewrite Forall_forall in Hx, Hy.
        pose proof (Hx _ Hin2) as F1. pose proof (Hy _ Hin1) as F2.
        unfold key_lt in *. rewrite (ltb_asym _ _ F1) in F2. discriminate. }
      subst y. f_equal. apply IH; [assumption|].
      eapply Permutation_cons_inv; exact HP.
Qed.

Lemma sort_by_key_permutation (l1 l2 : list A) :
  Permutation l1 l2 -> NoDup (map key l1) ->
  sort_by_key key l1 = sort_by_key key l2.
Proof.
  intros HP Hn.
  apply strictly_sorted_unique.
  - apply sort_by_key_strict; assumption.
  - apply sort_by_key_strict.
    eapply Permutation_NoDup; [apply Permutation_map; exact HP | assumption].
  - rewrite !sort_by_key_perm. assumption.
Qed.

Lemma strictly_sorted_NoDup (l : list A) :
  StronglySorted key_lt l -> NoDup (map key l).
Proof.
  induction 1 as [|x l Hs IH Hx]; cbn; constructor; [|assumption].
  intros Hin. apply in_map_iff in Hin as (y & E & Hy).
  rewrite Forall_forall in Hx. pose proof (Hx _ Hy) as F.
  unfold key_lt in F. rewrite E, ltb_irrefl in F. discriminate.
Qed.

End Sorting.

Lemma insert_sorted_map {A B : Type} (ka : A -> string) (kb : B -> string) (g : A -> B)
    (x : A) (l : list A) :
  (forall x, kb (g x) = ka x) ->
  insert_sorted kb (g x) (map g l) = map g (insert_sorted ka x l).
Proof.
  intros Hk. induction l as [|y l IH]; cbn; [reflexivity|].
  rewrite !Hk. destruct (String.leb (ka x) (ka y)); cbn; [reflexivity|].
  now rewrite IH.
Qed.

Lemma sort_by_key_map {A B : Type} (ka : A -> string) (kb : B -> string) (g : A -> B) (l : list A) :
  (forall x, kb (g x) = ka x) ->
  sort_by_key kb (map g l) = map g (sort_by_key ka l).
Proof.
  intros Hk. unfold sort_by_key.
  induction l as [|x l IH]; cbn [map fold_right]; [reflexivity|].
  rewrite IH. apply insert_sorted_map, Hk.
Qed.

(** ** Induction over values *)

Lemma Value_induction (P : Value -> Prop) :
  P null_val ->
  (forall b, P (bool_val b)) ->
  (forall i, P (int_val i)) ->
  (forall d, P (float_val d)) ->
  (forall s, P (string_val s)) ->
  (forall arr, Forall P arr -> P (array_val arr)) ->
  (forall obj, Forall (fun p => P (snd p)) obj -> P (object_val obj)) ->
  forall v, P v.
Proof.
  intros Hn Hb Hi Hf Hs Ha Ho.
  fix IH 1. intros [| b | i | d | s | arr | obj].
  - exact Hn.
  - apply Hb.
  - apply Hi.
  - apply Hf.
  - apply Hs.
  - apply Ha. induction arr as [|x arr IHarr]; constructor; [apply IH | exact IHarr].
  - apply Ho. induction obj as [|[k x] obj IHobj]; constructor; [apply IH | exact IHobj].
Qed.

(** ** Big-endian fields *)

Section WireFacts.
Import Wire.

Lemma Z_of_byte_range (b : byte) : 0 <= Z_of_byte b < 256.
Proof. unfold Z_of_byte. pose proof (Byte.to_N_bounded b). lia. Qed.

Lemma Z_of_byte_of_Z (z : Z) : Z_of_byte (byte_of_Z z) = z mod 256.
Proof.
  unfold byte_of_Z, Z_of_byte.
  assert (Hr : 0 <= z mod 256 < 256) by (apply Z.mod_pos_bound; lia).
  destruct (Byte.of_N (Z.to_N (z mod 256))) as [b|] eqn:E.
  - apply Byte.to_of_N in E. rewrite E. lia.
  - exfalso.
    pose proof (Byte.to_of_N_option_map (Z.to_N (z mod 256))) as H.
    rewrite E in H. cbn in H.
    destruct (N.leb_spec (Z.to_N (z mod 256)) 255); [discriminate | lia].
Qed.

Lemma be_encode_length (n : nat) (z : Z) : List.length (be_encode n z) = n.
Proof. induction n; cbn; congruence. Qed.

Lemma be_decode_acc (bs : bytes) (acc : Z) :
  fold_left (fun a b => a * 256 + Z_of_byte b) bs acc
  = acc * 256 ^ Z.of_nat (List.length bs) + be_decode bs.
Proof.
  unfold be_decode. revert acc.
  induction bs as [|b bs IH]; intros acc.
  - cbn. lia.
  - cbn [fold_left List.length]. rewrite IH, (IH (0 * 256 + _)).
    rewrite Nat2Z.inj_succ, Z.pow_succ_r by lia. ring.
Qed.

Lemma be_decode_cons (b : byte) (bs : bytes) :
  be_decode (b :: bs) = Z_of_byte b * 256 ^ Z.of_nat (List.length bs) + be_decode bs.
Proof. unfold be_decode at 1. cbn [fold_left]. rewrite be_decode_acc. ring. Qed.

Lemma be_decode_encode (n : nat) (z : Z) :
  be_decode (be_encode n z) = z mod 256 ^ Z.of_nat n.
Proof.
  induction n as [|k IH].
  - cbn. rewrite Z.mod_1_r. reflexivity.
  - cbn [be_encode]. rewrite be_decode_cons, be_encode_length, IH, Z_of_byte_of_Z.
    rewrite Nat2Z.inj_succ, Z.pow_succ_r by lia.
    set (p := 256 ^ Z.of_nat k).
    assert (Hp : 0 < p) by (apply Z.pow_pos_nonneg; lia).
    rewrite (Z.mul_comm 256 p), Z.rem_mul_r by lia.
    ring.
Qed.

Lemma u32_decode (n : Z) : 0 <= n < 2 ^ 32 -> be_decode (u32 n) = n.
Proof.
  intros H. unfold u32. rewrite be_decode_encode.
  change (256 ^ Z.of_nat 4) with (2 ^ 32). apply Z.mod_small; assumption.
Qed.

Lemma i64_decode (i : Z) :
  - 2 ^ 63 <= i < 2 ^ 63 -> to_signed64 (be_decode (i64 i)) = i.
Proof.
  intros H. unfold i64. rewrite be_decode_encode.
  change (256 ^ Z.of_nat 8) with (2 ^ 64).
  rewrite Z.mod_mod by lia. unfold to_signed64.
  destruct (Z.le_gt_cases 0 i).
  - rewrite Z.mod_small by lia. destruct (Z.ltb_spec i (2 ^ 63)); lia.
  - replace (i mod 2 ^ 64) with (i + 2 ^ 64).
    + destruct (Z.ltb_spec (i + 2 ^ 64) (2 ^ 63)); lia.
    + symmetry. rewrite <- (Z.mod_add i 1) by lia.
      apply Z.mod_small. lia.
Qed.

Lemma bits_decode (d : Z) : 0 <= d < 2 ^ 64 -> be_decode (be_encode 8 d) = d.
Proof.
  intros H. rewrite be_decode_encode.
  change (256 ^ Z.of_nat 8) with (2 ^ 64). apply Z.mod_small; assumption.
Qed.

Lemma list_byte_of_string_length (s : string) :
  List.length (list_byte_of_string s) = String.length s.
Proof.
  unfold list_byte_of_string. rewrite length_map.
  induction s; cbn; congruence.
Qed.

End WireFacts.

(** ** Readers on an encoded prefix *)

Section ReaderFacts.
Import Wire.

Lemma take_app (a rest : bytes) (pos : nat) :
  take (List.length a) pos (a ++ rest) = Done a (pos + List.length a)%nat rest.
Proof.
  unfold take. rewrite length_app.
  destruct (Nat.leb_spec (List.length a) (List.length a + List.length rest)); [|lia].
  rewrite firstn_app, Nat.sub_diag, firstn_all, skipn_app, Nat.sub_diag, skipn_all.
  cbn. rewrite app_nil_r. reflexivity.
Qed.

Lemma read_byte_cons (b : byte) (rest : bytes) (pos : nat) :
  read_byte pos (b :: rest) = Done (Z_of_byte b) (pos + 1)%nat rest.
Proof.
  unfold read_byte, bind, take, ret, be_decode. cbn. reflexivity.
Qed.

Lemma read_u32_app (n : Z) (rest : bytes) (pos : nat) :
  0 <= n < 2 ^ 32 ->
  read_u32 pos (u32 n ++ rest) = Done n (pos + 4)%nat rest.
Proof.
  intros H. unfold read_u32, bind.
  pose proof (take_app (u32 n) rest pos) as T.
  unfold u32 in T at 1. rewrite be_encode_length in T. rewrite T.
  unfold ret. rewrite u32_decode by assumption.
  unfold u32. rewrite be_encode_length. reflexivity.
Qed.

Lemma read_string_app (max_str : Z) (s : string) (rest : bytes) (pos : nat) :
  utf8_valid s = true ->
  byte_length s < 2 ^ 32 ->
  byte_length s <= max_str ->
  exists pos', read_string max_str pos (encode_string s ++ rest) = Done s pos' rest.
Proof.
  intros Hu H32 Hmax.
  unfold read_string, encode_string, bind, here.
  rewrite <- app_assoc.
  rewrite read_u32_app by (unfold byte_length in *; lia).
  destruct (Z.ltb_spec max_str (byte_length s)); [lia|].
  unfold remaining.
  rewrite length_app, list_byte_of_string_length.
  destruct (Z.ltb_spec (Z.of_nat (String.length s + List.length rest)) (byte_length s));
    [unfold byte_length in *; lia|].
  unfold byte_length. rewrite Nat2Z.id.
  pose proof (take_app (list_byte_of_string s) rest (pos + 4)) as T.
  rewrite list_byte_of_string_length in T. rewrite T.
  unfold utf8_valid in Hu.
  destruct (utf8_first_invalid (list_byte_of_string s)); [discriminate|].
  unfold ret. rewrite string_of_list_byte_of_string. eexists. reflexivity.
Qed.

End ReaderFacts.

(** ** The key dictionary *)

Section DictionaryFacts.
Import Wire.

Let key_ok (max_str : Z) (k : string) : Prop :=
  utf8_valid k = true /\ byte_length k < 2 ^ 32 /\ byte_length k <= max_str.

Lemma dictionary_strict (v : Value) :
  StronglySorted (key_lt (fun k => k)) (dictionary v).
Proof.
  apply sort_by_key_strict. rewrite map_id. apply NoDup_nodup.
Qed.

Lemma dictionary_In (v : Value) (k : string) :
  In k (dictionary v) <-> In k (collect_keys v).
Proof.
  unfold dictionary. rewrite <- (nodup_In string_dec (collect_keys v)). split; intros H.
  - eapply Permutation_in; [apply sort_by_key_perm | exact H].
  - eapply Permutation_in; [symmetry; apply sort_by_key_perm | exact H].
Qed.

Lemma index_of_nth (dict : list string) (k : string) (i : nat) :
  index_of k dict = Some i -> nth_error dict i = Some k.
Proof.
  revert i. induction dict as [|x dict IH]; intros i; cbn; [discriminate|].
  destruct (String.eqb_spec x k) as [->|N].
  - intros [= <-]. reflexivity.
  - destruct (index_of k dict) as [j|]; cbn; [|discriminate].
    intros [= <-]. cbn. apply IH. reflexivity.
Qed.

Lemma index_of_In (dict : list string) (k : string) :
  In k dict -> exists i, index_of k dict = Some i.
Proof.
  induction dict as [|x dict IH]; cbn; [contradiction|].
  intros H. destruct (String.eqb_spec x k) as [->|N]; [now eexists|].
  destruct H as [E|H]; [contradiction|].
  destruct (IH H) as [i ->]. now eexists.
Qed.

Lemma index_of_bound (dict : list string) (k : string) (i : nat) :
  index_of k dict = Some i -> (i < List.length dict)%nat.
Proof.
  intros H. apply index_of_nth in H.
  apply nth_error_Some. congruence.
Qed.

Lemma index_of_mono (dict : list string) (k1 k2 : string) (i1 i2 : nat) :
  StronglySorted (key_lt (fun k => k)) dict ->
  index_of k1 dict = Some i1 -> index_of k2 dict = Some i2 ->
  String.ltb k1 k2 = true -> (i1 < i2)%nat.
Proof.
  intros Hs. revert i1 i2.
  induction Hs as [|x dict Hs IH Hx]; intros i1 i2; cbn; [discriminate|].
  intros H1 H2 Hlt.
  rewrite Forall_forall in Hx. unfold key_lt in Hx.
  destruct (String.eqb_spec x k1) as [E1|N1]; destruct (String.eqb_spec x k2) as [E2|N2].
  - subst. rewrite ltb_irrefl in Hlt. discriminate.
  - injection H1 as <-.
    destruct (index_of k2 dict); cbn in H2; [|discriminate].
    injection H2 as <-. lia.
  - subst x.
    destruct (index_of k1 dict) as [j|] eqn:F1; cbn in H1; [|discriminate].
    apply index_of_nth, nth_error_In in F1.
    pose proof (Hx _ F1) as F. rewrite (ltb_asym _ _ Hlt) in F. discriminate.
  - destruct (index_of k1 dict) as [j1|] eqn:F1; cbn in H1; [|discriminate].
    destruct (index_of k2 dict) as [j2|] eqn:F2; cbn in H2; [|discriminate].
    injection H1 as <-. injection H2 as <-.
    pose proof (IH j1 j2 eq_refl eq_refl Hlt). lia.
Qed.

Lemma first_unsorted_strict (prev : string) (entries : list (nat * string)) :
  StronglySorted (key_lt (fun k => k)) (prev :: map snd entries) ->
  first_unsorted prev entries = None.
Proof.
  revert prev. induction entries as [|[off k] es IH]; intros prev H; cbn; [reflexivity|].
  inversion H as [|? ? Hs Hp]; subst. cbn in Hp.
  inversion Hp as [|? ? Hk _]; subst. unfold key_lt in Hk. rewrite Hk.
  apply IH. exact Hs.
Qed.

Lemma check_sorted_strict (entries : list (nat * string)) :
  StronglySorted (key_lt (fun k => k)) (map snd entries) ->
  check_sorted entries = None.
Proof.
  destruct entries as [|[off k] es]; cbn; [reflexivity|].
  apply first_unsorted_strict.
Qed.

Lemma read_entries_app (max_str : Z) (keys : list string) (rest : bytes) (pos : nat) :
  Forall (key_ok max_str) keys ->
  exists entries pos',
    read_entries max_str (List.length keys) pos (flat_map encode_string keys ++ rest)
      = Done entries pos' rest
    /\ map snd entries = keys.
Proof.
  intros H. revert pos.
  induction H as [|k keys (Hu & H32 & Hm) _ IH]; intros pos.
  - exists [], pos. split; reflexivity.
  - cbn [List.length read_entries flat_map]. rewrite <- app_assoc.
    unfold bind at 1. unfold here. unfold bind at 1.
    destruct (read_string_app max_str k (flat_map encode_string keys ++ rest) pos Hu H32 Hm)
      as [p1 ->].
    unfold bind at 1.
    destruct (IH p1) as (es & p2 & -> & Hes).
    unfold ret. exists ((pos, k) :: es), p2. split; [reflexivity|].
    cbn. congruence.
Qed.

Lemma read_dictionary_app (max_dict max_str : Z) (dict : list string) (rest : bytes) (pos : nat) :
  Forall (key_ok max_str) dict ->
  StronglySorted (key_lt (fun k => k)) dict ->
  Z.of_nat (List.length dict) < 2 ^ 32 ->
  Z.of_nat (List.length dict) <= max_dict ->
  exists pos',
    read_dictionary max_dict max_str pos (encode_dictionary dict ++ rest)
      = Done dict pos' rest.
Proof.
  intros Hk Hs H32 Hmax.
  unfold read_dictionary, encode_dictionary. rewrite <- app_assoc.
  unfold bind at 1. unfold here. unfold bind at 1.
  rewrite read_u32_app by lia.
  destruct (Z.ltb_spec max_dict (Z.of_nat (List.length dict))); [lia|].
  unfold bind. rewrite Nat2Z.id.
  destruct (read_entries_app max_str dict rest (pos + 4) Hk) as (es & p & -> & Hes).
  rewrite check_sorted_strict by (rewrite Hes; assumption).
  unfold ret. rewrite Hes. eexists. reflexivity.
Qed.

End DictionaryFacts.

(** ** Reading back an encoded value *)

Section ValueFacts.
Import Wire Equal.

Lemma encode_value_nonempty (dict : list string) (v : Value) :
  (1 <= List.length (encode_value dict v))%nat.
Proof. destruct v as [| [|] | | | | |]; cbn; lia. Qed.

Lemma flat_map_length_ge {A : Type} (f : A -> bytes) (l : list A) :
  (forall x, 1 <= List.length (f x))%nat ->
  (List.length l <= List.length (flat_map f l))%nat.
Proof.
  intros H. induction l as [|x l IH]; cbn; [lia|].
  rewrite length_app. pose proof (H x). lia.
Qed.

Lemma read_count_app (n : nat) (body rest : bytes) (pos : nat) :
  Z.of_nat n < 2 ^ 32 ->
  (n <= List.length body)%nat ->
  exists pos',
    read_count pos (u32 (Z.of_nat n) ++ body ++ rest) = Done n pos' (body ++ rest).
Proof.
  intros H32 Hn. unfold read_count, bind, here.
  rewrite read_u32_app by lia. unfold remaining.
  rewrite length_app.
  destruct (Z.ltb_spec (Z.of_nat (List.length body + List.length rest)) (Z.of_nat n)); [lia|].
  unfold ret. rewrite Nat2Z.id. eexists. reflexivity.
Qed.

Lemma read_values_app (item : Reader Value) (enc : Value -> bytes) (f : Value -> Value)
    (vs : list Value) (rest : bytes) (pos : nat) :
  Forall (fun v => forall pos rest,
            exists pos', item pos (enc v ++ rest) = Done (f v) pos' rest) vs ->
  exists pos',
    read_values item (List.length vs) pos (flat_map enc vs ++ rest)
      = Done (map f vs) pos' rest.
Proof.
  intros H. revert pos.
  induction H as [|v vs Hv _ IH]; intros pos.
  - exists pos. reflexivity.
  - cbn [List.length read_values flat_map map]. rewrite <- app_assoc.
    unfold bind at 1.
    destruct (Hv pos (flat_map enc vs ++ rest)) as [p1 ->].
    unfold bind at 1.
    destruct (IH p1) as [p2 ->].
    exists p2. reflexivity.
Qed.

Lemma key_id_index (dict : list string) (k : string) :
  In k dict ->
  exists i, index_of k dict = Some i /\ key_id dict k = Z.of_nat i
            /\ nth_error dict i = Some k /\ (i < List.length dict)%nat.
Proof.
  intros H. destruct (index_of_In dict k H) as [i Hi].
  exists i. unfold key_id. rewrite Hi.
  repeat split; [apply index_of_nth | eapply index_of_bound]; eassumption.
Qed.

Lemma key_id_mono (dict : list string) (k1 k2 : string) :
  StronglySorted (key_lt (fun k => k)) dict ->
  In k1 dict -> In k2 dict -> String.ltb k1 k2 = true ->
  key_id dict k1 < key_id dict k2.
Proof.
  intros Hs H1 H2 Hlt.
  destruct (key_id_index dict k1 H1) as (i1 & E1 & -> & _).
  destruct (key_id_index dict k2 H2) as (i2 & E2 & -> & _).
  pose proof (index_of_mono dict k1 k2 i1 i2 Hs E1 E2 Hlt). lia.
Qed.

Lemma read_pairs_app (item : Reader Value) (dict : list string)
    (enc : Value -> bytes) (f : Value -> Value)
    (ps : list (string * Value)) (rest : bytes) :
  StronglySorted (key_lt (fun k => k)) dict ->
  Z.of_nat (List.length dict) < 2 ^ 32 ->
  Forall (fun p => forall pos rest,
            exists pos', item pos (enc (snd p) ++ rest) = Done (f (snd p)) pos' rest) ps ->
  StronglySorted (key_lt fst) ps ->
  Forall (fun p => In (fst p) dict) ps ->
  forall (prev : option Z) (pos : nat),
    match prev with
    | Some q => Forall (fun p => q < key_id dict (fst p)) ps
    | None => True
    end ->
    exists pos',
      read_pairs item dict prev (List.length ps) pos
        (flat_map (encode_pair dict) (map (fun p => (fst p, enc (snd p))) ps) ++ rest)
      = Done (map (fun p => (fst p, f (snd p))) ps) pos' rest.
Proof.
  intros Hd H32 Hitem Hs Hin.
  induction ps as [|[k v] ps IH]; intros prev pos Hprev.
  - exists pos. reflexivity.
  - inversion Hitem as [|? ? Hv Hitem']; subst.
    inversion Hs as [|? ? Hs' Hk]; subst.
    inversion Hin as [|? ? Hkin Hin']; subst.
    cbn [fst snd] in *.
    cbn [List.length read_pairs flat_map map]. unfold encode_pair at 1. cbn [fst snd].
    rewrite <- !app_assoc.
    destruct (key_id_index dict k Hkin) as (i & Ei & Eid & Enth & Hi).
    unfold bind at 1. unfold here. unfold bind at 1.
    rewrite read_u32_app by (rewrite Eid; lia).
    rewrite Eid, Nat2Z.id, Enth.
    assert (Hord : match prev with Some p => Z.of_nat i <=? p | None => false end = false).
    { destruct prev as [q|]; [|reflexivity].
      inversion Hprev as [|? ? Hq _]; subst. cbn [fst] in Hq.
      rewrite Eid in Hq. apply Z.leb_gt. assumption. }
    rewrite Hord.
    unfold bind at 1.
    destruct (Hv (pos + 4)%nat
                (flat_map (encode_pair dict) (map (fun p => (fst p, enc (snd p))) ps) ++ rest))
      as [p1 ->].
    unfold bind at 1.
    destruct (IH Hitem' Hs' Hin' (Some (Z.of_nat i)) p1) as [p2 ->].
    + rewrite <- Eid.
      rewrite Forall_forall in Hk |- *. intros p Hp.
      apply key_id_mono; [assumption | assumption | |].
      * rewrite Forall_forall in Hin'. apply Hin'. assumption.
      * apply (Hk p Hp).
    + exists p2. reflexivity.
Qed.

Lemma distinct_NoDup (l : list string) : distinct l = true <-> NoDup l.
Proof.
  induction l as [|k l IH]; cbn.
  - split; [constructor | reflexivity].
  - rewrite andb_true_iff, negb_true_iff, IH. split.
    + intros [Hn Hd]. constructor; [|assumption].
      intros Hin. assert (E : existsb (String.eqb k) l = true).
      { apply existsb_exists. exists k. split; [assumption | apply String.eqb_refl]. }
      congruence.
    + intros H. inversion H as [|? ? Hn Hd]; subst. split; [|assumption].
      destruct (existsb (String.eqb k) l) eqn:E; [|reflexivity].
      apply existsb_exists in E as (x & Hx & Ex).
      apply String.eqb_eq in Ex. subst x. contradiction.
Qed.

Lemma readable_array (max_str : Z) (arr : list Value) :
  readable max_str (array_val arr) = true ->
  Z.of_nat (List.length arr) < 2 ^ 32
  /\ Forall (fun x => readable max_str x = true) arr.
Proof.
  unfold readable. cbn [well_typed strings_valid keys_unique sizes_fit strings_within].
  rewrite !andb_true_iff, !forallb_forall. unfold fits_u32.
  intros ((((Hw & Hs) & Hk) & (H32 & Hz)) & Hm).
  split; [apply Z.ltb_lt; assumption|].
  apply Forall_forall. intros x Hx.
  rewrite (Hw x Hx), (Hs x Hx), (Hk x Hx), (Hz x Hx), (Hm x Hx). reflexivity.
Qed.

Lemma readable_object (max_str : Z) (obj : list (string * Value)) :
  readable max_str (object_val obj) = true ->
  Z.of_nat (List.length obj) < 2 ^ 32
  /\ NoDup (map fst obj)
  /\ Forall (fun p => utf8_valid (fst p) = true
                      /\ byte_length (fst p) < 2 ^ 32
                      /\ byte_length (fst p) <= max_str
                      /\ readable max_str (snd p) = true) obj.
Proof.
  unfold readable. cbn [well_typed strings_valid keys_unique sizes_fit strings_within].
  rewrite !andb_true_iff, !forallb_forall, distinct_NoDup. unfold fits_u32.
  intros ((((Hw & Hs) & (Hd & Hk)) & (H32 & Hz)) & Hm).
  split; [apply Z.ltb_lt; assumption|]. split; [assumption|].
  apply Forall_forall. intros p Hp.
  pose proof (Hs p Hp) as A. pose proof (Hz p Hp) as B. pose proof (Hm p Hp) as C.
  apply andb_true_iff in A as [A1 A2]. apply andb_true_iff in B as [B1 B2].
  apply andb_true_iff in C as [C1 C2].
  rewrite (Hw p Hp), (Hk p Hp), A2, B2, C2.
  repeat split; [assumption | apply Z.ltb_lt | apply Z.leb_le]; assumption.
Qed.

Lemma depth_array_elem (arr : list Value) (x : Value) :
  In x arr -> (depth x < depth (array_val arr))%nat.
Proof.
  cbn [depth]. induction arr as [|y arr IH]; cbn [fold_right In]; [contradiction|].
  intros [->|H]; apply Nat.lt_succ_r.
  - apply Nat.le_max_l.
  - pose proof (proj1 (Nat.lt_succ_r _ _) (IH H)) as IH'.
    etransitivity; [exact IH' | apply Nat.le_max_r].
Qed.

Lemma depth_object_elem (obj : list (string * Value)) (p : string * Value) :
  In p obj -> (depth (snd p) < depth (object_val obj))%nat.
Proof.
  cbn [depth]. induction obj as [|q obj IH]; cbn [fold_right In]; [contradiction|].
  intros [->|H]; apply Nat.lt_succ_r.
  - apply Nat.le_max_l.
  - pose proof (proj1 (Nat.lt_succ_r _ _) (IH H)) as IH'.
    etransitivity; [exact IH' | apply Nat.le_max_r].
Qed.

Section ReadValue.

Variable dict : list string.
Variable max_str : Z.
Hypothesis dict_strict : StronglySorted (key_lt (fun k => k)) dict.
Hypothesis dict_size : Z.of_nat (List.length dict) < 2 ^ 32.

Lemma read_value_app (v : Value) :
  forall (fuel pos : nat) (rest : bytes),
    readable max_str v = true ->
    incl (collect_keys v) dict ->
    (depth v <= fuel)%nat ->
    exists pos',
      read_value fuel dict max_str pos (encode_value dict v ++ rest)
        = Done (canonical v) pos' rest.
Proof.
  induction v as [| b | i | d | s | arr IH | obj IH] using Value_induction;
    intros fuel pos rest Hr Hk Hd;
    (destruct fuel as [|fuel]; [cbn [depth] in Hd; lia|]).
  - eexists. reflexivity.
  - destruct b; eexists; reflexivity.
  - cbn [read_value encode_value canonical]. unfold bind at 1. unfold here.
    unfold bind at 1. cbn [app]. rewrite read_byte_cons. cbn [Z_of_byte Byte.to_N Z.of_N Z.eqb Pos.eqb].
    unfold bind. pose proof (take_app (i64 i) rest (pos + 1)) as T.
    unfold i64 in T at 1. rewrite be_encode_length in T. rewrite T.
    unfold readable in Hr. cbn [well_typed] in Hr.
    rewrite !andb_true_iff in Hr. destruct Hr as (((((Hlo & Hhi) & _) & _) & _) & _).
    apply Z.leb_le in Hlo. apply Z.ltb_lt in Hhi.
    rewrite i64_decode by lia. eexists. reflexivity.
  - cbn [read_value encode_value canonical]. unfold bind at 1. unfold here.
    unfold bind at 1. cbn [app]. rewrite read_byte_cons. cbn [Z_of_byte Byte.to_N Z.of_N Z.eqb Pos.eqb].
    unfold bind.
    pose proof (take_app (be_encode 8 (canonical_bits d)) rest (pos + 1)) as T.
    rewrite be_encode_length in T. rewrite T.
    unfold readable in Hr. cbn [well_typed] in Hr.
    rewrite !andb_true_iff in Hr. destruct Hr as (((((Hlo & Hhi) & _) & _) & _) & _).
    apply Z.leb_le in Hlo. apply Z.ltb_lt in Hhi.
    rewrite bits_decode; [eexists; reflexivity|].
    unfold canonical_bits. destruct (Double.is_nan d); [unfold Double.quiet_nan; lia | lia].
  - cbn [read_value encode_value canonical]. unfold bind at 1. unfold here.
    unfold bind at 1. cbn [app]. rewrite read_byte_cons. cbn [Z_of_byte Byte.to_N Z.of_N Z.eqb Pos.eqb].
    unfold bind.
    unfold readable in Hr. cbn [well_typed strings_valid sizes_fit strings_within] in Hr.
    rewrite !andb_true_iff in Hr. destruct Hr as ((((_ & Hu) & _) & H32) & Hm).
    apply Z.ltb_lt in H32. apply Z.leb_le in Hm.
    destruct (read_string_app max_str s rest (pos + 1) Hu H32 Hm) as [p ->].
    eexists. reflexivity.
  - cbn [read_value encode_value canonical]. unfold bind at 1. unfold here.
    unfold bind at 1. cbn [app]. rewrite read_byte_cons. cbn [Z_of_byte Byte.to_N Z.of_N Z.eqb Pos.eqb].
    destruct (readable_array _ _ Hr) as [H32 Hall].
    rewrite <- app_assoc. unfold bind at 1.
    destruct (read_count_app (List.length arr) (flat_map (encode_value dict) arr) rest (pos + 1) H32)
      as [p1 ->].
    { apply flat_map_length_ge. apply encode_value_nonempty. }
    unfold bind at 1.
    destruct (read_values_app (read_value fuel dict max_str) (encode_value dict) canonical
                arr rest p1) as [p2 ->].
    { rewrite Forall_forall in IH, Hall |- *. intros x Hx pos0 rest0.
      apply IH; [assumption | apply Hall; assumption | |].
      - intros k Hkx. apply Hk. cbn [collect_keys]. apply in_flat_map. eauto.
      - pose proof (depth_array_elem arr x Hx). lia. }
    eexists. reflexivity.
  - cbn [read_value encode_value canonical]. unfold bind at 1. unfold here.
    unfold bind at 1. cbn [app]. rewrite read_byte_cons. cbn [Z_of_byte Byte.to_N Z.of_N Z.eqb Pos.eqb].
    destruct (readable_object _ _ Hr) as (H32 & Hnd & Hall).
    rewrite (sort_by_key_map fst fst (fun p => (fst p, encode_value dict (snd p))))
      by reflexivity.
    rewrite (sort_by_key_map fst fst (fun p => (fst p, canonical (snd p))))
      by reflexivity.
    pose proof (sort_by_key_perm fst obj) as HP.
    set (ps := sort_by_key fst obj) in *.
    replace (List.length obj) with (List.length ps)
      by (apply Permutation_length; assumption).
    rewrite <- app_assoc. unfold bind at 1.
    destruct (read_count_app (List.length ps)
                (flat_map (encode_pair dict) (map (fun p => (fst p, encode_value dict (snd p))) ps))
                rest (pos + 1)) as [p1 ->].
    { rewrite (Permutation_length HP). assumption. }
    { rewrite <- (length_map (fun p => (fst p, encode_value dict (snd p))) ps) at 1.
      apply flat_map_length_ge. intros [k e]. unfold encode_pair. cbn [fst snd].
      rewrite length_app. unfold u32. rewrite be_encode_length. lia. }
    unfold bind at 1.
    destruct (read_pairs_app (read_value fuel dict max_str) dict (encode_value dict) canonical
                ps rest dict_strict dict_size) with (prev := @None Z) (pos := p1) as [p2 ->].
    { rewrite Forall_forall in IH, Hall |- *. intros p Hp pos0 rest0.
      assert (Hp' : In p obj) by (eapply Permutation_in; eassumption).
      apply IH; [assumption | apply Hall; assumption | |].
      - intros k Hkx. apply Hk. cbn [collect_keys]. apply in_flat_map.
        exists p. split; [assumption | now right].
      - pose proof (depth_object_elem obj p Hp'). lia. }
    { apply sort_by_key_strict. assumption. }
    { apply Forall_forall. intros p Hp.
      assert (Hp' : In p obj) by (eapply Permutation_in; eassumption).
      apply Hk. cbn [collect_keys]. apply in_flat_map.
      exists p. split; [assumption | now left]. }
    { exact I. }
    eexists. reflexivity.
Qed.

End ReadValue.

End ValueFacts.

(** ** Decoding an encoded document *)

Section DocumentFacts.
Import Wire Equal.

Lemma encode_encodable (v : Value) (max_depth : Z) :
  encodable max_depth v = true -> encode v max_depth = Ok (document v).
Proof.
  unfold encodable, encode, document. rewrite !andb_true_iff.
  intros ((((Hd & Hs) & Hk) & Hz) & H32).
  apply Z.leb_le in Hd.
  destruct (Z.ltb_spec max_depth (Z.of_nat (depth v))); [lia|].
  rewrite Hs, Hk, Hz, H32. reflexivity.
Qed.

Lemma encode_Ok (v : Value) (max_depth : Z) (b : bytes) :
  encode v max_depth = Ok b -> encodable max_depth v = true /\ b = document v.
Proof.
  unfold encodable, encode, document.
  destruct (Z.ltb_spec max_depth (Z.of_nat (depth v))); [discriminate|].
  destruct (strings_valid v); [|discriminate].
  destruct (keys_unique v); [|discriminate].
  destruct (sizes_fit v); [|discriminate].
  destruct (fits_u32 _); [|discriminate].
  cbn. intros [= <-]. split; [|reflexivity].
  rewrite !andb_true_r. apply Z.leb_le. lia.
Qed.

Lemma readable_keys (max_str : Z) (v : Value) :
  readable max_str v = true ->
  Forall (fun k => utf8_valid k = true /\ byte_length k < 2 ^ 32 /\ byte_length k <= max_str)
         (collect_keys v).
Proof.
  induction v as [| b | i | d | s | arr IH | obj IH] using Value_induction;
    intros Hr; cbn [collect_keys]; try constructor.
  - destruct (readable_array _ _ Hr) as [_ Hall].
    apply Forall_flat_map. rewrite Forall_forall in IH, Hall |- *.
    intros x Hx. apply IH; [assumption | apply Hall; assumption].
  - destruct (readable_object _ _ Hr) as (_ & _ & Hall).
    apply Forall_flat_map. rewrite Forall_forall in IH, Hall |- *.
    intros p Hp. destruct (Hall p Hp) as (A & B & C & D).
    constructor; [repeat split; assumption|].
    apply IH; assumption.
Qed.

Lemma read_header_app (rest : bytes) :
  read_header 0%nat (magic ++ [version] ++ rest) = Done tt 5%nat rest.
Proof.
  unfold read_header, bind, remaining. cbn [magic app List.length].
  destruct (Z.ltb_spec (Z.of_nat (S (S (S (S (S (List.length rest))))))) 5); [lia|].
  reflexivity.
Qed.

(** The decoder reads back the canonical form of what was encoded. *)
Lemma decode_document_encode (v : Value) (max_depth max_dict max_str : Z) :
  well_typed v = true ->
  strings_valid v = true -> keys_unique v = true -> sizes_fit v = true ->
  fits_u32 (Z.of_nat (List.length (dictionary v))) = true ->
  within_bounds max_depth max_dict max_str v = true ->
  decode_document (document v) max_depth max_dict max_str = inl (canonical v).
Proof.
  intros Hw Hs Hk Hz H32 Hb.
  unfold within_bounds in Hb. rewrite !andb_true_iff in Hb.
  destruct Hb as ((Hd & Hn) & Hm).
  apply Z.leb_le in Hd, Hn. apply Z.ltb_lt in H32.
  assert (Hr : readable max_str v = true)
    by (unfold readable; rewrite Hw, Hs, Hk, Hz, Hm; reflexivity).
  unfold decode_document, read_document, document.
  unfold bind at 1. rewrite read_header_app.
  unfold bind at 1.
  destruct (read_dictionary_app max_dict max_str (dictionary v)
              (encode_value (dictionary v) v) 5) as [p1 ->].
  - pose proof (readable_keys max_str v Hr) as Hkeys.
    rewrite Forall_forall in Hkeys |- *. intros k Hin.
    apply Hkeys, dictionary_In. assumption.
  - apply dictionary_strict.
  - assumption.
  - assumption.
  - unfold bind at 1.
    rewrite <- (app_nil_r (encode_value (dictionary v) v)).
    destruct (read_value_app (dictionary v) max_str (dictionary_strict v) H32 v
                (Z.to_nat max_depth) p1 [] Hr) as [p2 ->].
    + intros k Hin. apply dictionary_In. assumption.
    + lia.
    + reflexivity.
Qed.

End DocumentFacts.

(** ** Canonical form and the host's view of a value *)

Section CanonicalFacts.
Import Equal.

Lemma value_equal_refl (v : Value) : value_equal v v.
Proof.
  induction v as [| b | i | d | s | arr IH | obj IH] using Value_induction;
    try (constructor; fail).
  - constructor. now left.
  - constructor. induction IH; constructor; assumption.
  - apply veq_object with (o2' := obj); [reflexivity|].
    induction IH; constructor; [split; [reflexivity | assumption] | assumption].
Qed.

Lemma same_number_canonical (d : Double.double) : same_number d (canonical_bits d).
Proof.
  unfold same_number, canonical_bits.
  destruct (Double.is_nan d) eqn:E; [right; split; reflexivity | now left].
Qed.

(** A value equals its canonical form. *)
Lemma value_equal_canonical (v : Value) : value_equal v (canonical v).
Proof.
  induction v as [| b | i | d | s | arr IH | obj IH] using Value_induction;
    cbn [canonical]; try (constructor; fail).
  - constructor. apply same_number_canonical.
  - constructor. induction IH; constructor; assumption.
  - apply veq_object with (o2' := map (fun p => (fst p, canonical (snd p))) obj).
    + apply sort_by_key_perm.
    + induction IH; constructor; [split; [reflexivity | assumption] | assumption].
Qed.

Lemma classify_of_int64 (i : Z) :
  - 2 ^ 53 <= i <= 2 ^ 53 -> classify (Double.of_int64 i) = int_val i.
Proof.
  intros H. unfold classify. rewrite <- NapiToValue_number.
  apply NapiToValue_of_int64. assumption.
Qed.

Lemma host_view_stable (v : Value) : host_stable v = true -> host_view v = v.
Proof.
  induction v as [| b | i | d | s | arr IH | obj IH] using Value_induction;
    intros Hs; try reflexivity.
  - cbn [host_stable] in Hs. apply andb_true_iff in Hs as [Hlo Hhi].
    apply Z.leb_le in Hlo, Hhi. cbn [host_view]. apply classify_of_int64. lia.
  - cbn [host_stable] in Hs. apply andb_true_iff in Hs as [_ Hn].
    apply negb_true_iff in Hn. cbn [host_view]. unfold classify. rewrite Hn. reflexivity.
  - cbn [host_stable] in Hs. rewrite forallb_forall in Hs.
    cbn [host_view]. f_equal. rewrite <- (map_id arr) at 2.
    apply map_ext_in. intros x Hx. rewrite Forall_forall in IH.
    apply IH; [assumption | apply Hs; assumption].
  - cbn [host_stable] in Hs. rewrite forallb_forall in Hs.
    cbn [host_view]. f_equal. rewrite <- (map_id obj) at 2.
    apply map_ext_in. intros [k x] Hp. cbn [fst snd]. f_equal.
    rewrite Forall_forall in IH. apply (IH (k, x)); [assumption | apply (Hs (k, x)); assumption].
Qed.

Lemma host_stable_well_typed (v : Value) : host_stable v = true -> well_typed v = true.
Proof.
  induction v as [| b | i | d | s | arr IH | obj IH] using Value_induction;
    intros Hs; try reflexivity.
  - cbn [host_stable] in Hs. apply andb_true_iff in Hs as [Hlo Hhi].
    apply Z.leb_le in Hlo, Hhi. cbn [well_typed].
    apply andb_true_iff; split; [apply Z.leb_le | apply Z.ltb_lt]; lia.
  - cbn [host_stable] in Hs. apply andb_true_iff in Hs as [Hw _]. exact Hw.
  - cbn [host_stable well_typed] in *. rewrite forallb_forall in *.
    intros x Hx. rewrite Forall_forall in IH. apply IH; [assumption | apply Hs; assumption].
  - cbn [host_stable well_typed] in *. rewrite forallb_forall in *.
    intros p Hp. rewrite Forall_forall in IH. apply IH; [assumption | apply Hs; assumption].
Qed.

End CanonicalFacts.

(** ** Structural equality and the encoder *)

Section EqualityFacts.
Import Wire Equal.

Lemma value_equal_induction (P : Value -> Value -> Prop) :
  P null_val null_val ->
  (forall b, P (bool_val b) (bool_val b)) ->
  (forall i, P (int_val i) (int_val i)) ->
  (forall a b, same_number a b -> P (float_val a) (float_val b)) ->
  (forall s, P (string_val s) (string_val s)) ->
  (forall l1 l2,
      Forall2 (fun x y => value_equal x y /\ P x y) l1 l2 ->
      P (array_val l1) (array_val l2)) ->
  (forall o1 o2 o2',
      Permutation o2 o2' ->
      Forall2 (fun p q => fst p = fst q /\ value_equal (snd p) (snd q) /\ P (snd p) (snd q))
              o1 o2' ->
      P (object_val o1) (object_val o2)) ->
  forall v1 v2, value_equal v1 v2 -> P v1 v2.
Proof.
  intros Hn Hb Hi Hf Hs Ha Ho.
  fix IH 3. intros v1 v2 H.
  destruct H as [| b | i | a b Hab | s | l1 l2 Hl | o1 o2 o2' Hp Hl].
  - exact Hn.
  - apply Hb.
  - apply Hi.
  - apply Hf. exact Hab.
  - apply Hs.
  - apply Ha.
    induction Hl as [|x y l1 l2 Hxy Hl IHl]; [constructor|].
    constructor; [split; [exact Hxy | apply IH; exact Hxy] | exact IHl].
  - apply Ho with (o2' := o2'); [exact Hp|].
    clear Hp. induction Hl as [|p q o1 o2' [Hk Hv] Hl IHl]; [constructor|].
    constructor; [split; [exact Hk | split; [exact Hv | apply IH; exact Hv]] | exact IHl].
Qed.

Lemma fold_max_Forall2 {A B : Type} (f : A -> nat) (g : B -> nat) (l1 : list A) (l2 : list B) :
  Forall2 (fun x y => f x = g y) l1 l2 ->
  fold_right (fun x m => Nat.max (f x) m) 0%nat l1
  = fold_right (fun y m => Nat.max (g y) m) 0%nat l2.
Proof. induction 1; cbn; congruence. Qed.

Lemma fold_max_perm {A : Type} (f : A -> nat) (l1 l2 : list A) :
  Permutation l1 l2 ->
  fold_right (fun x m => Nat.max (f x) m) 0%nat l1
  = fold_right (fun x m => Nat.max (f x) m) 0%nat l2.
Proof.
  induction 1; cbn; try congruence.
  rewrite !Nat.max_assoc, (Nat.max_comm (f y) (f x)). reflexivity.
Qed.

Lemma forallb_Forall2 {A B : Type} (f : A -> bool) (g : B -> bool) (l1 : list A) (l2 : list B) :
  Forall2 (fun x y => f x = g y) l1 l2 -> forallb f l1 = forallb g l2.
Proof. induction 1; cbn; congruence. Qed.

Lemma forallb_perm {A : Type} (f : A -> bool) (l1 l2 : list A) :
  Permutation l1 l2 -> forallb f l1 = forallb f l2.
Proof.
  induction 1; cbn; try congruence.
  rewrite !andb_assoc, (andb_comm (f y) (f x)). reflexivity.
Qed.

Lemma distinct_perm (l1 l2 : list string) :
  Permutation l1 l2 -> distinct l1 = distinct l2.
Proof.
  intros H. apply eq_true_iff_eq. rewrite !distinct_NoDup.
  split; apply Permutation_NoDup; [assumption | symmetry; assumption].
Qed.

Lemma Forall2_map_fst {A B : Type} (R : string * A -> string * B -> Prop)
    (l1 : list (string * A)) (l2 : list (string * B)) :
  Forall2 (fun p q => fst p = fst q /\ R p q) l1 l2 ->
  map fst l1 = map fst l2.
Proof. induction 1 as [|p q l1 l2 [E _] _ IH]; cbn; congruence. Qed.

Lemma Forall2_length_eq {A B : Type} (R : A -> B -> Prop) (l1 : list A) (l2 : list B) :
  Forall2 R l1 l2 -> List.length l1 = List.length l2.
Proof. induction 1; cbn; congruence. Qed.

Lemma flat_map_Forall2 {A B C : Type} (f : A -> list C) (g : B -> list C)
    (l1 : list A) (l2 : list B) :
  Forall2 (fun x y => f x = g y) l1 l2 -> flat_map f l1 = flat_map g l2.
Proof. induction 1; cbn; congruence. Qed.

Lemma In_flat_map_Forall2 {A B : Type} (f : A -> list string) (g : B -> list string)
    (l1 : list A) (l2 : list B) (k : string) :
  Forall2 (fun x y => forall k, In k (f x) <-> In k (g y)) l1 l2 ->
  In k (flat_map f l1) <-> In k (flat_map g l2).
Proof.
  induction 1 as [|x y l1 l2 Hxy _ IH]; cbn; [reflexivity|].
  rewrite !in_app_iff, IH, (Hxy k). reflexivity.
Qed.

Lemma In_flat_map_perm {A : Type} (f : A -> list string) (l1 l2 : list A) (k : string) :
  Permutation l1 l2 -> In k (flat_map f l1) <-> In k (flat_map f l2).
Proof.
  intros H. rewrite !in_flat_map. split; intros (x & Hx & Hk); exists x; split;
    try assumption; eapply Permutation_in; try eassumption. symmetry. assumption.
Qed.

(** What the encoder looks at is the same on structurally equal values. *)
Lemma encoder_respects_value_equal (v1 v2 : Value) :
  value_equal v1 v2 ->
  depth v1 = depth v2
  /\ strings_valid v1 = strings_valid v2
  /\ keys_unique v1 = keys_unique v2
  /\ sizes_fit v1 = sizes_fit v2
  /\ (forall k, In k (collect_keys v1) <-> In k (collect_keys v2))
  /\ (keys_unique v1 = true -> forall dict, encode_value dict v1 = encode_value dict v2).
Proof.
  induction 1 as [| b | i | a b Hab | s | l1 l2 Hl | o1 o2 o2' Hp Hl]
    using value_equal_induction;
    try (split; [|split; [|split; [|split; [|split]]]]; reflexivity).
  - split; [|split; [|split; [|split; [|split]]]]; try reflexivity.
    intros _ dict. cbn [encode_value]. do 2 f_equal.
    unfold canonical_bits. destruct Hab as [->|[-> ->]]; reflexivity.
  - assert (Hlen : List.length l1 = List.length l2) by (eapply Forall2_length_eq; eassumption).
    cbn [depth strings_valid keys_unique sizes_fit collect_keys encode_value].
    split; [|split; [|split; [|split; [|split]]]].
    + f_equal. apply fold_max_Forall2.
      eapply Forall2_impl; [|exact Hl]. cbn. intros x y (_ & E & _). exact E.
    + apply forallb_Forall2.
      eapply Forall2_impl; [|exact Hl]. cbn. intros x y (_ & _ & E & _). exact E.
    + apply forallb_Forall2.
      eapply Forall2_impl; [|exact Hl]. cbn. intros x y (_ & _ & _ & E & _). exact E.
    + rewrite Hlen. f_equal. apply forallb_Forall2.
      eapply Forall2_impl; [|exact Hl]. cbn. intros x y (_ & _ & _ & _ & E & _). exact E.
    + intros k. apply In_flat_map_Forall2.
      eapply Forall2_impl; [|exact Hl]. cbn. intros x y (_ & _ & _ & _ & _ & E & _). exact E.
    + intros Hk dict. rewrite Hlen. do 2 f_equal.
      rewrite forallb_forall in Hk.
      clear Hlen. induction Hl as [|x y l1 l2 (_ & _ & _ & _ & _ & _ & E) _ IH]; cbn;
        [reflexivity|].
      rewrite E by (apply Hk; now left). rewrite IH; [reflexivity|].
      intros z Hz. apply Hk. now right.
  - assert (Hkeys : map fst o1 = map fst o2').
    { eapply (Forall2_map_fst (fun p q => _ /\ _)). exact Hl. }
    assert (Hlen : List.length o1 = List.length o2).
    { rewrite (Forall2_length_eq _ _ _ Hl). symmetry. apply Permutation_length. assumption. }
    symmetry in Hp.
    cbn [depth strings_valid keys_unique sizes_fit collect_keys encode_value].
    split; [|split; [|split; [|split; [|split]]]].
    + f_equal. rewrite <- (fold_max_perm (fun p => depth (snd p)) _ _ Hp).
      apply fold_max_Forall2.
      eapply Forall2_impl; [|exact Hl]. cbn. intros p q (_ & _ & E & _). exact E.
    + rewrite <- (forallb_perm _ _ _ Hp). apply forallb_Forall2.
      eapply Forall2_impl; [|exact Hl]. cbn. intros p q (Ek & _ & _ & E & _).
      rewrite Ek, E. reflexivity.
    + rewrite <- (forallb_perm _ _ _ Hp).
      rewrite <- (distinct_perm _ _ (Permutation_map fst Hp)), Hkeys. f_equal.
      apply forallb_Forall2.
      eapply Forall2_impl; [|exact Hl]. cbn. intros p q (_ & _ & _ & _ & E & _). exact E.
    + rewrite Hlen. f_equal. rewrite <- (forallb_perm _ _ _ Hp). apply forallb_Forall2.
      eapply Forall2_impl; [|exact Hl]. cbn. intros p q (Ek & _ & _ & _ & _ & E & _).
      rewrite Ek, E. reflexivity.
    + intros k. rewrite <- (In_flat_map_perm _ _ _ k Hp). apply In_flat_map_Forall2.
      eapply Forall2_impl; [|exact Hl]. cbn. intros p q (Ek & _ & _ & _ & _ & _ & E & _) k'.
      rewrite Ek, (E k'). reflexivity.
    + intros Hk dict. apply andb_true_iff in Hk as [Hd Hk].
      rewrite Hlen. do 3 f_equal.
      assert (Hmap : map (fun p => (fst p, encode_value dict (snd p))) o1
                     = map (fun p => (fst p, encode_value dict (snd p))) o2').
      { rewrite forallb_forall in Hk. clear Hkeys Hlen Hp Hd.
        induction Hl as [|p q o1 o2' (Ek & _ & _ & _ & _ & _ & _ & E) _ IH]; cbn;
          [reflexivity|].
        rewrite Ek, E by (apply Hk; now left). rewrite IH; [reflexivity|].
        intros z Hz. apply Hk. now right. }
      rewrite Hmap. apply sort_by_key_permutation.
      * apply Permutation_map. assumption.
      * rewrite map_map. cbn [fst]. change (NoDup (map fst o2')).
        rewrite <- Hkeys. apply distinct_NoDup. assumption.
Qed.

Lemma dictionary_value_equal (v1 v2 : Value) :
  value_equal v1 v2 -> dictionary v1 = dictionary v2.
Proof.
  intros H. destruct (encoder_respects_value_equal v1 v2 H) as (_ & _ & _ & _ & Hk & _).
  unfold dictionary. apply sort_by_key_permutation.
  - apply NoDup_Permutation; try apply NoDup_nodup.
    intros k. rewrite !nodup_In. apply Hk.
  - rewrite map_id. apply NoDup_nodup.
Qed.

Lemma encode_value_equal (v1 v2 : Value) (max_depth : Z) :
  value_equal v1 v2 -> encode v1 max_depth = encode v2 max_depth.
Proof.
  intros H.
  destruct (encoder_respects_value_equal v1 v2 H) as (Hd & Hs & Hk & Hz & _ & He).
  unfold encode. rewrite <- Hd, <- Hs, <- Hk, <- Hz, <- (dictionary_value_equal v1 v2 H).
  destruct (max_depth <? Z.of_nat (depth v1)); [reflexivity|].
  destruct (strings_valid v1); [|reflexivity].
  destruct (keys_unique v1) eqn:Ek; [|reflexivity].
  rewrite (He eq_refl). reflexivity.
Qed.

Lemma same_number_classify (a b : Double.double) :
  same_number a b -> value_equal (classify a) (classify b).
Proof.
  intros [->|[Ha Hb]]; [apply value_equal_refl|].
  unfold classify, integral_in_safe_range, Double.geb, Double.leb.
  rewrite Ha, Hb. cbn [negb andb]. rewrite !andb_false_r. cbn [andb].
  constructor. right. split; assumption.
Qed.

Lemma host_view_value_equal (v1 v2 : Value) :
  value_equal v1 v2 -> value_equal (host_view v1) (host_view v2).
Proof.
  induction 1 as [| b | i | a b Hab | s | l1 l2 Hl | o1 o2 o2' Hp Hl]
    using value_equal_induction; cbn [host_view]; try (constructor; fail).
  - apply value_equal_refl.
  - apply same_number_classify. assumption.
  - constructor. induction Hl as [|x y l1 l2 [_ E] _ IH]; cbn; [constructor|].
    constructor; assumption.
  - apply veq_object with (o2' := map (fun p => (fst p, host_view (snd p))) o2').
    + apply Permutation_map. assumption.
    + clear Hp. induction Hl as [|p q o1 o2' (Ek & _ & E) _ IH]; cbn; [constructor|].
      constructor; [split; assumption | assumption].
Qed.

Lemma value_equal_keys_unique (v1 v2 : Value) :
  value_equal v1 v2 -> keys_unique v1 = keys_unique v2.
Proof. intros H. apply (encoder_respects_value_equal v1 v2 H). Qed.

End EqualityFacts.

(** ** Strings and property names the addon hands to the host *)

Section HostStrings.
Import Wire.

Lemma utf8_decode_valid (n : nat) :
  forall (bs : bytes) (pos : nat),
    (List.length bs <= n)%nat ->
    utf8_scan pos 0 (map Z_of_byte bs) = None ->
    utf8_decode Accept bs = bs.
Proof.
  induction n as [|n IH]; intros bs pos Hn Hs.
  - destruct bs; [reflexivity | cbn in Hn; lia].
  - destruct bs as [|b t]; [reflexivity|].
    cbn [map utf8_scan] in Hs. cbn [utf8_decode List.length] in *.
    unfold utf8_sequence, second_of_3, second_of_4, is_cont, in_range in Hs.
    unfold utf8_lead, within.
    destruct (Z_of_byte b <=? 0x7F).
    { cbn [fst snd app Nat.pred] in *. f_equal.
      apply (IH t (S pos)); [lia | exact Hs]. }
    destruct ((0xC2 <=? Z_of_byte b) && (Z_of_byte b <=? 0xDF)).
    { destruct t as [|b1 t']; [discriminate|]. cbn [map List.length] in *.
      cbn [fst snd app utf8_decode]. unfold within.
      destruct ((0x80 <=? Z_of_byte b1) && (Z_of_byte b1 <=? 0xBF)); [|discriminate].
      cbn [Nat.pred utf8_scan app] in *. do 2 f_equal.
      apply (IH t' (S (S pos))); [lia | exact Hs]. }
    destruct ((0xE0 <=? Z_of_byte b) && (Z_of_byte b <=? 0xEF)).
    { destruct t as [|b1 [|b2 t']]; try discriminate. cbn [map List.length] in *.
      cbn [fst snd app utf8_decode]. unfold within.
      assert (H1 : ((if Z_of_byte b =? 0xE0 then 0xA0 else 0x80) <=? Z_of_byte b1)
                   && (Z_of_byte b1 <=? (if Z_of_byte b =? 0xED then 0x9F else 0xBF))
                   = (if Z_of_byte b =? 224
                      then (160 <=? Z_of_byte b1) && (Z_of_byte b1 <=? 191)
                      else if Z_of_byte b =? 237
                           then (128 <=? Z_of_byte b1) && (Z_of_byte b1 <=? 159)
                           else (128 <=? Z_of_byte b1) && (Z_of_byte b1 <=? 191))).
      { destruct (Z.eqb_spec (Z_of_byte b) 0xE0) as [E|E];
          [rewrite E; reflexivity|].
        destruct (Z_of_byte b =? 0xED); reflexivity. }
      rewrite H1. clear H1.
      destruct (if Z_of_byte b =? 224 then _ else _); [|discriminate].
      destruct ((0x80 <=? Z_of_byte b2) && (Z_of_byte b2 <=? 0xBF)); [|discriminate].
      cbn [andb Nat.pred utf8_scan app] in *. do 3 f_equal.
      apply (IH t' (S (S (S pos)))); [lia | exact Hs]. }
    destruct ((0xF0 <=? Z_of_byte b) && (Z_of_byte b <=? 0xF4)); [|discriminate].
    destruct t as [|b1 [|b2 [|b3 t']]]; try discriminate. cbn [map List.length] in *.
    cbn [fst snd app utf8_decode]. unfold within.
    assert (H1 : ((if Z_of_byte b =? 0xF0 then 0x90 else 0x80) <=? Z_of_byte b1)
                 && (Z_of_byte b1 <=? (if Z_of_byte b =? 0xF4 then 0x8F else 0xBF))
                 = (if Z_of_byte b =? 240
                    then (144 <=? Z_of_byte b1) && (Z_of_byte b1 <=? 191)
                    else if Z_of_byte b =? 244
                         then (128 <=? Z_of_byte b1) && (Z_of_byte b1 <=? 143)
                         else (128 <=? Z_of_byte b1) && (Z_of_byte b1 <=? 191))).
    { destruct (Z.eqb_spec (Z_of_byte b) 0xF0) as [E|E];
        [rewrite E; reflexivity|].
      destruct (Z_of_byte b =? 0xF4); reflexivity. }
    rewrite H1. clear H1.
    destruct (if Z_of_byte b =? 240 then _ else _); [|discriminate].
    destruct ((0x80 <=? Z_of_byte b2) && (Z_of_byte b2 <=? 0xBF)); [|discriminate].
    destruct ((0x80 <=? Z_of_byte b3) && (Z_of_byte b3 <=? 0xBF)); [|discriminate].
    cbn [andb Nat.pred utf8_scan app] in *. do 4 f_equal.
    apply (IH t' (S (S (S (S pos))))); [lia | exact Hs].
Qed.

(** A well-formed string reaches the host as it is. *)
Lemma String_New_valid (s : string) : utf8_valid s = true -> String_New s = s.
Proof.
  unfold utf8_valid, utf8_first_invalid, String_New. intros H.
  destruct (utf8_scan 0 0 (map Z_of_byte (list_byte_of_string s))) eqn:E; [discriminate|].
  rewrite (utf8_decode_valid _ _ 0%nat (Nat.le_refl _) E).
  apply string_of_list_byte_of_string.
Qed.

End HostStrings.

(** ** Objects the addon builds *)

Section HostObjects.
Import Equal Host.

Lemma value_equal_trans (v1 v2 : Value) :
  value_equal v1 v2 -> forall v3, value_equal v2 v3 -> value_equal v1 v3.
Proof.
  induction 1 as [| b | i | a b Hab | s | l1 l2 Hl | o1 o2 o2' Hp Hl]
    using value_equal_induction; intros v3 H23; inversion H23; subst;
    try (constructor; fail).
  - constructor. unfold same_number in *. intuition congruence.
  - constructor.
    match goal with H : Forall2 value_equal l2 ?l |- _ => revert H; generalize l end.
    clear - Hl.
    induction Hl as [|x y l1 l2 [_ IHxy] _ IH]; intros l3 H; inversion H; subst;
      constructor; auto.
  - match goal with
    | Hq : Permutation ?o3 ?o3', Hf : Forall2 _ o2 ?o3' |- _ =>
        destruct (Permutation_Forall2 Hp Hf) as (o3'' & Hp3 & Hf3);
        apply veq_object with (o2' := o3'');
        [transitivity o3'; assumption|]
    end.
    clear - Hl Hf3. revert o3'' Hf3.
    induction Hl as [|p q o1 o2' (Ek & _ & IHpq) _ IH]; intros o3'' Hf3;
      inversion Hf3 as [|? r ? ? [Ek' Hv] Hrest]; subst; constructor.
    + split; [congruence | apply IHpq; assumption].
    + apply IH. assumption.
Qed.

Lemma has_property_In (o : list (string * JsValue)) (k : string) :
  has_property o k = true <-> In k (map fst o).
Proof.
  unfold has_property. rewrite existsb_exists. split.
  - intros (p & Hp & E). apply String.eqb_eq in E. subst. apply in_map. assumption.
  - intros H. apply in_map_iff in H as (p & <- & Hp).
    exists p. split; [assumption | apply String.eqb_refl].
Qed.

Lemma overwrite_keys (o : list (string * JsValue)) (k : string) (x : JsValue) :
  map fst (overwrite o k x) = map fst o.
Proof.
  induction o as [|[k0 v0] o IH]; cbn; [reflexivity|].
  destruct (String.eqb k0 k); cbn; [reflexivity | now rewrite IH].
Qed.

Lemma overwrite_Forall (P : JsValue -> Prop) (o : list (string * JsValue))
    (k : string) (x : JsValue) :
  Forall (fun p => P (snd p)) o -> P x -> Forall (fun p => P (snd p)) (overwrite o k x).
Proof.
  intros Ho Hx. induction Ho as [|[k0 v0] o H0 Ho IH]; cbn; [constructor|].
  destruct (String.eqb k0 k); constructor; assumption.
Qed.

Lemma insert_perm (o : list (string * JsValue)) (k : string) (x : JsValue) :
  Permutation (insert o k x) ((k, x) :: o).
Proof.
  induction o as [|[k0 v0] o IH]; cbn; [reflexivity|].
  destruct (listed_before k k0); [reflexivity|].
  rewrite IH. apply perm_swap.
Qed.

Lemma define_keys (o : list (string * JsValue)) (k : string) (x : JsValue) (k' : string) :
  In k' (map fst (define o k x)) <-> k' = k \/ In k' (map fst o).
Proof.
  unfold define. destruct (has_property o k) eqn:E.
  - rewrite overwrite_keys. apply has_property_In in E.
    split; [now right | intros [->|H]; assumption].
  - pose proof (Permutation_map fst (insert_perm o k x)) as Hp. cbn [map fst] in Hp.
    split; intros H.
    + apply (Permutation_in _ Hp) in H. destruct H as [<-|H]; [now left | now right].
    + apply (Permutation_in _ (Permutation_sym Hp)). destruct H as [->|H]; [now left | now right].
Qed.

Lemma define_NoDup (o : list (string * JsValue)) (k : string) (x : JsValue) :
  NoDup (map fst o) -> NoDup (map fst (define o k x)).
Proof.
  intros Hn. unfold define. destruct (has_property o k) eqn:E.
  - rewrite overwrite_keys. assumption.
  - apply (Permutation_NoDup (l := k :: map fst o)).
    + symmetry. apply (Permutation_map fst (insert_perm o k x)).
    + constructor; [|assumption]. intros Hin. apply has_property_In in Hin. congruence.
Qed.

Lemma define_Forall (P : JsValue -> Prop) (o : list (string * JsValue))
    (k : string) (x : JsValue) :
  Forall (fun p => P (snd p)) o -> P x -> Forall (fun p => P (snd p)) (define o k x).
Proof.
  intros Ho Hx. unfold define. destruct (has_property o k).
  - apply overwrite_Forall; assumption.
  - apply (Permutation_Forall (Permutation_sym (insert_perm o k x))).
    constructor; assumption.
Qed.

Lemma define_fresh (o : list (string * JsValue)) (k : string) (x : JsValue) :
  ~ In k (map fst o) -> Permutation (define o k x) ((k, x) :: o).
Proof.
  intros Hk. unfold define. destruct (has_property o k) eqn:E.
  - apply has_property_In in E. contradiction.
  - apply insert_perm.
Qed.

Lemma obj_get_define (o : list (string * JsValue)) (k : string) (x : JsValue) (k' : string) :
  obj_get (define o k x) k' = if String.eqb k k' then Some x else obj_get o k'.
Proof.
  unfold define. destruct (has_property o k) eqn:E.
  - induction o as [|[k0 v0] o IH]; [discriminate|].
    cbn [overwrite obj_get]. cbn [has_property existsb fst] in E.
    destruct (String.eqb_spec k0 k) as [->|N].
    + cbn [obj_get]. destruct (String.eqb k k'); reflexivity.
    + cbn [obj_get]. rewrite (IH E).
      destruct (String.eqb_spec k0 k') as [->|N']; [|reflexivity].
      destruct (String.eqb_spec k k'); [congruence | reflexivity].
  - assert (Hk : ~ In k (map fst o)).
    { intros Hin. apply has_property_In in Hin. congruence. }
    clear E. induction o as [|[k0 v0] o IH]; cbn [insert obj_get].
    + reflexivity.
    + destruct (listed_before k k0); [reflexivity|].
      cbn [obj_get]. rewrite IH by (cbn in Hk; intuition).
      destruct (String.eqb_spec k0 k') as [->|N']; [|reflexivity].
      destruct (String.eqb_spec k k') as [->|]; [|reflexivity].
      exfalso. apply Hk. now left.
Qed.

(** Names the host keeps as they are. *)
Lemma obj_set_ordinary (o : HostObject) (k : string) (x : JsValue) (a : bool) :
  utf8_valid k = true -> ordinary_key k = true ->
  obj_set o k x a = {| own := define (own o) k x; prototype := prototype o |}.
Proof.
  intros Hv Ho. unfold ordinary_key in Ho. apply andb_true_iff in Ho as [Hc Hp].
  apply String.eqb_eq in Hc. apply negb_true_iff in Hp.
  unfold obj_set. rewrite Hc, (String_New_valid k Hv), Hp. reflexivity.
Qed.

Lemma fold_obj_set_ordinary (g : string * Value -> JsValue) (a : string * Value -> bool)
    (obj : list (string * Value)) :
  Forall (fun p => utf8_valid (fst p) = true /\ ordinary_key (fst p) = true) obj ->
  forall st,
    fold_left (fun o p => obj_set o (fst p) (g p) (a p)) obj st
    = {| own := fold_left (fun l p => define l (fst p) (g p)) obj (own st);
         prototype := prototype st |}.
Proof.
  induction 1 as [|p obj [Hv Ho] _ IH]; intros st; cbn [fold_left].
  - destruct st; reflexivity.
  - rewrite obj_set_ordinary by assumption. rewrite IH. reflexivity.
Qed.

Lemma fold_define_perm (g : string * Value -> JsValue) (obj : list (string * Value)) :
  NoDup (map fst obj) ->
  forall acc,
    (forall k, In k (map fst acc) -> ~ In k (map fst obj)) ->
    Permutation (fold_left (fun l p => define l (fst p) (g p)) obj acc)
                (acc ++ map (fun p => (fst p, g p)) obj).
Proof.
  induction obj as [|[k v] obj IH]; intros Hn acc Hd; cbn [fold_left map fst snd].
  - now rewrite app_nil_r.
  - inversion Hn as [|? ? Hk Hn']; subst.
    assert (Hfresh : ~ In k (map fst acc)).
    { intros Hin. apply (Hd k Hin). now left. }
    rewrite IH; [|assumption|].
    + rewrite (define_fresh acc k (g (k, v)) Hfresh).
      cbn [app]. apply Permutation_middle.
    + intros k' Hin. apply define_keys in Hin. destruct Hin as [->|Hin]; [assumption|].
      intros Hin'. apply (Hd k' Hin). now right.
Qed.

Lemma ordinary_names (obj : list (string * Value)) :
  forallb (fun p => utf8_valid (fst p) && strings_valid (snd p)) obj = true ->
  forallb (fun p => ordinary_key (fst p) && ordinary_keys (snd p)) obj = true ->
  Forall (fun p => utf8_valid (fst p) = true /\ ordinary_key (fst p) = true) obj.
Proof.
  rewrite !forallb_forall. intros Hv Ho. apply Forall_forall. intros p Hp.
  specialize (Hv p Hp). specialize (Ho p Hp).
  apply andb_true_iff in Hv as [Hv _]. apply andb_true_iff in Ho as [Ho _].
  split; assumption.
Qed.

Lemma ValueToNapi_object (obj : list (string * Value)) :
  Forall (fun p => utf8_valid (fst p) = true /\ ordinary_key (fst p) = true) obj ->
  Binding.ValueToNapi (object_val obj)
  = JsObject (fold_left (fun l p => define l (fst p) (Binding.ValueToNapi (snd p))) obj []).
Proof.
  intros H. cbn [Binding.ValueToNapi].
  rewrite (fold_obj_set_ordinary (fun p => Binding.ValueToNapi (snd p))
             (fun p => Binding.on_Object_prototype (snd p)) obj H).
  unfold GetPropertyNames. cbn [own prototype Object_New inherited filter].
  rewrite app_nil_r. reflexivity.
Qed.

Lemma Number_New_read (d : Double.double) :
  value_equal (classify d) (Binding.NapiToValue (Number_New d)).
Proof.
  unfold Number_New. rewrite NapiToValue_number.
  apply same_number_classify. apply same_number_canonical.
Qed.

(** What the addon reads out of the host value it built for [v]: [v] with
    every number read again from its double, up to the order of the
    pairs. *)
Lemma NapiToValue_ValueToNapi (v : Value) :
  keys_unique v = true -> strings_valid v = true -> ordinary_keys v = true ->
  value_equal (host_view v) (Binding.NapiToValue (Binding.ValueToNapi v)).
Proof.
  induction v as [| b | i | d | s | arr IH | obj IH] using Value_induction;
    intros Hk Hs Ho; try (constructor; fail).
  - apply Number_New_read.
  - apply Number_New_read.
  - cbn [strings_valid] in Hs. cbn [Binding.ValueToNapi Binding.NapiToValue host_view].
    rewrite (String_New_valid s Hs). constructor.
  - cbn [keys_unique strings_valid ordinary_keys] in Hk, Hs, Ho.
    rewrite forallb_forall in Hk, Hs, Ho.
    cbn [Binding.ValueToNapi Binding.NapiToValue host_view]. constructor.
    rewrite map_map. induction IH as [|x arr Hx _ IHarr]; cbn [map]; constructor.
    + apply Hx; [apply Hk | apply Hs | apply Ho]; now left.
    + apply IHarr; intros y Hy; [apply Hk | apply Hs | apply Ho]; now right.
  - cbn [keys_unique strings_valid ordinary_keys] in Hk, Hs, Ho.
    apply andb_true_iff in Hk as [Hd Hk].
    pose proof (ordinary_names obj Hs Ho) as Hnames.
    rewrite forallb_forall in Hk, Hs, Ho.
    rewrite (ValueToNapi_object obj Hnames).
    cbn [Binding.NapiToValue host_view].
    apply veq_object
      with (o2' := map (fun p => (fst p, Binding.NapiToValue (Binding.ValueToNapi (snd p)))) obj).
    + rewrite (fold_define_perm (fun p => Binding.ValueToNapi (snd p)) obj
                 (proj1 (distinct_NoDup _) Hd) []) by (intros k []).
      cbn [app]. rewrite map_map. reflexivity.
    + clear Hd Hnames.
      induction IH as [|p obj Hp _ IHobj]; cbn [map]; constructor.
      * split; [reflexivity|]. cbn [fst snd].
        apply Hp; [apply Hk; now left | |].
        -- specialize (Hs p (or_introl eq_refl)). apply andb_true_iff in Hs. apply Hs.
        -- specialize (Ho p (or_introl eq_refl)). apply andb_true_iff in Ho. apply Ho.
      * apply IHobj; intros q Hq; [apply Hk | apply Hs | apply Ho]; now right.
Qed.

Lemma ordinary_keys_value_equal (v1 v2 : Value) :
  value_equal v1 v2 -> ordinary_keys v1 = ordinary_keys v2.
Proof.
  induction 1 as [| b | i | a b Hab | s | l1 l2 Hl | o1 o2 o2' Hp Hl]
    using value_equal_induction; try reflexivity; cbn [ordinary_keys].
  - apply forallb_Forall2.
    eapply Forall2_impl; [|exact Hl]. cbn. intros x y [_ E]. exact E.
  - rewrite (forallb_perm _ _ _ Hp). apply forallb_Forall2.
    eapply Forall2_impl; [|exact Hl]. cbn. intros p q (Ek & _ & E).
    rewrite Ek, E. reflexivity.
Qed.

End HostObjects.

(** ** The addon behind [encode] and [decodeSync] *)

Section AddonFacts.
Import Native Fallback Equal.

Variable req : Require.
Variable js : JsImplementation.
Variables url path : string.
Variable koda_parse : string -> Z -> Outcome Value.
Variable koda_stringify : Value -> Outcome string.

Let addon := Binding.koda_js koda_parse koda_stringify.

Lemma encode_addon (h : JsValue) (o : option EncodeOptions) :
  fst (Index.encode req js url path h o (Some (Some addon)))
  = match encode (Binding.NapiToValue h) (Binding.encode_depth o) with
    | Ok buf => Return buf
    | Raise what => Throw (mkError Error what None)
    end.
Proof. rewrite encode_on_native. reflexivity. Qed.

(** [encode] on the host image of a value with distinct, well-formed,
    ordinary keys. *)
Lemma encode_addon_value (v : Value) (o : option EncodeOptions) :
  keys_unique v = true -> strings_valid v = true -> ordinary_keys v = true ->
  fst (Index.encode req js url path (Binding.ValueToNapi v) o (Some (Some addon)))
  = match encode (host_view v) (Binding.encode_depth o) with
    | Ok buf => Return buf
    | Raise what => Throw (mkError Error what None)
    end.
Proof.
  intros Hk Hs Ho. rewrite encode_addon.
  rewrite <- (encode_value_equal (host_view v) (Binding.NapiToValue (Binding.ValueToNapi v)));
    [reflexivity | apply NapiToValue_ValueToNapi; assumption].
Qed.

End AddonFacts.

(** ** Round trip, numeric variants and the integer range *)

Section RoundTrip.
Import Native Fallback Equal.

Variable req : Require.
Variable js : JsImplementation.
Variables url path : string.
Variable koda_parse : string -> Z -> Outcome Value.
Variable koda_stringify : Value -> Outcome string.

Let addon := Binding.koda_js koda_parse koda_stringify.
Let state : Cached := Some (Some addon).

Lemma roundtrip_host_stable (v : Value) (eo : option EncodeOptions) (dopt : option DecodeOptions) :
  host_stable v = true ->
  encodable (Binding.encode_depth eo) v = true ->
  within_bounds (Binding.native_depth dopt) (Binding.native_dict dopt)
                (Binding.native_str dopt) v = true ->
  ordinary_keys v = true ->
  fst (Index.encode req js url path (Binding.ValueToNapi v) eo state) = Return (document v)
  /\ decode_document (document v) (Binding.native_depth dopt) (Binding.native_dict dopt)
       (Binding.native_str dopt) = inl (canonical v)
  /\ fst (Index.decodeSync req js url path (document v) dopt state)
     = Return (Binding.ValueToNapi (canonical v))
  /\ value_equal v (Binding.NapiToValue (Binding.ValueToNapi (canonical v))).
Proof.
  intros Hs He Hb Ho.
  pose proof He as He'. unfold encodable in He'. rewrite !andb_true_iff in He'.
  destruct He' as ((((_ & Hsv) & Hk) & Hz) & H32).
  assert (Hdec : decode_document (document v) (Binding.native_depth dopt)
                   (Binding.native_dict dopt) (Binding.native_str dopt) = inl (canonical v)).
  { apply decode_document_encode; try assumption.
    apply host_stable_well_typed. assumption. }
  split; [|split; [|split]].
  - unfold state, addon. rewrite encode_addon_value by assumption.
    rewrite host_view_stable by assumption.
    rewrite encode_encodable by assumption. reflexivity.
  - exact Hdec.
  - unfold state, addon. rewrite decodeSync_addon, Hdec. reflexivity.
  - pose proof (value_equal_canonical v) as Hc.
    destruct (encoder_respects_value_equal v (canonical v) Hc) as (_ & Es & Ek & _).
    apply value_equal_trans with (v2 := host_view (canonical v)).
    + rewrite <- (host_view_stable v Hs) at 1. apply host_view_value_equal. assumption.
    + apply NapiToValue_ValueToNapi.
      * rewrite <- Ek. assumption.
      * rewrite <- Es. assumption.
      * rewrite <- (ordinary_keys_value_equal v (canonical v) Hc). assumption.
Qed.

End RoundTrip.

(** C1 (as amended).  With the addon selected, for every value that passes
    the encoder's checks (depth within [maxDepth], well-formed UTF-8,
    distinct keys, lengths below [2^32]), that stays within the decoder's
    bounds ([maxDepth], [maxDictionarySize], [maxStringLength]), whose
    numbers keep their variant in the host (every [Int] within [+-2^53],
    no [Float] an integral value of that range) and whose keys are
    ordinary property names (no NUL byte, not ["__proto__"]), [encode]
    returns a document, the decoder reads from it a value structurally
    equal to the one encoded, [decodeSync] returns the host image of that
    value, and the binding reads that image again as a value structurally
    equal to the one encoded. *)
Theorem decodeSync_encode_roundtrip :
  forall (req : Native.Require) (js : Fallback.JsImplementation) (url path : string)
         (koda_parse : string -> Z -> Outcome Value)
         (koda_stringify : Value -> Outcome string)
         (v : Value) (eo : option EncodeOptions) (dopt : option DecodeOptions),
    let state := Some (Some (Binding.koda_js koda_parse koda_stringify)) in
    Equal.host_stable v = true ->
    Equal.encodable (Binding.encode_depth eo) v = true ->
    Equal.within_bounds (Binding.native_depth dopt) (Binding.native_dict dopt)
                        (Binding.native_str dopt) v = true ->
    Equal.ordinary_keys v = true ->
    exists (buf : Wire.bytes) (v' : Value) (host : JsValue),
      fst (Index.encode req js url path (Binding.ValueToNapi v) eo state) = Return buf
      /\ decode_document buf (Binding.native_depth dopt) (Binding.native_dict dopt)
           (Binding.native_str dopt) = inl v'
      /\ Equal.value_equal v v'
      /\ fst (Index.decodeSync req js url path buf dopt state) = Return host
      /\ host = Binding.ValueToNapi v'
      /\ Equal.value_equal v (Binding.NapiToValue host).
Proof.
  intros req js url path kp ks v eo dopt state Hs He Hb Ho.
  destruct (roundtrip_host_stable req js url path kp ks v eo dopt Hs He Hb Ho)
    as (E & R & D & V).
  exists (Equal.document v), (Equal.canonical v), (Binding.ValueToNapi (Equal.canonical v)).
  split; [exact E|]. split; [exact R|]. split; [apply value_equal_canonical|].
  split; [exact D|]. split; [reflexivity | exact V].
Qed.

Lemma decodeSync_encode_roundtrip_witness :
  Equal.host_stable Fixtures.sample = true
  /\ Equal.encodable (Binding.encode_depth None) Fixtures.sample = true
  /\ Equal.within_bounds (Binding.native_depth None) (Binding.native_dict None)
       (Binding.native_str None) Fixtures.sample = true
  /\ Equal.ordinary_keys Fixtures.sample = true
  /\ exists (buf : Wire.bytes) (v' : Value) (host : JsValue),
       fst (Index.encode Fixtures.req_built Fixtures.marking_js Fixtures.index_url
              Fixtures.addon_path (Binding.ValueToNapi Fixtures.sample) None
              (Some (Some Fixtures.addon))) = Return buf
       /\ decode_document buf (Binding.native_depth None) (Binding.native_dict None)
            (Binding.native_str None) = inl v'
       /\ Equal.value_equal Fixtures.sample v'
       /\ fst (Index.decodeSync Fixtures.req_built Fixtures.marking_js Fixtures.index_url
                 Fixtures.addon_path buf None (Some (Some Fixtures.addon)))
          = Return host
       /\ host = Binding.ValueToNapi v'
       /\ Equal.value_equal Fixtures.sample (Binding.NapiToValue host).
Proof.
  split; [vm_compute; reflexivity|].
  split; [vm_compute; reflexivity|].
  split; [vm_compute; reflexivity|].
  split; [vm_compute; reflexivity|].
  apply (decodeSync_encode_roundtrip Fixtures.req_built Fixtures.marking_js
           Fixtures.index_url Fixtures.addon_path Fixtures.no_parse Fixtures.no_stringify
           Fixtures.sample None None); vm_compute; reflexivity.
Defined.

(** C1 (counterexample to the claim as stated).  [Float 1.0] is encoded as
    the document of [Int 1]: the value the decoder reads back, and the
    variant of the number [decodeSync] returns, is [Int 1], which is not
    structurally equal to [Float 1.0].  [null] under 256 arrays has no
    encoding under the default depth bound, so nothing is read back.  And
    of [{"__proto__": 1, a: 2}] the host keeps the property [a] alone, so
    the value read back has one pair. *)
Lemma float_one_decodes_as_int :
  Fixtures.roundtrip_default (float_val Double.one)
  = Some (inl (int_val 1), Return (JsNumber Double.one))
  /\ Binding.NapiToValue (JsNumber Double.one) = int_val 1
  /\ ~ Equal.value_equal (float_val Double.one) (int_val 1)
  /\ Fixtures.encode_default (Fixtures.nested 256)
     = Throw (mkError Error "maximum depth exceeded" None)
  /\ Fixtures.roundtrip_default Fixtures.proto_keyed
     = Some (inl (object_val [("a"%string, int_val 2)]),
             Return (JsObject [("a"%string, JsNumber (Double.of_int64 2))]))
  /\ ~ Equal.value_equal Fixtures.proto_keyed (object_val [("a"%string, int_val 2)]).
Proof.
  split; [vm_compute; reflexivity|].
  split; [vm_compute; reflexivity|].
  split; [intros H; inversion H|].
  split; [vm_compute; reflexivity|].
  split; [vm_compute; reflexivity|].
  intros H. inversion H as [| | | | | |o1 o2 o2' Hp Hf]; subst.
  apply Forall2_length in Hf. apply Permutation_length in Hp.
  cbn in Hf, Hp. congruence.
Qed.

(** C4 (as amended).  With the addon selected and the default options, an
    [Int] of magnitude at most [2^53] is held by the host as a number that
    [encode] reads as that same [Int]; its document carries tag [0x04] and
    the eight bytes of the integer, the decoder reads the same [Int] back,
    and the number [decodeSync] returns is again read as that [Int]. *)
Theorem int_preserved_within_safe_range :
  forall (req : Native.Require) (js : Fallback.JsImplementation) (url path : string)
         (koda_parse : string -> Z -> Outcome Value)
         (koda_stringify : Value -> Outcome string) (i : Z),
    let state := Some (Some (Binding.koda_js koda_parse koda_stringify)) in
    - 2 ^ 53 <= i <= 2 ^ 53 ->
    exists buf host,
      Binding.NapiToValue (Binding.ValueToNapi (int_val i)) = int_val i
      /\ fst (Index.encode req js url path (Binding.ValueToNapi (int_val i)) None state)
         = Return buf
      /\ buf = [x4b; x4f; x44; x41; x01; x00; x00; x00; x00; x04] ++ Wire.i64 i
      /\ decode_document buf 256 65536 1000000 = inl (int_val i)
      /\ fst (Index.decodeSync req js url path buf None state) = Return host
      /\ Binding.NapiToValue host = int_val i.
Proof.
  intros req js url path kp ks i state Hi.
  assert (Hs : Equal.host_stable (int_val i) = true).
  { cbn [Equal.host_stable]. apply andb_true_iff; split; apply Z.leb_le; lia. }
  destruct (roundtrip_host_stable req js url path kp ks (int_val i) None None Hs)
    as (E & D & S & _); [reflexivity | reflexivity | reflexivity |].
  exists (Equal.document (int_val i)), (Binding.ValueToNapi (Equal.canonical (int_val i))).
  split; [rewrite ValueToNapi_int by assumption; apply NapiToValue_of_int64; assumption|].
  split; [exact E|]. split; [reflexivity|]. split; [exact D|]. split; [exact S|].
  cbn [Equal.canonical]. rewrite ValueToNapi_int by assumption.
  apply NapiToValue_of_int64. assumption.
Qed.

Lemma int_preserved_within_safe_range_witness :
  - 2 ^ 53 <= - 9007199254740991 <= 2 ^ 53
  /\ exists buf host,
       Binding.NapiToValue (Binding.ValueToNapi (int_val (- 9007199254740991)))
         = int_val (- 9007199254740991)
       /\ fst (Index.encode Fixtures.req_built Fixtures.marking_js Fixtures.index_url
                 Fixtures.addon_path (Binding.ValueToNapi (int_val (- 9007199254740991)))
                 None (Some (Some Fixtures.addon))) = Return buf
       /\ buf = [x4b; x4f; x44; x41; x01; x00; x00; x00; x00; x04]
                  ++ Wire.i64 (- 9007199254740991)
       /\ decode_document buf 256 65536 1000000 = inl (int_val (- 9007199254740991))
       /\ fst (Index.decodeSync Fixtures.req_built Fixtures.marking_js Fixtures.index_url
                 Fixtures.addon_path buf None (Some (Some Fixtures.addon))) = Return host
       /\ Binding.NapiToValue host = int_val (- 9007199254740991).
Proof.
  split; [lia|].
  apply (int_preserved_within_safe_range Fixtures.req_built Fixtures.marking_js
           Fixtures.index_url Fixtures.addon_path Fixtures.no_parse Fixtures.no_stringify
           (- 9007199254740991)).
  lia.
Defined.

(** C4 (counterexample to the claim as stated).  [2^53 + 1] and [2^62] are
    64-bit integers.  The host holds the first as the double [2^53], so
    the document and the value read back carry [Int 2^53]; it holds the
    second as a double beyond the safe range, so the document carries a
    [Float] and a [Float] is read back. *)
Lemma int_beyond_safe_range_not_preserved :
  - 2 ^ 63 <= 2 ^ 53 + 1 < 2 ^ 63
  /\ Fixtures.roundtrip_default (int_val (2 ^ 53 + 1))
     = Some (inl (int_val (2 ^ 53)), Return (JsNumber Double.two53))
  /\ int_val (2 ^ 53) <> int_val (2 ^ 53 + 1)
  /\ - 2 ^ 63 <= 2 ^ 62 < 2 ^ 63
  /\ Fixtures.roundtrip_default (int_val (2 ^ 62))
     = Some (inl (float_val 0x43D0000000000000), Return (JsNumber 0x43D0000000000000)).
Proof.
  split; [lia|].
  split; [vm_compute; reflexivity|].
  split; [intros [= H]; lia|].
  split; [lia|].
  vm_compute; reflexivity.
Qed.

(** C3 (as amended).  With the addon selected and the default options,
    [encode] decides the tag of a number by the value of the double the
    host holds: an [Int] of magnitude at most [2^53] is emitted with tag
    [0x04]; a [Float] is emitted with tag [0x04], as the integer it
    equals, when it passes the test of [NapiToValue], and with tag [0x05]
    and its (NaN-canonical) bits otherwise; and the test is passed exactly
    by the integers of magnitude at most [2^53] and by the negative
    zero. *)
Theorem encode_tag_follows_number_value :
  forall (req : Native.Require) (js : Fallback.JsImplementation) (url path : string)
         (koda_parse : string -> Z -> Outcome Value)
         (koda_stringify : Value -> Outcome string),
    let state := Some (Some (Binding.koda_js koda_parse koda_stringify)) in
    let header := [x4b; x4f; x44; x41; x01; x00; x00; x00; x00] in
    (forall i, - 2 ^ 53 <= i <= 2 ^ 53 ->
       fst (Index.encode req js url path (Binding.ValueToNapi (int_val i)) None state)
       = Return (header ++ x04 :: Wire.i64 i))
    /\ (forall d,
          fst (Index.encode req js url path (Binding.ValueToNapi (float_val d)) None state)
          = Return (header ++
                    if Equal.integral_in_safe_range d
                    then x04 :: Wire.i64 (Double.to_int64 d)
                    else x05 :: Wire.be_encode 8 (canonical_bits d)))
    /\ (forall d, Double.wf d ->
          Equal.integral_in_safe_range d = true
          <-> exists i, - 2 ^ 53 <= i <= 2 ^ 53
                        /\ (d = Double.of_int64 i \/ (d = Double.neg_zero /\ i = 0))).
Proof.
  intros req js url path kp ks state header. split; [|split].
  - intros i Hi. unfold state. rewrite encode_addon_value by reflexivity.
    cbn [Equal.host_view]. rewrite classify_of_int64 by assumption. reflexivity.
  - intros d. unfold state. rewrite encode_addon_value by reflexivity.
    cbn [Equal.host_view]. unfold Equal.classify.
    destruct (Equal.integral_in_safe_range d); reflexivity.
  - intros d Hd. apply integral_in_safe_range_spec. assumption.
Qed.

Lemma encode_tag_follows_number_value_witness :
  (- 2 ^ 53 <= 7 <= 2 ^ 53)
  /\ fst (Index.encode Fixtures.req_built Fixtures.marking_js Fixtures.index_url
            Fixtures.addon_path (Binding.ValueToNapi (int_val 7)) None
            (Some (Some Fixtures.addon)))
     = Return ([x4b; x4f; x44; x41; x01; x00; x00; x00; x00] ++ x04 :: Wire.i64 7)
  /\ Double.wf Double.one
  /\ (Equal.integral_in_safe_range Double.one = true
      <-> exists i, - 2 ^ 53 <= i <= 2 ^ 53
                    /\ (Double.one = Double.of_int64 i
                        \/ (Double.one = Double.neg_zero /\ i = 0))).
Proof.
  pose proof (encode_tag_follows_number_value Fixtures.req_built Fixtures.marking_js
                Fixtures.index_url Fixtures.addon_path Fixtures.no_parse
                Fixtures.no_stringify) as (Hint & _ & Hspec).
  assert (H7 : - 2 ^ 53 <= 7 <= 2 ^ 53) by lia.
  assert (Hw : Double.wf Double.one) by (unfold Double.wf, Double.one; lia).
  split; [exact H7|]. split; [exact (Hint 7 H7)|]. split; [exact Hw|].
  exact (Hspec Double.one Hw).
Defined.

(** C3 (counterexample to the claim as stated).  [{x: Float 1.0}] and
    [{x: Int 1}] are encoded to the same bytes, whose number carries tag
    [0x04]. *)
Lemma float_one_and_int_one_encode_alike :
  Fixtures.encode_default Fixtures.x_float_one = Fixtures.encode_default Fixtures.x_int_one
  /\ Fixtures.encode_default Fixtures.x_float_one
     = Return [x4b; x4f; x44; x41; x01;
               x00; x00; x00; x01; x00; x00; x00; x01; x78;
               x11; x00; x00; x00; x01; x00; x00; x00; x00;
               x04; x00; x00; x00; x00; x00; x00; x00; x01].
Proof. split; vm_compute; reflexivity. Qed.


(** ** Canonical determinism *)

(** C2.  Two calls of [encode] on the same value return the same outcome,
    whatever backend the first call selected and whatever the module
    loader would answer at the second call.  And on either backend two
    host values that denote structurally equal values (the order of the
    pairs may differ, NaNs are equal) are encoded to the same bytes:
    through the addon, where the value denoted is the one [NapiToValue]
    reads, and through the JavaScript encoder, where it is the one that
    encoder reads. *)
Theorem encode_canonical_determinism :
  forall (req req' : Native.Require) (js : Fallback.JsImplementation) (url path : string),
    (forall h o cached,
        fst (Index.encode req' js url path h o
               (snd (Index.encode req js url path h o cached)))
        = fst (Index.encode req js url path h o cached))
    /\ (forall koda_parse koda_stringify h1 h2 o,
          Equal.value_equal (Binding.NapiToValue h1) (Binding.NapiToValue h2) ->
          fst (Index.encode req js url path h1 o
                 (Some (Some (Binding.koda_js koda_parse koda_stringify))))
          = fst (Index.encode req js url path h2 o
                   (Some (Some (Binding.koda_js koda_parse koda_stringify)))))
    /\ (forall read,
          (forall h o, Fallback.encodeBinary js h o = Fallback.spec_encode read h o) ->
          forall h1 h2 o,
            Equal.value_equal (read h1) (read h2) ->
            fst (Index.encode req js url path h1 o (Some None))
            = fst (Index.encode req js url path h2 o (Some None))).
Proof.
  intros req req' js url path. split; [|split].
  - intros h o cached. unfold Index.encode, Index.getNative.
    destruct (loadNative_fills req url path cached) as [c ->].
    destruct c as [n|]; reflexivity.
  - intros kp ks h1 h2 o Heq. rewrite !encode_addon.
    rewrite (encode_value_equal _ _ (Binding.encode_depth o) Heq). reflexivity.
  - intros read Hjs h1 h2 o Heq.
    unfold Index.encode. rewrite getNative_hit. cbn [fst].
    rewrite !Hjs. unfold Fallback.spec_encode.
    rewrite (encode_value_equal _ _ _ Heq). reflexivity.
Qed.

Lemma encode_canonical_determinism_witness :
  Equal.value_equal (Binding.NapiToValue (Binding.ValueToNapi Fixtures.sample))
                    (Binding.NapiToValue (Binding.ValueToNapi Fixtures.sample_reordered))
  /\ fst (Index.encode Fixtures.req_built Fixtures.marking_js Fixtures.index_url
            Fixtures.addon_path (Binding.ValueToNapi Fixtures.sample) None
            (Some (Some Fixtures.addon)))
     = fst (Index.encode Fixtures.req_built Fixtures.marking_js Fixtures.index_url
              Fixtures.addon_path (Binding.ValueToNapi Fixtures.sample_reordered) None
              (Some (Some Fixtures.addon)))
  /\ fst (Index.encode Fixtures.req_missing Fixtures.js_by_spec Fixtures.index_url
            Fixtures.addon_path (Binding.ValueToNapi Fixtures.sample) None (Some None))
     = fst (Index.encode Fixtures.req_missing Fixtures.js_by_spec Fixtures.index_url
              Fixtures.addon_path (Binding.ValueToNapi Fixtures.sample_reordered) None
              (Some None)).
Proof.
  assert (Heq : Equal.value_equal
                  (Binding.NapiToValue (Binding.ValueToNapi Fixtures.sample))
                  (Binding.NapiToValue (Binding.ValueToNapi Fixtures.sample_reordered))).
  { vm_compute.
    eapply Equal.veq_object; [apply perm_swap|].
    repeat (constructor; [split; [reflexivity | apply value_equal_refl]|]).
    constructor. }
  split; [exact Heq|]. split.
  - exact (proj1 (proj2 (encode_canonical_determinism Fixtures.req_built Fixtures.req_built
                           Fixtures.marking_js Fixtures.index_url Fixtures.addon_path))
             Fixtures.no_parse Fixtures.no_stringify
             (Binding.ValueToNapi Fixtures.sample)
             (Binding.ValueToNapi Fixtures.sample_reordered) None Heq).
  - exact (proj2 (proj2 (encode_canonical_determinism Fixtures.req_missing
                           Fixtures.req_missing Fixtures.js_by_spec Fixtures.index_url
                           Fixtures.addon_path))
             Binding.NapiToValue (fun h o => eq_refl)
             (Binding.ValueToNapi Fixtures.sample)
             (Binding.ValueToNapi Fixtures.sample_reordered) None Heq).
Defined.

(** ** Scenarios of the format specification, on the modelled codec *)

Example scenario_empty_object :
  encode (object_val []) 256
  = Ok [x4b; x4f; x44; x41; x01; x00; x00; x00; x00; x11; x00; x00; x00; x00]
  /\ decode [x4b; x4f; x44; x41; x01; x00; x00; x00; x00; x11; x00; x00; x00; x00]
       256 65536 1000000
     = Ok (object_val []).
Proof. split; vm_compute; reflexivity. Qed.

Example scenario_two_keys :
  encode (object_val [("b"%string, int_val 2); ("a"%string, int_val 1)]) 256
  = Ok [x4b; x4f; x44; x41; x01;
        x00; x00; x00; x02;
        x00; x00; x00; x01; x61;
        x00; x00; x00; x01; x62;
        x11; x00; x00; x00; x02;
        x00; x00; x00; x00; x04; x00; x00; x00; x00; x00; x00; x00; x01;
        x00; x00; x00; x01; x04; x00; x00; x00; x00; x00; x00; x00; x02].
Proof. vm_compute; reflexivity. Qed.

Example scenario_unsorted_dictionary :
  decode_document
    [x4b; x4f; x44; x41; x01; x00; x00; x00; x02;
     x00; x00; x00; x01; x62; x00; x00; x00; x01; x61]
    256 65536 1000000
  = inr (mkFailure DictionaryNotSorted 14).
Proof. vm_compute; reflexivity. Qed.

Example scenario_reserved_tag :
  decode_document [x4b; x4f; x44; x41; x01; x00; x00; x00; x00; x07] 256 65536 1000000
  = inr (mkFailure UnknownTag 9).
Proof. vm_compute; reflexivity. Qed.

Example double_conversions :
  Double.of_int64 1 = Double.one
  /\ Double.of_int64 (2 ^ 53) = Double.two53
  /\ Double.of_int64 (- 2 ^ 53) = Double.neg_two53
  /\ Double.of_int64 (2 ^ 53 + 1) = Double.two53
  /\ Double.of_int64 (2 ^ 53 + 3) = 0x4340000000000002
  /\ Double.to_int64 Double.one_and_half = 1
  /\ Double.eqb Double.neg_zero Double.pos_zero = true
  /\ Double.leb Double.quiet_nan Double.two53 = false.
Proof. repeat split. Qed.

(** The negative zero passes the integrality test of [NapiToValue]: it is
    encoded as [Int 0] and comes back as the positive zero. *)
Example negative_zero_read_as_int_zero :
  Binding.NapiToValue (JsNumber Double.neg_zero) = int_val 0
  /\ Fixtures.roundtrip_default (float_val Double.neg_zero)
     = Some (inl (int_val 0), Return (JsNumber Double.pos_zero)).
Proof. split; vm_compute; reflexivity. Qed.

(* ================================================================== *)
(** * Further properties of the binding, the entry points and the worker *)

(** ** Induction over host values *)

Lemma JsValue_induction (P : JsValue -> Prop) :
  P JsUndefined ->
  P JsNull ->
  (forall b, P (JsBoolean b)) ->
  (forall d, P (JsNumber d)) ->
  (forall s, P (JsString s)) ->
  (forall elems, Forall P elems -> P (JsArray elems)) ->
  (forall props, Forall (fun p => P (snd p)) props -> P (JsObject props)) ->
  (forall s, P (JsSymbol s)) ->
  (forall n, P (JsBigInt n)) ->
  forall h, P h.
Proof.
  intros Hu Hn Hb Hd Hs Ha Ho Hy Hg.
  fix IH 1. intros [| | b | d | s | elems | props | s | n].
  - exact Hu.
  - exact Hn.
  - apply Hb.
  - apply Hd.
  - apply Hs.
  - apply Ha. induction elems as [|x elems IHe]; constructor; [apply IH | exact IHe].
  - apply Ho. induction props as [|[k x] props IHp]; constructor; [apply IH | exact IHp].
  - apply Hy.
  - apply Hg.
Qed.

(** ** What the binding reads from a host value *)

Section HostFacts.
Import Double Equal Host.

Lemma NapiToValue_normalise (h : JsValue) :
  Binding.NapiToValue (normalise h) = Binding.NapiToValue h.
Proof.
  induction h as [| | b | d | s | elems IH | props IH | s | n] using JsValue_induction;
    try reflexivity.
  - cbn [normalise]. destruct (Z.eqb_spec d neg_zero) as [->|]; reflexivity.
  - cbn [normalise Binding.NapiToValue]. f_equal.
    rewrite map_map. apply map_ext_in. intros x Hx.
    rewrite Forall_forall in IH. apply IH. assumption.
  - cbn [normalise Binding.NapiToValue]. f_equal.
    rewrite map_map. apply map_ext_in. intros p Hp. cbn [fst snd]. f_equal.
    rewrite Forall_forall in IH. apply IH. assumption.
Qed.

Lemma NapiToValue_stable (h : JsValue) :
  numbers_wf h = true -> host_stable (Binding.NapiToValue h) = true.
Proof.
  induction h as [| | b | d | s | elems IH | props IH | s | n] using JsValue_induction;
    intros Hw; try reflexivity.
  - cbn [numbers_wf] in Hw. rewrite NapiToValue_number.
    destruct (integral_in_safe_range d) eqn:Ht.
    + apply andb_true_iff in Hw as [Hlo Hhi].
      apply Z.leb_le in Hlo. apply Z.ltb_lt in Hhi.
      unfold integral_in_safe_range in Ht. apply andb_true_iff in Ht as [Hr _].
      pose proof (to_int64_safe d (conj Hlo Hhi) Hr) as Hi.
      cbn [host_stable]. apply andb_true_iff; split; apply Z.leb_le; lia.
    + cbn [host_stable]. rewrite Hw, Ht. reflexivity.
  - cbn [numbers_wf] in Hw. rewrite forallb_forall in Hw.
    cbn [Binding.NapiToValue host_stable]. rewrite forallb_forall.
    intros v Hv. apply in_map_iff in Hv as (x & <- & Hx).
    rewrite Forall_forall in IH. apply IH; [assumption | apply Hw; assumption].
  - cbn [numbers_wf] in Hw. rewrite forallb_forall in Hw.
    cbn [Binding.NapiToValue host_stable]. rewrite forallb_forall.
    intros q Hq. apply in_map_iff in Hq as (p & <- & Hp). cbn [snd].
    rewrite Forall_forall in IH. apply IH; [assumption | apply Hw; assumption].
Qed.

(** X1.  What the addon read from a host value it reads again from the
    host value it builds from that reading: when the reading has
    distinct, well-formed, ordinary keys and well-formed strings,
    [NapiToValue] after [ValueToNapi] gives a value structurally equal to
    it, every number in its variant. *)
Theorem NapiToValue_reading_stable :
  forall h : JsValue,
    numbers_wf h = true ->
    keys_unique (Binding.NapiToValue h) = true ->
    strings_valid (Binding.NapiToValue h) = true ->
    ordinary_keys (Binding.NapiToValue h) = true ->
    value_equal (Binding.NapiToValue h)
                (Binding.NapiToValue (Binding.ValueToNapi (Binding.NapiToValue h))).
Proof.
  intros h Hw Hk Hs Ho.
  rewrite <- (host_view_stable (Binding.NapiToValue h) (NapiToValue_stable h Hw)) at 1.
  apply NapiToValue_ValueToNapi; assumption.
Qed.

Lemma NapiToValue_reading_stable_witness :
  Binding.NapiToValue Samples.untidy
  = object_val [("a"%string, array_val [null_val; int_val 0; int_val 1]);
                ("b"%string, null_val);
                ("c"%string, float_val Double.one_and_half)]
  /\ value_equal (Binding.NapiToValue Samples.untidy)
       (Binding.NapiToValue (Binding.ValueToNapi (Binding.NapiToValue Samples.untidy))).
Proof.
  split; [vm_compute; reflexivity|].
  apply (NapiToValue_reading_stable Samples.untidy); vm_compute; reflexivity.
Defined.

(** X2.  [NapiToValue] reads a host value as it reads the same value with
    [null] for every [undefined], symbol and bigint in it and the
    positive zero for every negative zero; with the addon selected,
    [encode] and [stringify] therefore answer alike for the two. *)
Theorem NapiToValue_reads_normal_form :
  forall h : JsValue,
    Binding.NapiToValue (normalise h) = Binding.NapiToValue h
    /\ (forall req js url path koda_parse koda_stringify eo so,
          truthy (chain so indent) = false ->
          fst (Index.encode req js url path h eo
                 (Some (Some (Binding.koda_js koda_parse koda_stringify))))
          = fst (Index.encode req js url path (normalise h) eo
                   (Some (Some (Binding.koda_js koda_parse koda_stringify))))
          /\ fst (Index.stringify req js url path h so
                    (Some (Some (Binding.koda_js koda_parse koda_stringify))))
             = fst (Index.stringify req js url path (normalise h) so
                      (Some (Some (Binding.koda_js koda_parse koda_stringify))))).
Proof.
  intros h. split; [apply NapiToValue_normalise|].
  intros req js url path kp ks eo so Hi. split.
  - rewrite !encode_on_native. cbn [fst Native.nb_encode Binding.koda_js].
    unfold Binding.NativeEncode. rewrite NapiToValue_normalise. reflexivity.
  - rewrite !stringify_on_native, Hi. cbn [Native.nb_stringify Binding.koda_js].
    unfold Binding.NativeStringify. rewrite NapiToValue_normalise. reflexivity.
Qed.

Lemma NapiToValue_reads_normal_form_witness :
  normalise Samples.untidy = Samples.tidy
  /\ Binding.NapiToValue Samples.tidy = Binding.NapiToValue Samples.untidy
  /\ fst (Index.stringify Fixtures.req_built Fixtures.marking_js Fixtures.index_url
            Fixtures.addon_path Samples.untidy None (Some (Some Fixtures.addon)))
     = fst (Index.stringify Fixtures.req_built Fixtures.marking_js Fixtures.index_url
              Fixtures.addon_path (normalise Samples.untidy) None (Some (Some Fixtures.addon))).
Proof.
  destruct (NapiToValue_reads_normal_form Samples.untidy) as [Hread Hidx].
  split; [reflexivity|]. split; [exact Hread|].
  exact (proj2 (Hidx Fixtures.req_built Fixtures.marking_js Fixtures.index_url
                  Fixtures.addon_path Fixtures.no_parse Fixtures.no_stringify
                  None None eq_refl)).
Defined.

(** X3.  Whatever host value it reads, [NapiToValue] yields a value whose
    every [Int] lies within [+-2^53] and whose every [Float] is not an
    integral value of that range: the encoder and the serializer are
    never handed an [Int] of larger magnitude, and every payload has the
    range of its C++ type. *)
Theorem NapiToValue_host_stable :
  forall h : JsValue,
    numbers_wf h = true ->
    host_stable (Binding.NapiToValue h) = true
    /\ well_typed (Binding.NapiToValue h) = true.
Proof.
  intros h Hw. split; [apply NapiToValue_stable; assumption|].
  apply host_stable_well_typed, NapiToValue_stable. assumption.
Qed.

Lemma NapiToValue_host_stable_witness :
  numbers_wf (JsArray [JsNumber 0x43D0000000000000; JsNumber Double.two53]) = true
  /\ Binding.NapiToValue (JsArray [JsNumber 0x43D0000000000000; JsNumber Double.two53])
     = array_val [float_val 0x43D0000000000000; int_val (2 ^ 53)]
  /\ host_stable
       (Binding.NapiToValue (JsArray [JsNumber 0x43D0000000000000; JsNumber Double.two53]))
     = true.
Proof.
  split; [vm_compute; reflexivity|]. split; [vm_compute; reflexivity|].
  exact (proj1 (NapiToValue_host_stable
                  (JsArray [JsNumber 0x43D0000000000000; JsNumber Double.two53])
                  ltac:(vm_compute; reflexivity))).
Defined.

End HostFacts.

(** ** What the binding hands to the host *)

Section ImageFacts.
Import Host.

(** The shape of what [ValueToNapi] builds. *)
Let shaped (h : JsValue) : Prop := only_values h = true /\ keys_distinct h = true.

Lemma shaped_object (props : list (string * JsValue)) :
  shaped (JsObject props)
  <-> NoDup (map fst props) /\ Forall (fun p => shaped (snd p)) props.
Proof.
  unfold shaped. cbn [only_values keys_distinct]. split.
  - intros [Ho Hk]. apply andb_true_iff in Hk as [Hd Hk].
    rewrite forallb_forall in Ho, Hk.
    split; [apply distinct_NoDup; assumption|].
    apply Forall_forall. intros p Hp. split; [apply Ho | apply Hk]; assumption.
  - intros [Hn Hf]. rewrite Forall_forall in Hf.
    split; [apply forallb_forall; intros p Hp; apply (Hf p Hp)|].
    apply andb_true_iff. split; [apply distinct_NoDup; assumption|].
    apply forallb_forall. intros p Hp. apply (Hf p Hp).
Qed.

Lemma shaped_array (elems : list JsValue) :
  shaped (JsArray elems) <-> Forall shaped elems.
Proof.
  unfold shaped. cbn [only_values keys_distinct]. split.
  - intros [Ho Hk]. rewrite forallb_forall in Ho, Hk.
    apply Forall_forall. intros x Hx. split; [apply Ho | apply Hk]; assumption.
  - intros Hf. rewrite Forall_forall in Hf.
    split; apply forallb_forall; intros x Hx; apply (Hf x Hx).
Qed.

Lemma to_uint_not_Nil (n : nat) : Nat.to_uint n <> Decimal.Nil.
Proof.
  intros H. pose proof (DecimalNat.Unsigned.of_to n) as E. rewrite H in E.
  cbn in E. subst n. discriminate H.
Qed.

Lemma index_name_inj (i j : nat) : index_name i = index_name j -> i = j.
Proof.
  unfold index_name. intros E.
  apply DecimalNat.Unsigned.to_uint_inj.
  apply (f_equal NilZero.uint_of_string) in E.
  rewrite !NilZero.usu in E by apply to_uint_not_Nil.
  congruence.
Qed.

Lemma map_fst_combine {A B : Type} (l : list A) :
  forall l' : list B, List.length l = List.length l' -> map fst (combine l l') = l.
Proof.
  induction l as [|a l IH]; intros [|b l'] H; cbn in *; try discriminate; [reflexivity|].
  f_equal. apply IH. congruence.
Qed.

Lemma indexed_keys (elems : list JsValue) :
  map fst (indexed elems) = map index_name (seq 0 (List.length elems)).
Proof.
  unfold indexed. apply map_fst_combine. rewrite length_map, length_seq. reflexivity.
Qed.

Lemma indexed_NoDup (elems : list JsValue) : NoDup (map fst (indexed elems)).
Proof.
  rewrite indexed_keys. generalize (seq_NoDup (List.length elems) 0).
  generalize (seq 0 (List.length elems)). intros l Hl.
  induction Hl as [|i l Hi _ IH]; cbn [map]; constructor; [|assumption].
  intros Hin. apply in_map_iff in Hin as (j & E & Hj).
  apply index_name_inj in E. subst. contradiction.
Qed.

Lemma indexed_Forall (P : JsValue -> Prop) (elems : list JsValue) :
  Forall P elems -> Forall (fun p => P (snd p)) (indexed elems).
Proof.
  intros H. apply Forall_forall. intros [k x] Hp. cbn [snd].
  rewrite Forall_forall in H. apply H.
  unfold indexed in Hp. apply in_combine_r in Hp. assumption.
Qed.

(** What holds of an object while its pairs are set. *)
Let built (o : HostObject) : Prop :=
  NoDup (map fst (own o))
  /\ Forall (fun p => shaped (snd p)) (own o)
  /\ NoDup (map fst (inherited (prototype o)))
  /\ Forall (fun p => shaped (snd p)) (inherited (prototype o)).

Lemma set_prototype_built (o : HostObject) (x : JsValue) (a : bool) :
  built o -> shaped x -> built (set_prototype o x a).
Proof.
  intros (Hn & Hf & Hin & Hif) Hx. unfold set_prototype.
  destruct x; try (repeat split; assumption);
    unfold built; cbn [own prototype inherited].
  - repeat split; try assumption; constructor.
  - apply shaped_array in Hx.
    repeat split; try assumption; [apply indexed_NoDup | apply indexed_Forall; assumption].
  - apply shaped_object in Hx as [Hxn Hxf]. repeat split; assumption.
Qed.

Lemma obj_set_built (o : HostObject) (k : string) (x : JsValue) (a : bool) :
  built o -> shaped x -> built (obj_set o k x a).
Proof.
  intros Ho Hx. unfold obj_set.
  destruct (String.eqb _ "__proto__" && finds_proto_setter o).
  - apply set_prototype_built; assumption.
  - destruct Ho as (Hn & Hf & Hin & Hif). unfold built. cbn [own prototype].
    repeat split; try assumption; [apply define_NoDup | apply define_Forall]; assumption.
Qed.

Lemma fold_obj_set_built (g : string * Value -> JsValue) (a : string * Value -> bool)
    (obj : list (string * Value)) :
  Forall (fun p => shaped (g p)) obj ->
  forall o, built o -> built (fold_left (fun o p => obj_set o (fst p) (g p) (a p)) obj o).
Proof.
  induction 1 as [|p obj Hp _ IH]; intros o Ho; cbn [fold_left]; [assumption|].
  apply IH. apply obj_set_built; assumption.
Qed.

Lemma NoDup_map_filter {A : Type} (f : string * A -> bool) (l : list (string * A)) :
  NoDup (map fst l) -> NoDup (map fst (filter f l)).
Proof.
  induction l as [|p l IH]; cbn [filter map]; intros H; [constructor|].
  inversion H as [|? ? Hp Hl]; subst.
  destruct (f p); cbn [map]; [|apply IH; assumption].
  constructor; [|apply IH; assumption].
  intros Hin. apply Hp. apply in_map_iff in Hin as (q & E & Hq).
  apply filter_In in Hq as [Hq _]. rewrite <- E. apply in_map. assumption.
Qed.

Lemma GetPropertyNames_shaped (o : HostObject) :
  built o -> shaped (JsObject (GetPropertyNames o)).
Proof.
  intros (Hn & Hf & Hin & Hif). apply shaped_object. unfold GetPropertyNames. split.
  - rewrite map_app. apply NoDup_app; [assumption | apply NoDup_map_filter; assumption|].
    intros k Hk Hk'. apply in_map_iff in Hk' as (p & E & Hp).
    apply filter_In in Hp as [_ Hp]. apply negb_true_iff in Hp.
    apply has_property_In in Hk. congruence.
  - apply Forall_app. split; [assumption|].
    apply Forall_forall. intros p Hp. apply filter_In in Hp as [Hp _].
    rewrite Forall_forall in Hif. apply Hif. assumption.
Qed.

Lemma ValueToNapi_image (v : Value) :
  only_values (Binding.ValueToNapi v) = true
  /\ keys_distinct (Binding.ValueToNapi v) = true.
Proof.
  change (shaped (Binding.ValueToNapi v)).
  induction v as [| b | i | d | s | arr IH | obj IH] using Value_induction;
    try (split; reflexivity).
  - cbn [Binding.ValueToNapi]. apply shaped_array.
    induction IH; cbn [map]; constructor; assumption.
  - cbn [Binding.ValueToNapi]. apply GetPropertyNames_shaped.
    apply (fold_obj_set_built (fun p => Binding.ValueToNapi (snd p))
             (fun p => Binding.on_Object_prototype (snd p)) obj IH).
    unfold built. cbn. repeat split; constructor.
Qed.

Lemma fold_define_keys (f : Value -> JsValue) (obj : list (string * Value)) (k : string) :
  forall acc,
    In k (map fst (fold_left (fun l p => define l (fst p) (f (snd p))) obj acc))
    <-> In k (map fst acc) \/ In k (map fst obj).
Proof.
  induction obj as [|p obj IH]; intros acc; cbn [fold_left map].
  - cbn. intuition.
  - rewrite IH, define_keys. cbn. intuition.
Qed.

Lemma fold_define_NoDup (f : Value -> JsValue) (obj : list (string * Value)) :
  forall acc,
    NoDup (map fst acc) ->
    NoDup (map fst (fold_left (fun l p => define l (fst p) (f (snd p))) obj acc)).
Proof.
  induction obj as [|p obj IH]; intros acc Hn; cbn [fold_left]; [assumption|].
  apply IH. apply define_NoDup. assumption.
Qed.

Lemma fold_define_get (f : Value -> JsValue) (obj : list (string * Value)) (k : string) :
  forall acc,
    obj_get (fold_left (fun l p => define l (fst p) (f (snd p))) obj acc) k
    = match last_value k obj with
      | Some w => Some (f w)
      | None => obj_get acc k
      end.
Proof.
  induction obj as [|[k0 v0] obj IH]; intros acc; cbn [fold_left last_value fst snd].
  - reflexivity.
  - rewrite IH. destruct (last_value k obj); [reflexivity|].
    rewrite obj_get_define. destruct (String.eqb k0 k); reflexivity.
Qed.

(** X4.  Whatever value it is given, [ValueToNapi] builds a host value
    with no [undefined], symbol or bigint in it and with pairwise distinct
    keys in every object; so every value that [parse] or [decodeSync]
    returns through the addon is of this shape. *)
Theorem ValueToNapi_shape :
  (forall v : Value,
      only_values (Binding.ValueToNapi v) = true
      /\ keys_distinct (Binding.ValueToNapi v) = true)
  /\ (forall (req : Native.Require) (js : Fallback.JsImplementation) (url path : string)
             (koda_parse : string -> Z -> Outcome Value)
             (koda_stringify : Value -> Outcome string) (h : JsValue),
        (forall buf o,
            fst (Index.decodeSync req js url path buf o
                   (Some (Some (Binding.koda_js koda_parse koda_stringify)))) = Return h ->
            only_values h = true /\ keys_distinct h = true)
        /\ (forall text o,
              fst (Index.parse req js url path text o
                     (Some (Some (Binding.koda_js koda_parse koda_stringify)))) = Return h ->
              only_values h = true /\ keys_distinct h = true)).
Proof.
  split; [exact ValueToNapi_image|].
  intros req js url path kp ks h. split.
  - intros buf o. rewrite decodeSync_addon.
    destruct (decode_document _ _ _ _) as [v|f]; [|discriminate].
    intros [= <-]. apply ValueToNapi_image.
  - intros text o. rewrite parse_on_native.
    cbn [Native.nb_parse Binding.koda_js]. unfold Binding.NativeParse.
    destruct (kp text _) as [v|w]; [|discriminate].
    intros [= <-]. apply ValueToNapi_image.
Qed.

Lemma ValueToNapi_shape_witness :
  fst (Index.parse Fixtures.req_built Fixtures.marking_js Fixtures.index_url
         Fixtures.addon_path "x: 1.0" None
         (Some (Some (Binding.koda_js Samples.parse_x Samples.show_x))))
  = Return (Binding.ValueToNapi Fixtures.x_float_one)
  /\ only_values (Binding.ValueToNapi Fixtures.x_float_one) = true
  /\ keys_distinct (Binding.ValueToNapi Fixtures.x_float_one) = true.
Proof.
  split; [reflexivity|].
  apply (proj2 (proj2 ValueToNapi_shape Fixtures.req_built Fixtures.marking_js
                  Fixtures.index_url Fixtures.addon_path Samples.parse_x Samples.show_x
                  (Binding.ValueToNapi Fixtures.x_float_one))
           "x: 1.0"%string None).
  reflexivity.
Defined.

(** X5.  Of an object whose keys are well-formed, ordinary property names,
    one of them given more than once, [ValueToNapi] keeps one property
    per key, and the property's value is that of the last pair with the
    key; keys given once keep their value. *)
Theorem ValueToNapi_last_pair_wins :
  forall obj : list (string * Value),
    forallb (fun p => utf8_valid (fst p) && Equal.ordinary_key (fst p)) obj = true ->
    exists props,
      Binding.ValueToNapi (object_val obj) = JsObject props
      /\ NoDup (map fst props)
      /\ (forall k, In k (map fst props) <-> In k (map fst obj))
      /\ (forall k, obj_get props k
                    = option_map Binding.ValueToNapi (last_value k obj)).
Proof.
  intros obj Hnames.
  assert (H : Forall (fun p => utf8_valid (fst p) = true
                               /\ Equal.ordinary_key (fst p) = true) obj).
  { rewrite forallb_forall in Hnames. apply Forall_forall. intros p Hp.
    apply andb_true_iff. apply Hnames. assumption. }
  eexists. split; [apply (ValueToNapi_object obj H)|]. split; [|split].
  - apply (fold_define_NoDup Binding.ValueToNapi obj []). constructor.
  - intros k. rewrite (fold_define_keys Binding.ValueToNapi obj k []). cbn. intuition.
  - intros k. rewrite (fold_define_get Binding.ValueToNapi obj k []).
    destruct (last_value k obj); reflexivity.
Qed.

Lemma ValueToNapi_last_pair_wins_witness :
  exists props,
    Binding.ValueToNapi (object_val Samples.twice) = JsObject props
    /\ NoDup (map fst props)
    /\ (forall k, In k (map fst props) <-> In k (map fst Samples.twice))
    /\ (forall k, obj_get props k
                  = option_map Binding.ValueToNapi (last_value k Samples.twice)).
Proof.
  apply (ValueToNapi_last_pair_wins Samples.twice). vm_compute. reflexivity.
Defined.

Example last_pair_wins_on_sample :
  Binding.ValueToNapi (object_val Samples.twice)
  = JsObject [("k"%string, JsNumber (Double.of_int64 2)); ("j"%string, JsBoolean true)].
Proof. vm_compute. reflexivity. Qed.

(** Pairs the host does not keep as given: an array index is listed
    first, a name is cut at its NUL, ["__proto__"] with a number is
    dropped and with an object makes its properties inherited. *)
Example names_the_host_changes :
  Binding.ValueToNapi
    (object_val [("b"%string, int_val 1); ("2"%string, int_val 2); ("1"%string, int_val 3)])
  = JsObject [("1"%string, JsNumber (Double.of_int64 3));
              ("2"%string, JsNumber (Double.of_int64 2));
              ("b"%string, JsNumber (Double.of_int64 1))]
  /\ Binding.ValueToNapi (object_val [(String "a" (String Ascii.zero "x"), int_val 1)])
     = JsObject [("a"%string, JsNumber (Double.of_int64 1))]
  /\ Binding.ValueToNapi Fixtures.proto_keyed
     = JsObject [("a"%string, JsNumber (Double.of_int64 2))]
  /\ Binding.ValueToNapi
       (object_val [("__proto__"%string, object_val [("p"%string, bool_val true)]);
                    ("a"%string, null_val)])
     = JsObject [("a"%string, JsNull); ("p"%string, JsBoolean true)].
Proof. repeat split; vm_compute; reflexivity. Qed.

End ImageFacts.

(** ** Backend selection and the entry points *)

(** X6.  Starting from an empty cache, [loadNative] selects a binding
    exactly when the module loads and all four of [parse], [stringify],
    [encode] and [decode] are functions, the binding being made of those
    four; when loading throws or one of them is missing it selects [null].
    Either way the cache holds the selection afterwards. *)
Theorem loadNative_selects_complete_addon :
  forall (req : Native.Require) (u a : string),
    (forall b,
        fst (Native.loadNative req u a None) = Some b
        <-> exists p s e d,
              req u a = Some {| Native.exp_parse := Some p; Native.exp_stringify := Some s;
                                Native.exp_encode := Some e; Native.exp_decode := Some d |}
              /\ b = Native.Build_NativeBinding p s e d)
    /\ snd (Native.loadNative req u a None) = Some (fst (Native.loadNative req u a None)).
Proof.
  intros req u a. unfold Native.loadNative.
  destruct (req u a) as [[[p|] [s|] [e|] [d|]]|]; cbn [fst snd];
    (split; [|reflexivity]); intros b; split;
    try (intros H; discriminate H);
    try (intros (p' & s' & e' & d' & H & _); discriminate H).
  - intros [= <-]. now exists p, s, e, d.
  - intros (p' & s' & e' & d' & [= -> -> -> ->] & ->). reflexivity.
Qed.

Lemma loadNative_selects_complete_addon_witness :
  fst (Native.loadNative Samples.req_partial Fixtures.index_url Fixtures.addon_path None) = None
  /\ fst (Native.loadNative Fixtures.req_marking Fixtures.index_url Fixtures.addon_path None)
     = Some Fixtures.marking_native.
Proof.
  split; [reflexivity|].
  apply (proj1 (loadNative_selects_complete_addon Fixtures.req_marking
                  Fixtures.index_url Fixtures.addon_path)).
  do 4 eexists. split; reflexivity.
Defined.

(** X7.  [isNativeAvailable] answers for the calls that follow it: after
    [true] a binding is cached, and [encode], and [stringify] without a
    truthy [indent], return what that binding's functions return; after
    [false] the cache holds [null] and [parse], [stringify], [encode] and
    [decodeSync] return what the JavaScript implementations return.  This
    holds whatever the module loader would answer by then, and asking again
    gives the same answer. *)
Theorem isNativeAvailable_foretells :
  forall (req req' : Native.Require) (js : Fallback.JsImplementation) (url path : string)
         (cached : Native.Cached)
         (state : Native.Cached) (answer : bool),
    Index.isNativeAvailable req url path cached = (answer, state) ->
    (answer = true ->
       exists n,
         state = Some (Some n)
         /\ (forall v o, fst (Index.encode req' js url path v o state)
                         = Native.nb_encode n v {| maxDepth := chain o encode_maxDepth |})
         /\ (forall v o, truthy (chain o indent) = false ->
                         fst (Index.stringify req' js url path v o state)
                         = Native.nb_stringify n v))
    /\ (answer = false ->
          state = Some None
          /\ (forall text o, fst (Index.parse req' js url path text o state)
                             = Fallback.parseFast js text o)
          /\ (forall v o, fst (Index.stringify req' js url path v o state)
                          = Fallback.stringifyText js v o)
          /\ (forall v o, fst (Index.encode req' js url path v o state)
                          = Fallback.encodeBinary js v o)
          /\ (forall buf o, fst (Index.decodeSync req' js url path buf o state)
                            = Fallback.decodeBinary js buf o))
    /\ Index.isNativeAvailable req' url path state = (answer, state).
Proof.
  intros req req' js url path cached state answer.
  unfold Index.isNativeAvailable, Index.getNative.
  destruct (loadNative_fills req url path cached) as [[n|] ->]; cbn [fst snd];
    intros [= <- <-].
  - split; [|split; [discriminate|reflexivity]].
    intros _. exists n. split; [reflexivity|]. split.
    + intros v o. rewrite encode_on_native. reflexivity.
    + intros v o Hi. rewrite stringify_on_native, Hi. reflexivity.
  - split; [discriminate|]. split; [|reflexivity]. intros _. repeat split.
Qed.

Lemma isNativeAvailable_foretells_witness :
  fst (Index.isNativeAvailable Fixtures.req_missing Fixtures.index_url
         Fixtures.addon_path None) = false
  /\ fst (Index.encode Fixtures.req_marking Fixtures.marking_js Fixtures.index_url
            Fixtures.addon_path JsNull None
            (snd (Index.isNativeAvailable Fixtures.req_missing Fixtures.index_url
                    Fixtures.addon_path None)))
     = Return [].
Proof.
  split; [reflexivity|].
  apply (proj1 (proj2 (isNativeAvailable_foretells Fixtures.req_missing
                         Fixtures.req_marking Fixtures.marking_js Fixtures.index_url
                         Fixtures.addon_path None _ _ eq_refl))
           eq_refl).
Defined.

(** X8.  With a binding selected, [parse] returns what the binding returns
    and throws exactly when the binding throws: a [KodaParseError] of the
    binding is thrown as it is, any other error as a new [KodaParseError]
    with the same message and no location.  Through the addon of this
    repository a parser failure therefore surfaces as
    [KodaParseError(what)], and a parsed value as its host image. *)
Theorem parse_failure_taxonomy :
  forall (req : Native.Require) (js : Fallback.JsImplementation) (url path : string)
         (text : string) (o : option ParseOptions),
    (forall n,
        match Native.nb_parse n text {| maxDepth := chain o parse_maxDepth |} with
        | Return v => fst (Index.parse req js url path text o (Some (Some n))) = Return v
        | Throw e0 =>
            exists e,
              fst (Index.parse req js url path text o (Some (Some n))) = Throw e
              /\ cls e = KodaParseError
              /\ message e = message e0
              /\ (cls e0 = KodaParseError -> e = e0)
              /\ (cls e0 <> KodaParseError -> byteOffset e = None)
        end)
    /\ (forall koda_parse koda_stringify,
          fst (Index.parse req js url path text o
                 (Some (Some (Binding.koda_js koda_parse koda_stringify))))
          = match koda_parse text (Binding.size_option (chain o parse_maxDepth) 256) with
            | Ok v => Return (Binding.ValueToNapi v)
            | Raise what => Throw (mkError KodaParseError what None)
            end).
Proof.
  intros req js url path text o. split.
  - intros n. rewrite parse_on_native.
    destruct (Native.nb_parse n text _) as [v|[c m b]]; [reflexivity|].
    destruct c; cbn; eexists; (split; [reflexivity|]); cbn;
      repeat split; congruence.
  - intros kp ks. rewrite parse_on_native.
    cbn [Native.nb_parse Binding.koda_js]. unfold Binding.NativeParse. cbn [maxDepth].
    destruct (kp text _); reflexivity.
Qed.

Lemma parse_failure_taxonomy_witness :
  fst (Index.parse Fixtures.req_built Fixtures.marking_js Fixtures.index_url
         Fixtures.addon_path "" None
         (Some (Some (Binding.koda_js Samples.parse_x Samples.show_x))))
  = Throw (mkError KodaParseError "unexpected end of input" None).
Proof.
  exact (proj2 (parse_failure_taxonomy Fixtures.req_built Fixtures.marking_js
                  Fixtures.index_url Fixtures.addon_path "" None)
           Samples.parse_x Samples.show_x).
Defined.

(** X9.  [encode] and [stringify] do not wrap what the binding throws:
    through the addon of this repository every error of [encode], and of
    [stringify] when no truthy [indent] is asked for, is a plain [Error]
    carrying the C++ exception's message, never a [KodaEncodeError], and
    without a location. *)
Theorem encode_stringify_errors_are_plain :
  forall (req : Native.Require) (js : Fallback.JsImplementation) (url path : string)
         (koda_parse : string -> Z -> Outcome Value)
         (koda_stringify : Value -> Outcome string) (h : JsValue)
         (state : Native.Cached),
    state = Some (Some (Binding.koda_js koda_parse koda_stringify)) ->
    (forall o e,
        fst (Index.encode req js url path h o state) = Throw e ->
        cls e = Error /\ byteOffset e = None
        /\ encode (Binding.NapiToValue h) (Binding.encode_depth o) = Raise (message e))
    /\ (forall o e,
          truthy (chain o indent) = false ->
          fst (Index.stringify req js url path h o state) = Throw e ->
          cls e = Error /\ byteOffset e = None
          /\ koda_stringify (Binding.NapiToValue h) = Raise (message e)).
Proof.
  intros req js url path kp ks h state ->. split.
  - intros o e. rewrite encode_addon.
    destruct (encode _ _); [discriminate|]. intros [= <-]. repeat split.
  - intros o e Hi. rewrite stringify_on_native, Hi.
    cbn [Native.nb_stringify Binding.koda_js]. unfold Binding.NativeStringify.
    destruct (ks _); [discriminate|]. intros [= <-]. repeat split.
Qed.

Lemma encode_stringify_errors_are_plain_witness :
  fst (Index.encode Fixtures.req_built Fixtures.marking_js Fixtures.index_url
         Fixtures.addon_path (Binding.ValueToNapi (Fixtures.nested 256)) None
         (Some (Some Fixtures.addon)))
  = Throw (mkError Error "maximum depth exceeded" None)
  /\ cls (mkError Error "maximum depth exceeded" None) = Error.
Proof.
  split; [vm_compute; reflexivity|].
  apply (proj1 (encode_stringify_errors_are_plain Fixtures.req_built Fixtures.marking_js
                  Fixtures.index_url Fixtures.addon_path Fixtures.no_parse
                  Fixtures.no_stringify (Binding.ValueToNapi (Fixtures.nested 256))
                  _ eq_refl)
           None (mkError Error "maximum depth exceeded" None)).
  vm_compute. reflexivity.
Defined.

(** X10.  With a binding selected, [stringify] hands the binding the value
    alone: when [indent] is absent, [0] or the empty string, the outcome
    is that of [stringify] without options, whatever [newline] asks for. *)
Theorem stringify_native_drops_options :
  forall (req : Native.Require) (js : Fallback.JsImplementation) (url path : string)
         (n : Native.NativeBinding) (v : JsValue) (i : option Indent) (nl : option string),
    truthy i = false ->
    fst (Index.stringify req js url path v
           (Some {| indent := i; newline := nl |}) (Some (Some n)))
    = fst (Index.stringify req js url path v None (Some (Some n))).
Proof.
  intros req js url path n v i nl Hi.
  rewrite !stringify_on_native. cbn [chain indent]. rewrite Hi. reflexivity.
Qed.

Lemma stringify_native_drops_options_witness :
  truthy (Some (IndentNumber 0)) = false
  /\ fst (Index.stringify Fixtures.req_marking Fixtures.marking_js Fixtures.index_url
            Fixtures.addon_path JsNull
            (Some {| indent := Some (IndentNumber 0); newline := Some "\r\n"%string |})
            (Some (Some Fixtures.marking_native)))
     = fst (Index.stringify Fixtures.req_marking Fixtures.marking_js Fixtures.index_url
              Fixtures.addon_path JsNull None (Some (Some Fixtures.marking_native))).
Proof.
  split; [reflexivity|].
  apply (stringify_native_drops_options Fixtures.req_marking Fixtures.marking_js
           Fixtures.index_url Fixtures.addon_path Fixtures.marking_native JsNull
           (Some (IndentNumber 0)) (Some "\r\n"%string)).
  reflexivity.
Defined.

(** X11.  Through the addon, [stringify] of what [parse] returned hands the
    serializer the parsed value as the host holds it: for a parsed value
    with distinct, well-formed, ordinary keys, a value structurally equal
    to it once each number is re-read from its double, so that a parsed
    [Float] with an integral value within [+-2^53] reaches the serializer
    as an [Int]; the pairs come in the host's order. *)
Theorem stringify_after_parse :
  forall (req : Native.Require) (js : Fallback.JsImplementation) (url path : string)
         (koda_parse : string -> Z -> Outcome Value)
         (koda_stringify : Value -> Outcome string)
         (text : string) (o : option ParseOptions) (v : Value)
         (state : Native.Cached),
    state = Some (Some (Binding.koda_js koda_parse koda_stringify)) ->
    koda_parse text (Binding.size_option (chain o parse_maxDepth) 256) = Ok v ->
    keys_unique v = true -> strings_valid v = true -> Equal.ordinary_keys v = true ->
    exists (h : JsValue) (seen : Value),
      Index.parse req js url path text o state = (Return h, state)
      /\ fst (Index.stringify req js url path h None state)
         = match koda_stringify seen with
           | Ok s => Return s
           | Raise what => Throw (mkError Error what None)
           end
      /\ seen = Binding.NapiToValue h
      /\ Equal.value_equal (Equal.host_view v) seen.
Proof.
  intros req js url path kp ks text o v state -> Hp Hk Hs Ho.
  exists (Binding.ValueToNapi v), (Binding.NapiToValue (Binding.ValueToNapi v)).
  split; [|split; [|split]].
  - unfold Index.parse. rewrite getNative_hit.
    cbn [Native.nb_parse Binding.koda_js]. unfold Binding.NativeParse. cbn [maxDepth].
    rewrite Hp. reflexivity.
  - rewrite stringify_on_native. cbn [chain truthy].
    cbn [Native.nb_stringify Binding.koda_js]. unfold Binding.NativeStringify.
    reflexivity.
  - reflexivity.
  - apply NapiToValue_ValueToNapi; assumption.
Qed.

Lemma stringify_after_parse_witness :
  Samples.parse_x "x: 1.0" 256 = Ok Fixtures.x_float_one
  /\ Samples.show_x Fixtures.x_float_one = Ok "x: 1.0"%string
  /\ exists (h : JsValue) (seen : Value),
       Index.parse Fixtures.req_built Fixtures.marking_js Fixtures.index_url
         Fixtures.addon_path "x: 1.0" None
         (Some (Some (Binding.koda_js Samples.parse_x Samples.show_x)))
       = (Return h, Some (Some (Binding.koda_js Samples.parse_x Samples.show_x)))
       /\ fst (Index.stringify Fixtures.req_built Fixtures.marking_js Fixtures.index_url
                 Fixtures.addon_path h None
                 (Some (Some (Binding.koda_js Samples.parse_x Samples.show_x))))
          = match Samples.show_x seen with
            | Ok s => Return s
            | Raise what => Throw (mkError Error what None)
            end
       /\ seen = Binding.NapiToValue h
       /\ Equal.value_equal (Equal.host_view Fixtures.x_float_one) seen.
Proof.
  split; [reflexivity|]. split; [reflexivity|].
  exact (stringify_after_parse Fixtures.req_built Fixtures.marking_js Fixtures.index_url
           Fixtures.addon_path Samples.parse_x Samples.show_x "x: 1.0" None
           Fixtures.x_float_one _ eq_refl eq_refl eq_refl eq_refl eq_refl).
Defined.

(** The parsed [{x: Float 1.0}] is written out as [x: 1]. *)
Example float_one_is_written_as_int :
  fst (Index.stringify Fixtures.req_built Fixtures.marking_js Fixtures.index_url
         Fixtures.addon_path (Binding.ValueToNapi Fixtures.x_float_one) None
         (Some (Some (Binding.koda_js Samples.parse_x Samples.show_x))))
  = Return "x: 1"%string.
Proof. vm_compute. reflexivity. Qed.

(** ** The limits the addon reads *)

Section Limits.

Lemma size_option_wraps (n k default : Z) :
  Binding.size_option (Some (n + k * 2 ^ 32)) default = Binding.size_option (Some n) default.
Proof.
  unfold Binding.size_option, Binding.Uint32Value. apply Z.mod_add. lia.
Qed.

(** X12.  Through the addon a limit is read as an unsigned 32-bit number
    and an absent limit is the binding's default: [encode] and
    [decodeSync] cannot tell limits that differ by a multiple of [2^32]
    apart, and a call without options is a call with [maxDepth = 256],
    [maxDictionarySize = 65536] and [maxStringLength = 1000000]. *)
Theorem native_limits_wrap_and_default :
  forall (req : Native.Require) (js : Fallback.JsImplementation) (url path : string)
         (koda_parse : string -> Z -> Outcome Value)
         (koda_stringify : Value -> Outcome string),
    (forall h d k,
        fst (Index.encode req js url path h
               (Some {| encode_maxDepth := Some (d + k * 2 ^ 32) |})
               (Some (Some (Binding.koda_js koda_parse koda_stringify))))
        = fst (Index.encode req js url path h
                 (Some {| encode_maxDepth := Some d |})
                 (Some (Some (Binding.koda_js koda_parse koda_stringify)))))
    /\ (forall buf d m s k1 k2 k3,
          fst (Index.decodeSync req js url path buf
                 (Some {| decode_maxDepth := Some (d + k1 * 2 ^ 32);
                          maxDictionarySize := Some (m + k2 * 2 ^ 32);
                          maxStringLength := Some (s + k3 * 2 ^ 32) |})
                 (Some (Some (Binding.koda_js koda_parse koda_stringify))))
          = fst (Index.decodeSync req js url path buf
                   (Some {| decode_maxDepth := Some d;
                            maxDictionarySize := Some m;
                            maxStringLength := Some s |})
                   (Some (Some (Binding.koda_js koda_parse koda_stringify)))))
    /\ (forall h,
          fst (Index.encode req js url path h None
                 (Some (Some (Binding.koda_js koda_parse koda_stringify))))
          = fst (Index.encode req js url path h
                   (Some {| encode_maxDepth := Some 256 |})
                   (Some (Some (Binding.koda_js koda_parse koda_stringify)))))
    /\ (forall buf,
          fst (Index.decodeSync req js url path buf None
                 (Some (Some (Binding.koda_js koda_parse koda_stringify))))
          = fst (Index.decodeSync req js url path buf
                   (Some {| decode_maxDepth := Some 256;
                            maxDictionarySize := Some 65536;
                            maxStringLength := Some 1000000 |})
                   (Some (Some (Binding.koda_js koda_parse koda_stringify))))).
Proof.
  intros req js url path kp ks. split; [|split; [|split]].
  - intros h d k. rewrite !encode_addon. unfold Binding.encode_depth.
    cbn [chain encode_maxDepth]. rewrite size_option_wraps. reflexivity.
  - intros buf d m s k1 k2 k3. rewrite !decodeSync_addon.
    unfold Binding.native_depth, Binding.native_dict, Binding.native_str.
    cbn [chain decode_maxDepth maxDictionarySize maxStringLength].
    rewrite !size_option_wraps. reflexivity.
  - intros h. rewrite !encode_addon. reflexivity.
  - intros buf. rewrite !decodeSync_addon. reflexivity.
Qed.

(** A depth limit of [2^32 + 1] is a depth limit of [1]. *)
Example depth_limit_wraps :
  fst (Index.encode Fixtures.req_built Fixtures.marking_js Fixtures.index_url
         Fixtures.addon_path (Binding.ValueToNapi (Fixtures.nested 2))
         (Some {| encode_maxDepth := Some (2 ^ 32 + 1) |}) (Some (Some Fixtures.addon)))
  = Throw (mkError Error "maximum depth exceeded" None).
Proof. vm_compute. reflexivity. Qed.

End Limits.

(** ** The worker's message loop *)

Section WorkerLoopFacts.
Import Worker WorkerLoop.

Variable req : Native.Require.
Variable js : Fallback.JsImplementation.
Variables url path : string.

Lemma worker_getNative_fills (st : State) :
  cachedNative (snd (Worker.getNative req url path st))
  = Some (fst (Worker.getNative req url path st)).
Proof.
  unfold Worker.getNative. destruct (cachedNative st) as [c|] eqn:E; [exact E|].
  destruct (Native.loadNative req url path (native_cached st)). reflexivity.
Qed.

Lemma on_message_cached (req' : Native.Require) (c : option Native.NativeBinding)
    (msg : DecoderWorkerMessageIn) (st : State) :
  cachedNative st = Some c ->
  on_message req' js url path msg st = (answer js c msg, st).
Proof.
  intros E. unfold on_message, doDecode, Worker.getNative, answer. rewrite E.
  destruct c as [b|].
  - destruct (Native.nb_decode b _ _); reflexivity.
  - destruct (Fallback.decodeBinary js _ _); reflexivity.
Qed.

Lemma run_cached (req' : Native.Require) (c : option Native.NativeBinding)
    (msgs : list DecoderWorkerMessageIn) (st : State) :
  cachedNative st = Some c ->
  run req' js url path msgs st = (map (answer js c) msgs, st).
Proof.
  intros E. induction msgs as [|msg rest IH]; [reflexivity|].
  cbn [run map]. rewrite (on_message_cached req' c msg st E), IH. reflexivity.
Qed.

Lemma on_message_first (msg : DecoderWorkerMessageIn) (st : State) :
  on_message req js url path msg st
  = (answer js (fst (Worker.getNative req url path st)) msg,
     snd (Worker.getNative req url path st)).
Proof.
  unfold on_message, doDecode, answer.
  destruct (Worker.getNative req url path st) as [[b|] st']; cbn [fst snd].
  - destruct (Native.nb_decode b _ _); reflexivity.
  - destruct (Fallback.decodeBinary js _ _); reflexivity.
Qed.

Lemma reply_id_answer (c : option Native.NativeBinding) (msg : DecoderWorkerMessageIn) :
  reply_id (answer js c msg) = id msg.
Proof.
  unfold answer.
  destruct c as [b|];
    [destruct (Native.nb_decode b _ _)|destruct (Fallback.decodeBinary js _ _)];
    reflexivity.
Qed.

End WorkerLoopFacts.

(** X13.  A worker answers its jobs in order and with one backend: the
    backend the first job selects decodes every job, each job gets exactly
    one reply, carrying the job's [id], and a failing job does not disturb
    the ones after it.  After the first job the module loader is never
    asked again: later jobs get the same backend whatever it would now
    answer. *)
Theorem worker_jobs_share_backend :
  forall (req req' : Native.Require) (js : Fallback.JsImplementation) (url path : string)
         (msgs later : list Worker.DecoderWorkerMessageIn) (st : Worker.State),
    msgs <> [] ->
    fst (WorkerLoop.run req js url path msgs st)
    = map (WorkerLoop.answer js (fst (Worker.getNative req url path st))) msgs
    /\ map WorkerLoop.reply_id (fst (WorkerLoop.run req js url path msgs st))
       = map Worker.id msgs
    /\ snd (WorkerLoop.run req js url path msgs st) = snd (Worker.getNative req url path st)
    /\ WorkerLoop.run req' js url path later (snd (WorkerLoop.run req js url path msgs st))
       = (map (WorkerLoop.answer js (fst (Worker.getNative req url path st))) later,
          snd (WorkerLoop.run req js url path msgs st)).
Proof.
  intros req req' js url path msgs later st Hne.
  destruct msgs as [|msg rest]; [contradiction|].
  pose proof (worker_getNative_fills req url path st) as Hc.
  assert (Hrun : WorkerLoop.run req js url path (msg :: rest) st
                 = (map (WorkerLoop.answer js (fst (Worker.getNative req url path st)))
                      (msg :: rest),
                    snd (Worker.getNative req url path st))).
  { cbn [WorkerLoop.run map]. rewrite on_message_first.
    rewrite (run_cached js url path req _ rest _ Hc). reflexivity. }
  rewrite Hrun. cbn [fst snd]. split; [reflexivity|]. split; [|split; [reflexivity|]].
  - rewrite map_map. apply map_ext. intros m. apply reply_id_answer.
  - apply run_cached. exact Hc.
Qed.

Lemma worker_jobs_share_backend_witness :
  WorkerLoop.run Fixtures.req_marking Fixtures.marking_js Fixtures.worker_url
    Fixtures.addon_path
    [ {| Worker.id := 3; Worker.buffer := []; Worker.options := None |} ]
    (snd (WorkerLoop.run Fixtures.req_missing Fixtures.marking_js Fixtures.worker_url
            Fixtures.addon_path
            [ {| Worker.id := 1; Worker.buffer := [x00]; Worker.options := None |};
              {| Worker.id := 2; Worker.buffer := []; Worker.options := None |} ]
            Worker.fresh))
  = ([Worker.Success 3 (JsString "js")],
     snd (WorkerLoop.run Fixtures.req_missing Fixtures.marking_js Fixtures.worker_url
            Fixtures.addon_path
            [ {| Worker.id := 1; Worker.buffer := [x00]; Worker.options := None |};
              {| Worker.id := 2; Worker.buffer := []; Worker.options := None |} ]
            Worker.fresh)).
Proof.
  refine (proj2 (proj2 (proj2
            (worker_jobs_share_backend Fixtures.req_missing Fixtures.req_marking
               Fixtures.marking_js Fixtures.worker_url Fixtures.addon_path
               [ {| Worker.id := 1; Worker.buffer := [x00]; Worker.options := None |};
                 {| Worker.id := 2; Worker.buffer := []; Worker.options := None |} ]
               [ {| Worker.id := 3; Worker.buffer := []; Worker.options := None |} ]
               Worker.fresh _)))).
  discriminate.
Defined.

(** ** [loadFile] and [saveFile] *)

Section FileFacts.
Import Files.

Variable FS : Type.
Variable readFile : FS -> string -> Completion string.
Variable writeFile : FS -> string -> string -> Completion unit * FS.
Variable req : Native.Require.
Variable js : Fallback.JsImplementation.
Variables url apath : string.

Lemma stringify_fills (value : JsValue) (o : option StringifyOptions) (cached : Native.Cached) :
  exists sel,
    snd (Index.stringify req js url apath value o cached) = Some sel
    /\ fst (Index.stringify req js url apath value o cached)
       = fst (Index.stringify req js url apath value o (Some sel)).
Proof.
  unfold Index.stringify, Index.getNative.
  destruct (loadNative_fills req url apath cached) as [sel E]. rewrite E.
  exists sel. rewrite loadNative_hit.
  destruct sel as [n|]; [destruct (truthy (chain o indent))|]; split; reflexivity.
Qed.

Lemma parse_keeps (text : string) (o : option ParseOptions) (sel : option Native.NativeBinding) :
  snd (Index.parse req js url apath text o (Some sel)) = Some sel.
Proof.
  unfold Index.parse. rewrite getNative_hit.
  destruct sel as [n|]; [|reflexivity].
  destruct (Native.nb_parse n _ _); reflexivity.
Qed.

End FileFacts.

(** X14.  [saveFile] followed by [loadFile] of the same path: when
    [stringify] returns a text, the write succeeds and the file then reads
    back as written, [saveFile] fulfils, and [loadFile] settles as [parse]
    of that text does, on the backend [saveFile] selected. *)
Theorem saveFile_then_loadFile :
  forall (FS : Type) (readFile : FS -> string -> Completion string)
         (writeFile : FS -> string -> string -> Completion unit * FS)
         (req : Native.Require) (js : Fallback.JsImplementation) (url apath : string)
         (file : string) (value : JsValue) (so : option StringifyOptions)
         (po : option ParseOptions) (fs fs' : FS) (cached : Native.Cached)
         (content : string),
    fst (Index.stringify req js url apath value so cached) = Return content ->
    writeFile fs file content = (Return tt, fs') ->
    readFile fs' file = Return content ->
    exists sel,
      Files.saveFile FS writeFile req js url apath file value so fs cached
      = (Files.Fulfilled tt, fs', Some sel)
      /\ Files.loadFile FS readFile req js url apath file po fs' (Some sel)
         = (match fst (Index.parse req js url apath content po (Some sel)) with
            | Return v => Files.Fulfilled v
            | Throw e => Files.RejectedWith e
            end, Some sel).
Proof.
  intros FS readFile writeFile req js url apath file value so po fs fs' cached content
         Hs Hw Hr.
  destruct (stringify_fills req js url apath value so cached) as (sel & Hc & _).
  exists sel. split.
  - unfold Files.saveFile.
    destruct (Index.stringify req js url apath value so cached) as [result cached'].
    cbn [fst snd] in Hs, Hc. subst result cached'. rewrite Hw. reflexivity.
  - unfold Files.loadFile. rewrite Hr.
    pose proof (parse_keeps req js url apath content po sel) as Hk.
    destruct (Index.parse req js url apath content po (Some sel)) as [result cached'].
    cbn [fst snd] in Hk |- *. subst cached'. reflexivity.
Qed.

Lemma saveFile_then_loadFile_witness :
  exists sel,
    Files.saveFile Samples.one_file Samples.write_one Fixtures.req_built Fixtures.marking_js
      Fixtures.index_url Fixtures.addon_path "a.koda"
      (Binding.ValueToNapi Fixtures.x_float_one) None None
      (Some (Some (Binding.koda_js Samples.parse_x Samples.show_x)))
    = (Files.Fulfilled tt, Some ("a.koda"%string, "x: 1"%string), Some sel)
    /\ Files.loadFile Samples.one_file Samples.read_one Fixtures.req_built
         Fixtures.marking_js Fixtures.index_url Fixtures.addon_path "a.koda" None
         (Some ("a.koda"%string, "x: 1"%string)) (Some sel)
       = (match
            fst (Index.parse Fixtures.req_built Fixtures.marking_js Fixtures.index_url
                   Fixtures.addon_path "x: 1" None (Some sel))
          with
          | Return v => Files.Fulfilled v
          | Throw e => Files.RejectedWith e
          end, Some sel).
Proof.
  exact (saveFile_then_loadFile Samples.one_file Samples.read_one Samples.write_one
           Fixtures.req_built Fixtures.marking_js Fixtures.index_url Fixtures.addon_path
           "a.koda" (Binding.ValueToNapi Fixtures.x_float_one) None None None
           (Some ("a.koda"%string, "x: 1"%string))
           (Some (Some (Binding.koda_js Samples.parse_x Samples.show_x)))
           "x: 1" eq_refl eq_refl eq_refl).
Defined.

(** X15.  [loadFile] and [saveFile] reject with the error of the step that
    failed and stop there: a file that cannot be read is not parsed and no
    backend is selected for it, a value that cannot be serialized leaves
    the file system as it was, and a parse error or a write error is the
    rejection reason unchanged. *)
Theorem file_errors_pass_through :
  forall (FS : Type) (readFile : FS -> string -> Completion string)
         (writeFile : FS -> string -> string -> Completion unit * FS)
         (req : Native.Require) (js : Fallback.JsImplementation) (url apath : string)
         (file : string) (fs : FS) (cached : Native.Cached) (e : JsError),
    (forall po,
        readFile fs file = Throw e ->
        Files.loadFile FS readFile req js url apath file po fs cached
        = (Files.RejectedWith e, cached))
    /\ (forall po content,
          readFile fs file = Return content ->
          fst (Index.parse req js url apath content po cached) = Throw e ->
          fst (Files.loadFile FS readFile req js url apath file po fs cached)
          = Files.RejectedWith e)
    /\ (forall value so,
          fst (Index.stringify req js url apath value so cached) = Throw e ->
          fst (Files.saveFile FS writeFile req js url apath file value so fs cached)
          = (Files.RejectedWith e, fs))
    /\ (forall value so content,
          fst (Index.stringify req js url apath value so cached) = Return content ->
          fst (writeFile fs file content) = Throw e ->
          fst (fst (Files.saveFile FS writeFile req js url apath file value so fs cached))
          = Files.RejectedWith e).
Proof.
  intros FS readFile writeFile req js url apath file fs cached e.
  split; [|split; [|split]].
  - intros po Hr. unfold Files.loadFile. rewrite Hr. reflexivity.
  - intros po content Hr Hp. unfold Files.loadFile. rewrite Hr.
    destruct (Index.parse req js url apath content po cached) as [result cached'].
    cbn [fst] in Hp |- *. subst result. reflexivity.
  - intros value so Hs. unfold Files.saveFile.
    destruct (Index.stringify req js url apath value so cached) as [result cached'].
    cbn [fst] in Hs |- *. subst result. reflexivity.
  - intros value so content Hs Hw. unfold Files.saveFile.
    destruct (Index.stringify req js url apath value so cached) as [result cached'].
    cbn [fst] in Hs. subst result.
    destruct (writeFile fs file content) as [written fs'].
    cbn [fst] in Hw |- *. subst written. reflexivity.
Qed.

Lemma file_errors_pass_through_witness :
  Files.loadFile Samples.one_file Samples.read_one Fixtures.req_built Fixtures.marking_js
    Fixtures.index_url Fixtures.addon_path "b.koda" None
    (Some ("a.koda"%string, "x: 1"%string)) None
  = (Files.RejectedWith (mkError Error "ENOENT" None), None)
  /\ fst (Files.saveFile Samples.one_file Samples.write_one Fixtures.req_built
            Fixtures.marking_js Fixtures.index_url Fixtures.addon_path "a.koda"
            JsNull None (Some ("a.koda"%string, "x: 1"%string)) None)
     = (Files.RejectedWith (mkError Error "text serializer not linked" None),
        Some ("a.koda"%string, "x: 1"%string)).
Proof.
  split.
  - exact (proj1 (file_errors_pass_through Samples.one_file Samples.read_one
                    Samples.write_one Fixtures.req_built Fixtures.marking_js
                    Fixtures.index_url Fixtures.addon_path "b.koda"
                    (Some ("a.koda"%string, "x: 1"%string)) None
                    (mkError Error "ENOENT" None))
             None eq_refl).
  - exact (proj1 (proj2 (proj2
             (file_errors_pass_through Samples.one_file Samples.read_one
                Samples.write_one Fixtures.req_built Fixtures.marking_js
                Fixtures.index_url Fixtures.addon_path "a.koda"
                (Some ("a.koda"%string, "x: 1"%string)) None
                (mkError Error "text serializer not linked" None))))
             JsNull None eq_refl).
Defined.
